(** * Cache service and rate limiter of the chapter API: a shallow embedding

    The development follows the JavaScript sources
    - [services/cacheService.js]   (class [CacheService]),
    - [middleware/rateLimiter.js]  (class [RedisStore], [createRateLimiter]),
    - [controllers/chapterController.js] ([getChapters], [uploadChapters]),
    - [config/redis.js]            ([getRedisClient]),
    - [utils/validation.js]        ([validateChapters]),
    - [app.js]                     ([sanitize] of [sanitizeInput]).

    The schema check of one chapter or query, the JSON reader of an
    uploaded file and the record store are parameters of the handlers
    that use them.

    Conventions of the model.
    - Strings are byte strings: a JavaScript string is represented by its
      UTF-8 encoding (a lone surrogate has none).
    - Time is the clock of the event loop in milliseconds.  A promise is
      described by when and how it settles; an async function is run to
      its end on a world and returns, throws, or waits for ever.
    - The store is its keyspace together with a script of how the
      connection answers the commands to come: with a reply after a
      delay, with a failure after a delay, or not at all.
    - The connection status of a client object does not change while one
      operation runs.
    - An operation is followed to its own end, and the process around
      it is left out.  A timer that rejects when nothing waits for it
      any more is an unhandled rejection, which [server.js] answers by
      shutting the server down; the world an operation ends on says
      nothing of what a timer it left behind does afterwards. *)

From Stdlib Require Import ZArith Ascii String List Bool Lia.
From Stdlib Require Import DecimalString DecimalPos DecimalZ.
From Stdlib Require OrderedTypeEx DecimalFacts.
From stdpp Require Import base option list sorting gmap strings.

Local Open Scope Z_scope.

(** ** JavaScript values *)

Module Js.

(** A JavaScript number, by the decimal that [Number::toString] prints
    for it: the shortest one that reads back as the number.  [Int z] is
    the number that prints as the integer [z]; [Dec negative digits n]
    is a number that is not an integer, with the digits [digits] and the
    decimal point after the first [n] of them (the value is
    [0.digits * 10^n]; the digits neither begin nor end with a zero).
    A decimal that no number prints as stands for no number. *)
Inductive number :=
| Int (z : Z)
| NaN
| Infinity (negative : bool)
| NegZero
| Dec (negative : bool) (digits : string) (n : Z).

#[warnings="-register-all"]
Inductive value :=
| VUndefined
| VNull
| VBool (b : bool)
| VNum (n : number)
| VStr (s : string)
| VArr (items : list value)
| VObj (props : list (string * value)).

(** An object is the list of its own enumerable properties in the order
    [Object.keys] enumerates them. *)
Abbreviation object := (list (string * value)).

Definition Object_keys (o : object) : list string := o.*1.

(** [o[k]]: a missing property reads as [undefined]. *)
Fixpoint prop_get (o : object) (k : string) : value :=
  match o with
  | [] => VUndefined
  | (k', v) :: o' => if String.eqb k' k then v else prop_get o' k
  end.

(** Truthiness ([if (x)], [!x], [x ? a : b]). *)
Definition truthy (v : value) : bool :=
  match v with
  | VUndefined | VNull => false
  | VBool b => b
  | VNum (Int z) => negb (z =? 0)
  | VNum NaN => false
  | VNum (Infinity _) => true
  | VNum NegZero => false
  | VNum (Dec _ _ _) => true
  | VStr s => negb (String.eqb s "")
  | VArr _ | VObj _ => true
  end.

Definition nonempty (s : string) : bool := negb (String.eqb s "").

(** Decimal rendering of an integer, as the store prints a counter and
    as [Number::toString] prints an integer of at most 21 digits. *)
Definition Z_to_string (z : Z) : string := NilZero.string_of_int (Z.to_int z).

(** The integer a string is the canonical rendering of, if any. *)
Definition Z_of_string (s : string) : option Z :=
  match NilZero.int_of_string s with
  | Some d =>
      let z := Z.of_int d in
      if String.eqb (Z_to_string z) s then Some z else None
  | None => None
  end.

(** *** [Number::toString]

    With [k] digits and the decimal point after the first [n] of them:
    the digits and [n - k] zeros when [k <= n <= 21]; the digits with
    the point among them when [0 < n <= 21]; [0.], [-n] zeros and the
    digits when [-6 < n <= 0]; and otherwise the first digit, the
    others behind a point if there are any, [e], the sign of [n - 1]
    and its magnitude. *)

Fixpoint zeros (n : nat) : string :=
  match n with
  | O => ""
  | S n => String "0" (zeros n)
  end.

Fixpoint take (n : nat) (s : string) : string :=
  match n, s with
  | S n, String c s' => String c (take n s')
  | _, _ => ""
  end.

Fixpoint drop (n : nat) (s : string) : string :=
  match n, s with
  | S n, String _ s' => drop n s'
  | _, _ => s
  end.

Definition is_zero (c : ascii) : bool := Ascii.eqb c "0".

Fixpoint strip_zeros_front (s : string) : string :=
  match s with
  | String c s' => if is_zero c then strip_zeros_front s' else s
  | EmptyString => ""
  end.

Fixpoint strip_zeros_end (s : string) : string :=
  match s with
  | String c s' =>
      match strip_zeros_end s' with
      | EmptyString => if is_zero c then "" else String c ""
      | r => String c r
      end
  | EmptyString => ""
  end.

Definition exponent_form (digits : string) (n : Z) : string :=
  match digits with
  | String first others =>
      String first
        ((if nonempty others then "." +:+ others else "")
         +:+ "e" +:+ (if 0 <=? n - 1 then "+" else "-") +:+ Z_to_string (Z.abs (n - 1)))
  | EmptyString => ""
  end.

Definition decimal_to_string (digits : string) (n : Z) : string :=
  let k := Z.of_nat (String.length digits) in
  if (k <=? n) && (n <=? 21) then digits +:+ zeros (Z.to_nat (n - k))
  else if (0 <? n) && (n <=? 21) then
    take (Z.to_nat n) digits +:+ "." +:+ drop (Z.to_nat n) digits
  else if (-6 <? n) && (n <=? 0) then "0." +:+ zeros (Z.to_nat (- n)) +:+ digits
  else exponent_form digits n.

(** An integer of at most 21 digits prints as its digits; a longer one
    with an exponent, its zeros at the end left out. *)
Definition number_to_string (n : number) : string :=
  match n with
  | Int z =>
      let d := Z_to_string (Z.abs z) in
      if (String.length d <=? 21)%nat then Z_to_string z
      else (if z <? 0 then "-" else "")
           +:+ exponent_form (strip_zeros_end d) (Z.of_nat (String.length d))
  | NaN => "NaN"
  | Infinity false => "Infinity"
  | Infinity true => "-Infinity"
  | NegZero => "0"
  | Dec negative digits n =>
      (if negative then "-" else "") +:+ decimal_to_string digits n
  end.

Fixpoint join (sep : string) (l : list string) : string :=
  match l with
  | [] => ""
  | [s] => s
  | s :: l' => s +:+ sep +:+ join sep l'
  end.

(** The abstract operation [ToString]. *)
Fixpoint ToString (v : value) : string :=
  match v with
  | VUndefined => "undefined"
  | VNull => "null"
  | VBool true => "true"
  | VBool false => "false"
  | VNum n => number_to_string n
  | VStr s => s
  | VArr items =>
      join ","
        ((fix elems (l : list value) : list string :=
            match l with
            | [] => []
            | VUndefined :: l' => "" :: elems l'
            | VNull :: l' => "" :: elems l'
            | x :: l' => ToString x :: elems l'
            end) items)
  | VObj _ => "[object Object]"
  end.

(** *** [encodeURIComponent] *)

Definition is_digit (c : ascii) : bool :=
  let n := N_of_ascii c in ((48 <=? n) && (n <=? 57))%N.

Definition is_alpha (c : ascii) : bool :=
  let n := N_of_ascii c in
  (((65 <=? n) && (n <=? 90)) || ((97 <=? n) && (n <=? 122)))%N.

(** The characters [encodeURIComponent] leaves alone:
    letters, digits and [- _ . ! ~ * ' ( )]. *)
Definition uri_unreserved (c : ascii) : bool :=
  is_alpha c || is_digit c ||
  match c with
  | "-" | "_" | "." | "!" | "~" | "*" | "'" | "(" | ")" => true
  | _ => false
  end%char.

Definition hex_digit (n : N) : ascii :=
  if (n <? 10)%N then ascii_of_N (48 + n) else ascii_of_N (55 + n).

Definition percent_encode (c : ascii) : string :=
  let n := N_of_ascii c in
  String "%" (String (hex_digit (n / 16)) (String (hex_digit (n mod 16)) "")).

Fixpoint encodeURIComponent (s : string) : string :=
  match s with
  | EmptyString => ""
  | String c s' =>
      (if uri_unreserved c then String c "" else percent_encode c)
        +:+ encodeURIComponent s'
  end.

(** *** [JSON.stringify]

    [None] is the result [undefined] (no text at all).  Inside an array
    [undefined] is written as [null]; inside an object a property whose
    value is [undefined] is left out.  [NaN] and the infinities are
    written as [null], any other number as [Number::toString] prints
    it. *)

Definition dquote : ascii := ascii_of_N 34.

Definition hex_digit_lower (n : N) : ascii :=
  if (n <? 10)%N then ascii_of_N (48 + n) else ascii_of_N (87 + n).

Definition escape_char (c : ascii) : string :=
  let n := N_of_ascii c in
  if (n =? 34)%N then String "\" (String dquote "")
  else if (n =? 92)%N then "\\"
  else if (n =? 8)%N then "\b"
  else if (n =? 12)%N then "\f"
  else if (n =? 10)%N then "\n"
  else if (n =? 13)%N then "\r"
  else if (n =? 9)%N then "\t"
  else if (n <? 32)%N then
    String "\" (String "u" (String "0" (String "0"
      (String (hex_digit_lower (n / 16)) (String (hex_digit_lower (n mod 16)) "")))))
  else String c "".

Fixpoint escape (s : string) : string :=
  match s with
  | EmptyString => ""
  | String c s' => escape_char c +:+ escape s'
  end.

Definition quote (s : string) : string :=
  String dquote (escape s +:+ String dquote "").

Definition member_text (k : string) (t : option string) : option string :=
  match t with
  | Some t => Some (quote k +:+ ":" +:+ t)
  | None => None
  end.

Fixpoint JSON_stringify (v : value) : option string :=
  match v with
  | VUndefined => None
  | VNull => Some "null"
  | VBool true => Some "true"
  | VBool false => Some "false"
  | VNum NaN | VNum (Infinity _) => Some "null"
  | VNum n => Some (number_to_string n)
  | VStr s => Some (quote s)
  | VArr items =>
      Some ("[" +:+
        join ","
          ((fix elems (l : list value) : list string :=
              match l with
              | [] => []
              | x :: l' => default "null" (JSON_stringify x) :: elems l'
              end) items) +:+ "]")
  | VObj props =>
      Some ("{" +:+
        join ","
          ((fix members (l : list (string * value)) : list string :=
              match l with
              | [] => []
              | (k, x) :: l' =>
                  match member_text k (JSON_stringify x) with
                  | Some m => m :: members l'
                  | None => members l'
                  end
              end) props) +:+ "}")
  end.

(** *** [JSON.parse]

    A recursive-descent reader of JSON text: literals, numbers with
    their fraction and exponent, strings with their escapes, arrays and
    objects.  [None] is a [SyntaxError].  A number is read as the
    decimal the text writes, which is the number when the text is one
    that [JSON.stringify] writes (a text with more digits than a number
    holds is rounded by the engine, which the reader does not do).
    White space between tokens is read as an error; [JSON.stringify]
    writes none.  The properties of an object are in the order of the
    text, which is the order the object enumerates them in when the
    text is one that [JSON.stringify] wrote. *)

Definition hex_value (c : ascii) : option N :=
  let n := N_of_ascii c in
  if ((48 <=? n) && (n <=? 57))%N then Some (n - 48)%N
  else if ((97 <=? n) && (n <=? 102))%N then Some (n - 87)%N
  else if ((65 <=? n) && (n <=? 70))%N then Some (n - 55)%N
  else None.

(** UTF-8 bytes of a code point below 0x10000 (a [\uXXXX] escape). *)
Definition utf8_encode (n : N) : string :=
  if (n <? 128)%N then String (ascii_of_N n) ""
  else if (n <? 2048)%N then
    String (ascii_of_N (192 + n / 64)) (String (ascii_of_N (128 + n mod 64)) "")
  else
    String (ascii_of_N (224 + n / 4096))
      (String (ascii_of_N (128 + (n / 64) mod 64))
         (String (ascii_of_N (128 + n mod 64)) "")).

(** Reads the characters of a string literal after its opening quote,
    up to and including the closing quote. *)
Fixpoint parse_chars (s : string) : option (string * string) :=
  match s with
  | EmptyString => None
  | String c s1 =>
      let n := N_of_ascii c in
      if (n =? 34)%N then Some ("", s1)
      else if (n =? 92)%N then
        match s1 with
        | String e s2 =>
            let simple (b : N) :=
              match parse_chars s2 with
              | Some (t, r) => Some (String (ascii_of_N b) t, r)
              | None => None
              end in
            match e with
            | "b"%char => simple 8%N
            | "f"%char => simple 12%N
            | "n"%char => simple 10%N
            | "r"%char => simple 13%N
            | "t"%char => simple 9%N
            | "/"%char => simple 47%N
            | "u"%char =>
                match s2 with
                | String h1 (String h2 (String h3 (String h4 s3))) =>
                    match hex_value h1, hex_value h2, hex_value h3, hex_value h4 with
                    | Some a, Some b, Some c', Some d =>
                        match parse_chars s3 with
                        | Some (t, r) =>
                            Some (utf8_encode (((a * 16 + b) * 16 + c') * 16 + d) +:+ t, r)
                        | None => None
                        end
                    | _, _, _, _ => None
                    end
                | _ => None
                end
            | _ =>
                if ((N_of_ascii e =? 34) || (N_of_ascii e =? 92))%N
                then simple (N_of_ascii e) else None
            end
        | EmptyString => None
        end
      else if (n <? 32)%N then None
      else
        match parse_chars s1 with
        | Some (t, r) => Some (String c t, r)
        | None => None
        end
  end.

Definition is_number_char (c : ascii) : bool :=
  is_digit c || (N_of_ascii c =? 45)%N.

(** The longest prefix of digits, and what follows. *)
Fixpoint span_digits (s : string) : string * string :=
  match s with
  | EmptyString => ("", "")
  | String c s' =>
      if is_digit c then
        let (t, r) := span_digits s' in (String c t, r)
      else ("", s)
  end.

(** The integer part of a number: [0], or digits that begin with
    another digit. *)
Definition is_int_part (d : string) : bool :=
  match d with
  | EmptyString => false
  | String c EmptyString => true
  | String c _ => negb (is_zero c)
  end.

(** The value of a row of digits. *)
Definition digits_value (d : string) : Z :=
  default 0 (Z_of_string (match strip_zeros_front d with
                          | EmptyString => "0"
                          | t => t
                          end)).

(** The number with the digits [digits] and the decimal point after the
    first [point] of them: zeros at either end do not count. *)
Definition decimal_number (negative : bool) (digits : string) (point : Z) : number :=
  let d1 := strip_zeros_front digits in
  let n := point - Z.of_nat (String.length digits - String.length d1) in
  let d2 := strip_zeros_end d1 in
  match d2 with
  | EmptyString => if negative then NegZero else Int 0
  | _ =>
      let k := Z.of_nat (String.length d2) in
      if k <=? n then
        let z := digits_value (d2 +:+ zeros (Z.to_nat (n - k))) in
        Int (if negative then - z else z)
      else Dec negative d2 n
  end.

(** [. digits], if a point follows. *)
Definition parse_fraction (s : string) : option (string * string) :=
  match s with
  | String c s' =>
      if Ascii.eqb c "." then
        let (d, r) := span_digits s' in
        if nonempty d then Some (d, r) else None
      else Some ("", s)
  | EmptyString => Some ("", "")
  end.

(** [e] or [E], a sign and digits, if [e] or [E] follows. *)
Definition parse_exponent (s : string) : option (Z * string) :=
  match s with
  | String c s' =>
      if Ascii.eqb c "e" || Ascii.eqb c "E" then
        let (negative, s1) :=
          match s' with
          | String c' r =>
              if Ascii.eqb c' "-" then (true, r)
              else if Ascii.eqb c' "+" then (false, r)
              else (false, s')
          | EmptyString => (false, s')
          end in
        let (d, r) := span_digits s1 in
        if nonempty d
        then Some (if negative then - digits_value d else digits_value d, r)
        else None
      else Some (0, s)
  | EmptyString => Some (0, "")
  end.

(** A number of the JSON grammar: a minus sign or none, the integer
    part, a fraction or none, an exponent or none. *)
Definition parse_number (s : string) : option (value * string) :=
  let (negative, s0) :=
    match s with
    | String c r => if Ascii.eqb c "-" then (true, r) else (false, s)
    | EmptyString => (false, s)
    end in
  let (int, s1) := span_digits s0 in
  if is_int_part int then
    match parse_fraction s1 with
    | Some (frac, s2) =>
        match parse_exponent s2 with
        | Some (x, s3) =>
            Some (VNum (decimal_number negative (int +:+ frac)
                          (Z.of_nat (String.length int) + x)), s3)
        | None => None
        end
    | None => None
    end
  else None.

Fixpoint strip_prefix (p s : string) : option string :=
  match p, s with
  | EmptyString, _ => Some s
  | String a p', String b s' => if Ascii.eqb a b then strip_prefix p' s' else None
  | String _ _, EmptyString => None
  end.

(** Assignment [o[k] = v]: an existing property keeps its place. *)
Fixpoint prop_set (o : object) (k : string) (v : value) : object :=
  match o with
  | [] => [(k, v)]
  | (k', v') :: o' =>
      if String.eqb k' k then (k', v) :: o' else (k', v') :: prop_set o' k v
  end.

Definition define_props (members : list (string * value)) : object :=
  fold_left (fun o kv => prop_set o kv.1 kv.2) members [].

Inductive token := TValue | TElems | TMembers.

Definition parsed (t : token) : Type :=
  match t with
  | TValue => value
  | TElems => list value
  | TMembers => list (string * value)
  end.

(** The rest of the text when it starts with the character of code [n]. *)
Definition head_is (n : N) (s : string) : option string :=
  match s with
  | String c r => if (N_of_ascii c =? n)%N then Some r else None
  | EmptyString => None
  end.

Section Grammar.

(** The reader of the items nested one level deeper. *)
Variable item : forall t : token, string -> option (parsed t * string).

Definition parse_literal (s : string) : option (value * string) :=
  match strip_prefix "null" s with
  | Some r => Some (VNull, r)
  | None =>
      match strip_prefix "true" s with
      | Some r => Some (VBool true, r)
      | None =>
          match strip_prefix "false" s with
          | Some r => Some (VBool false, r)
          | None => None
          end
      end
  end.

Definition parse_value (s : string) : option (value * string) :=
  match s with
  | String c s1 =>
      let k := N_of_ascii c in
      if (k =? 34)%N then
        match parse_chars s1 with
        | Some (str, r) => Some (VStr str, r)
        | None => None
        end
      else if (k =? 91)%N then
        match head_is 93 s1 with
        | Some r => Some (VArr [], r)
        | None =>
            match item TElems s1 with
            | Some (items, r) => Some (VArr items, r)
            | None => None
            end
        end
      else if (k =? 123)%N then
        match head_is 125 s1 with
        | Some r => Some (VObj [], r)
        | None =>
            match item TMembers s1 with
            | Some (members, r) => Some (VObj (define_props members), r)
            | None => None
            end
        end
      else if is_number_char c then parse_number s
      else parse_literal s
  | EmptyString => None
  end.

(** The elements of an array, after the opening bracket or a comma, up
    to the closing bracket. *)
Definition parse_elems (s : string) : option (list value * string) :=
  match item TValue s with
  | Some (v, s') =>
      match head_is 44 s' with
      | Some r =>
          match item TElems r with
          | Some (items, r') => Some (v :: items, r')
          | None => None
          end
      | None =>
          match head_is 93 s' with
          | Some r => Some ([v], r)
          | None => None
          end
      end
  | None => None
  end.

(** The members of an object, likewise, up to the closing brace. *)
Definition parse_members (s : string) : option (list (string * value) * string) :=
  match head_is 34 s with
  | Some s1 =>
      match parse_chars s1 with
      | Some (key, s2) =>
          match head_is 58 s2 with
          | Some s3 =>
              match item TValue s3 with
              | Some (v, s') =>
                  match head_is 44 s' with
                  | Some r =>
                      match item TMembers r with
                      | Some (members, r') => Some ((key, v) :: members, r')
                      | None => None
                      end
                  | None =>
                      match head_is 125 s' with
                      | Some r => Some ([(key, v)], r)
                      | None => None
                      end
                  end
              | None => None
              end
          | None => None
          end
      | None => None
      end
  | None => None
  end.

End Grammar.

(** [parse_json n t s] reads one item of sort [t] at the front of [s].
    [n] bounds how many items are read inside one another or in a row;
    the length of the text is enough. *)
Fixpoint parse_json (n : nat) (t : token) (s : string) {struct n}
  : option (parsed t * string) :=
  match n with
  | O => None
  | S n =>
      match t return option (parsed t * string) with
      | TValue => parse_value (parse_json n) s
      | TElems => parse_elems (parse_json n) s
      | TMembers => parse_members (parse_json n) s
      end
  end.

(** Values that [JSON.stringify] and [JSON.parse] carry faithfully:
    null, booleans, integers, strings, and arrays and objects of these,
    no object with a repeated key. *)
Fixpoint is_json (v : value) : bool :=
  match v with
  | VUndefined => false
  | VNull | VBool _ | VStr _ => true
  | VNum (Int _) => true
  | VNum _ => false
  | VArr items =>
      (fix all (l : list value) : bool :=
         match l with
         | [] => true
         | x :: l' => is_json x && all l'
         end) items
  | VObj props =>
      bool_decide (NoDup props.*1) &&
      (fix all (l : list (string * value)) : bool :=
         match l with
         | [] => true
         | (_, x) :: l' => is_json x && all l'
         end) props
  end.

(** [JSON.parse]: the whole text is one value. *)
Definition JSON_parse (s : string) : option value :=
  match parse_json (S (String.length s)) TValue s with
  | Some (v, EmptyString) => Some v
  | _ => None
  end.


(** *** Texts of values

    What the round trip of a value through its text rests on. *)

(** Every character of the text satisfies the test. *)
Fixpoint all_chars (P : ascii -> bool) (s : string) : bool :=
  match s with
  | EmptyString => true
  | String c s' => P c && all_chars P s'
  end.

(** The digits of a number that is not an integer: at least one, none
    but digits, no zero at either end, and the decimal point before the
    last of them. *)
Definition is_decimal (digits : string) (n : Z) : bool :=
  nonempty digits && all_chars is_digit digits
  && String.eqb (strip_zeros_front digits) digits
  && String.eqb (strip_zeros_end digits) digits
  && (n <? Z.of_nat (String.length digits)).

(** A value whose text is read back: every number that is not an
    integer has its digits, and no object has a key twice. *)
Fixpoint legible (v : value) : bool :=
  match v with
  | VNum (Dec _ digits n) => is_decimal digits n
  | VArr items =>
      (fix all (l : list value) : bool :=
         match l with
         | [] => true
         | x :: l' => legible x && all l'
         end) items
  | VObj props =>
      bool_decide (NoDup props.*1) &&
      (fix all (l : list (string * value)) : bool :=
         match l with
         | [] => true
         | (_, x) :: l' => legible x && all l'
         end) props
  | _ => true
  end.

(** *** The numbers there are

    A number is a double: [m * 2^e] with [m < 2^53] and
    [-1074 <= e <= 971], where [2^52 <= m] unless [e = -1074]. *)









(** What [JSON.parse(JSON.stringify(v))] makes of a value, in the words
    of the corrected claim: [NaN] and the infinities become null,
    [-0] becomes [0], [undefined] becomes null inside an array and is
    dropped, with its key, from an object; everything else stays. *)
Fixpoint json_image (v : value) : value :=
  match v with
  | VNum NaN | VNum (Infinity _) => VNull
  | VNum NegZero => VNum (Int 0)
  | VArr items =>
      VArr ((fix elems (l : list value) : list value :=
               match l with
               | [] => []
               | VUndefined :: l' => VNull :: elems l'
               | x :: l' => json_image x :: elems l'
               end) items)
  | VObj props =>
      VObj ((fix members (l : list (string * value)) : list (string * value) :=
               match l with
               | [] => []
               | (_, VUndefined) :: l' => members l'
               | (k, x) :: l' => (k, json_image x) :: members l'
               end) props)
  | _ => v
  end.

(** The values that come back as they went: those that hold no
    [undefined], no [NaN], no infinity and no [-0]. *)
Fixpoint survives_json (v : value) : bool :=
  match v with
  | VUndefined => false
  | VNum NaN | VNum (Infinity _) | VNum NegZero => false
  | VArr items =>
      (fix all (l : list value) : bool :=
         match l with
         | [] => true
         | x :: l' => survives_json x && all l'
         end) items
  | VObj props =>
      (fix all (l : list (string * value)) : bool :=
         match l with
         | [] => true
         | (_, x) :: l' => survives_json x && all l'
         end) props
  | _ => true
  end.


(** A character a number can go on with. *)
Definition continues_number (c : ascii) : bool :=
  is_number_char c || Ascii.eqb c "+" || Ascii.eqb c "." || Ascii.eqb c "e"
  || Ascii.eqb c "E".

(** The text cannot continue a number. *)
Definition stops_number (s : string) : bool :=
  match s with
  | EmptyString => true
  | String c _ => negb (continues_number c)
  end.

(** [text] is a text of [v]: it is not empty, does not begin with a
    closing bracket, and is read back as [v] wherever it is followed by
    something that cannot continue a number. *)
Definition reads (v : value) (text : string) : Prop :=
  (forall r, head_is 93 (text +:+ r) = None) /\
  (0 < String.length text)%nat /\
  forall fuel rest,
    (String.length text < fuel)%nat -> stops_number rest = true ->
    parse_json fuel TValue (text +:+ rest) = Some (v, rest).

(** A text of a member: the quoted key, a colon and a text of the value. *)
Definition reads_member (kv : string * value) (text : string) : Prop :=
  exists tv, text = quote kv.1 +:+ ":" +:+ tv /\ reads kv.2 tv.

(** *** Sorting strings

    [Array.prototype.sort] without a comparator orders strings by their
    code units; on the bytes of the encoding this is the lexicographic
    order of the bytes (the two differ only between a character beyond
    U+FFFF and one from U+E000 on).  The order is total and
    antisymmetric, so the outcome does not depend on the sorting
    algorithm. *)
Definition str_le (a b : string) : Prop := String.leb a b = true.

#[export] Instance str_le_dec a b : Decision (str_le a b).
Proof. unfold str_le. apply _. Defined.

Definition sort (l : list string) : list string := merge_sort str_le l.

End Js.

(** ** The key-value store

    The keyspace of the store and the commands the sources send.  A
    command runs at a time [t] (milliseconds) on a keyspace and yields a
    reply or an error reply, and the keyspace after it. *)

Module Redis.
Import Js.

Definition error := string.

Record entry := { data : string; expires : option Z }.

Abbreviation keyspace := (gmap string entry).

Definition live (t : Z) (e : entry) : bool :=
  match expires e with
  | None => true
  | Some x => t <? x
  end.

(** An entry past its expiry reads as absent. *)
Definition read (t : Z) (d : keyspace) (k : string) : option entry :=
  match d !! k with
  | Some e => if live t e then Some e else None
  | None => None
  end.

Definition reply (A : Type) : Type := (error + A) * keyspace.

Definition GET (k : string) (t : Z) (d : keyspace) : reply (option string) :=
  (inr (data <$> read t d k), d).

Definition SETEX (k : string) (seconds : Z) (v : string) (t : Z) (d : keyspace)
  : reply string :=
  if seconds <=? 0 then (inl "ERR invalid expire time in setex", d)
  else (inr "OK", <[k := {| data := v; expires := Some (t + seconds * 1000) |}]> d).

(** A plain [SET] discards any expiry the key had. *)
Definition SET (k : string) (v : string) (t : Z) (d : keyspace) : reply string :=
  (inr "OK", <[k := {| data := v; expires := None |}]> d).

Fixpoint del_keys (ks : list string) (t : Z) (d : keyspace) : Z * keyspace :=
  match ks with
  | [] => (0, d)
  | k :: ks' =>
      let (n, d') := del_keys ks' t (delete k d) in
      (match read t d k with Some _ => n + 1 | None => n end, d')
  end.

Definition DEL (ks : list string) (t : Z) (d : keyspace) : reply Z :=
  match ks with
  | [] => (inl "ERR wrong number of arguments for del", d)
  | _ => let (n, d') := del_keys ks t d in (inr n, d')
  end.

(** Glob patterns: [*] and [?]; other characters stand for themselves. *)
Fixpoint glob (p s : string) : bool :=
  match p with
  | EmptyString => negb (nonempty s)
  | String "*" p' =>
      (fix star (s : string) : bool :=
         glob p' s ||
         match s with
         | EmptyString => false
         | String _ s' => star s'
         end) s
  | String "?" p' =>
      match s with
      | String _ s' => glob p' s'
      | EmptyString => false
      end
  | String c p' =>
      match s with
      | String c' s' => Ascii.eqb c c' && glob p' s'
      | EmptyString => false
      end
  end.

Definition matching (pattern : string) (t : Z) (d : keyspace) : list string :=
  filter (fun k => glob pattern k = true ∧ is_Some (read t d k)) (map_to_list d).*1.

Definition KEYS (pattern : string) (t : Z) (d : keyspace) : reply (list string) :=
  (inr (matching pattern t d), d).

Definition INT64_MIN : Z := - 2 ^ 63.
Definition INT64_MAX : Z := 2 ^ 63 - 1.

(** [INCR] and [DECR]: a missing key counts from 0; the expiry of a
    live key is kept. *)
Definition incr_by (delta : Z) (k : string) (t : Z) (d : keyspace) : reply Z :=
  let old := read t d k in
  match Z_of_string (default "0" (data <$> old)) with
  | None => (inl "ERR value is not an integer or out of range", d)
  | Some z =>
      let z' := z + delta in
      if (z' <? INT64_MIN) || (INT64_MAX <? z')
      then (inl "ERR increment or decrement would overflow", d)
      else (inr z',
            <[k := {| data := Z_to_string z'; expires := old ≫= expires |}]> d)
  end.

Definition INCR := incr_by 1.
Definition DECR := incr_by (-1).

Definition EXPIRE (k : string) (seconds : Z) (t : Z) (d : keyspace) : reply Z :=
  match read t d k with
  | None => (inr 0, d)
  | Some e =>
      if seconds <=? 0 then (inr 1, delete k d)
      else (inr 1, <[k := {| data := data e; expires := Some (t + seconds * 1000) |}]> d)
  end.

Definition FLUSHDB (t : Z) (d : keyspace) : reply string := (inr "OK", ∅).

Definition PING (t : Z) (d : keyspace) : reply string := (inr "PONG", d).

End Redis.

(** ** Promises, async functions and the client object *)

Module Async.
Import Js.

Definition error := string.

(** When and how a promise settles, on the event-loop clock. *)
Inductive promise (A : Type) :=
| Fulfilled (at_time : Z) (v : A)
| Rejected (at_time : Z) (e : error)
| Pending.
Arguments Fulfilled {A}.
Arguments Rejected {A}.
Arguments Pending {A}.

(** How the connection answers a command: a reply after a delay, a
    failure after a delay, or nothing at all. *)
Inductive behaviour :=
| Reply (delay : Z)
| Fail (delay : Z) (e : error)
| Hang.

(** An argument of a client command that is not text. *)
Inductive exotic := PromiseObject | UndefinedValue.

Inductive arg :=
| Text (s : string)
| Exotic (x : exotic).

(** The client object.  [encodeArg] is what the client library puts on
    the wire for an argument that is not text: [None] when it refuses
    the argument with a [TypeError]. *)
Record client := {
  isOpen : bool;
  status : string;
  encodeArg : exotic -> option string;
}.

(** The fields of the [CacheService] singleton that change. *)
Record cache_fields := {
  this_client : option client;
  initialized : bool;
}.

(** The state the operations run on: the clock ([Date.now()]), the
    keyspace of the store, the answers of the connection to the
    commands to come (a reply at once when the script is used up), the
    module variable [redisClient] of [config/redis.js], and the fields
    of the cache service. *)
Record world := {
  now : Z;
  db : gmap string Redis.entry;
  answers : list behaviour;
  redisClient : option client;
  cacheService : cache_fields;
}.

(** The outcome of running an async function to the end: it returns, it
    throws, or it waits for ever on a promise that never settles. *)
Inductive outcome (A : Type) :=
| Returns (w : world) (a : A)
| Throws (w : world) (e : error)
| Blocks.
Arguments Returns {A}.
Arguments Throws {A}.
Arguments Blocks {A}.

Definition async (A : Type) : Type := world -> outcome A.

#[export] Instance async_ret : MRet async := fun A a w => Returns w a.

#[export] Instance async_bind : MBind async := fun A B f m w =>
  match m w with
  | Returns w' a => f a w'
  | Throws w' e => Throws w' e
  | Blocks => Blocks
  end.

Definition throw {A} (e : error) : async A := fun w => Throws w e.

Definition try_catch {A} (body : async A) (handler : error -> async A) : async A :=
  fun w =>
    match body w with
    | Returns w' a => Returns w' a
    | Throws w' e => handler e w'
    | Blocks => Blocks
    end.

Definition Date_now : async Z := fun w => Returns w (now w).

Definition set_clock (w : world) (t : Z) : world :=
  {| now := Z.max (now w) t; db := db w; answers := answers w;
     redisClient := redisClient w; cacheService := cacheService w |}.

(** [await p]: execution resumes when [p] settles, never before now. *)
Definition await {A} (p : promise A) : async A := fun w =>
  match p with
  | Fulfilled t v => Returns (set_clock w t) v
  | Rejected t e => Throws (set_clock w t) e
  | Pending => Blocks
  end.

(** [Promise.resolve(v)] for a plain value. *)
Definition Promise_resolve {A} (v : A) : async (promise A) := fun w =>
  Returns w (Fulfilled (now w) v).

(** [new Promise((_, reject) => setTimeout(() => reject(new Error(msg)), ms))]:
    a promise that can only reject, whatever the type it is raced at. *)
Record timer := { fires_at : Z; reason : error }.

Definition timeout_after (ms : Z) (msg : error) : async timer := fun w =>
  Returns w {| fires_at := now w + ms; reason := msg |}.

Definition rejecting {A} (t : timer) : promise A := Rejected (fires_at t) (reason t).

Definition settles_at {A} (t0 : Z) (p : promise A) : option Z :=
  match p with
  | Fulfilled t _ | Rejected t _ => Some (Z.max t0 t)
  | Pending => None
  end.

Fixpoint race_from {A} (t0 : Z) (best : promise A) (l : list (promise A))
  : promise A :=
  match l with
  | [] => best
  | p :: l' =>
      match settles_at t0 p, settles_at t0 best with
      | Some tp, Some tb => if tp <? tb then race_from t0 p l' else race_from t0 best l'
      | Some _, None => race_from t0 p l'
      | None, _ => race_from t0 best l'
      end
  end.

(** [Promise.race]: the first promise to settle decides; among promises
    already settled when the race starts, the first listed. *)
Definition Promise_race {A} (l : list (promise A)) : async (promise A) := fun w =>
  Returns w (race_from (now w) Pending l).

Definition next_answer (w : world) : behaviour * list behaviour :=
  match answers w with
  | [] => (Reply 0, [])
  | b :: l => (b, l)
  end.

(** Sending a command: the store runs it when it is sent and the
    promise settles after the delay of the connection's answer.  A
    command that gets no reply is not run. *)
Definition send {A} (cmd : Z -> gmap string Redis.entry -> Redis.reply A)
  : async (promise A) := fun w =>
  let (b, rest) := next_answer w in
  match b with
  | Reply delay =>
      let (r, d') := cmd (now w) (db w) in
      Returns {| now := now w; db := d'; answers := rest;
                 redisClient := redisClient w; cacheService := cacheService w |}
        (match r with
         | inl e => Rejected (now w + delay) e
         | inr a => Fulfilled (now w + delay) a
         end)
  | Fail delay e =>
      Returns {| now := now w; db := db w; answers := rest;
                 redisClient := redisClient w; cacheService := cacheService w |}
        (Rejected (now w + delay) e)
  | Hang =>
      Returns {| now := now w; db := db w; answers := rest;
                 redisClient := redisClient w; cacheService := cacheService w |}
        Pending
  end.

Definition encode (c : client) (a : arg) : option string :=
  match a with
  | Text s => Some s
  | Exotic x => encodeArg c x
  end.

(** A command with one argument to encode. *)
Definition send_with {A} (c : client) (a : arg)
  (cmd : string -> Z -> gmap string Redis.entry -> Redis.reply A)
  : async (promise A) :=
  match encode c a with
  | Some s => send (cmd s)
  | None => fun w => Returns w (Rejected (now w) "Invalid argument type")
  end.

(** The methods of the client object the sources call. *)
Definition client_get (c : client) (key : arg) : async (promise (option string)) :=
  send_with c key Redis.GET.

Definition client_setEx (c : client) (key : arg) (seconds : Z) (v : arg)
  : async (promise string) :=
  match encode c v with
  | Some text => send_with c key (fun k => Redis.SETEX k seconds text)
  | None => fun w => Returns w (Rejected (now w) "Invalid argument type")
  end.

Definition client_set (c : client) (key : string) (v : Z) : async (promise string) :=
  send (Redis.SET key (Z_to_string v)).

Definition client_del (c : client) (key : arg) : async (promise Z) :=
  send_with c key (fun k => Redis.DEL [k]).

Definition client_del_all (c : client) (keys : list string) : async (promise Z) :=
  send (Redis.DEL keys).

Definition client_keys (c : client) (pattern : string) : async (promise (list string)) :=
  send (Redis.KEYS pattern).

Definition client_incr (c : client) (key : string) : async (promise Z) :=
  send (Redis.INCR key).

Definition client_decr (c : client) (key : string) : async (promise Z) :=
  send (Redis.DECR key).

Definition client_expire (c : client) (key : string) (seconds : Z) : async (promise Z) :=
  send (Redis.EXPIRE key seconds).

Definition client_flushDb (c : client) : async (promise string) :=
  send Redis.FLUSHDB.

Definition client_ping (c : client) : async (promise string) :=
  send Redis.PING.

(** [config/redis.js]: the client, once it is ready. *)
Definition getRedisClient : async (option client) := fun w =>
  Returns w
    (match redisClient w with
     | Some c => if String.eqb (status c) "ready" then Some c else None
     | None => None
     end).

(** An async computation that throws. *)
Definition raises {A} (m : async A) (w : world) : Prop :=
  exists w' e, m w = Throws w' e.

(** An async computation that leaves the fields of the service and the
    client of [config/redis.js] as they are, however it ends. *)
Definition keeps {A} (m : async A) : Prop :=
  forall w,
    match m w with
    | Returns w' _ | Throws w' _ =>
        cacheService w' = cacheService w /\ redisClient w' = redisClient w
    | Blocks => True
    end.

(** An async computation that changes no key of the store but [k0],
    however it ends. *)
Definition touches_only (k0 : string) {A} (m : async A) : Prop :=
  forall w,
    match m w with
    | Returns w' _ | Throws w' _ => forall k, k <> k0 -> db w' !! k = db w !! k
    | Blocks => True
    end.

End Async.

(** ** [services/cacheService.js] *)

Module CacheService.
Import Js Async.

Definition CACHE_EXPIRY : Z := 3600.

(** [this.client && this.client.isOpen && this.initialized] *)
Definition available (w : world) : bool :=
  match this_client (cacheService w) with
  | Some c => isOpen c && initialized (cacheService w)
  | None => false
  end.

Definition isAvailable : async bool := fun w => Returns w (available w).

Definition set_this_client (c : option client) : async unit := fun w =>
  Returns {| now := now w; db := db w; answers := answers w;
             redisClient := redisClient w;
             cacheService := {| this_client := c;
                                initialized := initialized (cacheService w) |} |} tt.

Definition getClient : async (option client) := fun w =>
  match this_client (cacheService w) with
  | Some c =>
      if isOpen c then Returns w (Some c)
      else (c' ← getRedisClient; _ ← set_this_client c'; mret c') w
  | None => (c' ← getRedisClient; _ ← set_this_client c'; mret c') w
  end.

Definition defined_value (v : value) : bool :=
  match v with
  | VUndefined | VNull => false
  | _ => true
  end.

(** The body of [generateCacheKey].  [query = None] stands for a falsy
    [query] argument.  The [catch] branch guards [encodeURIComponent]
    against lone surrogates, which no byte string represents. *)
Definition cacheKey (endpoint : string) (query : option object) : string :=
  match query with
  | None => endpoint
  | Some query =>
      if (length (Object_keys query) =? 0)%nat then endpoint
      else
        let queryString :=
          join "&"
            (map (fun key => key +:+ "=" +:+ encodeURIComponent (ToString (prop_get query key)))
               (filter (fun key => defined_value (prop_get query key) = true)
                  (sort (Object_keys query)))) in
        endpoint +:+ (if nonempty queryString then "?" +:+ queryString else "")
  end.

(** [generateCacheKey] is declared [async]: a call returns a promise
    that is already fulfilled with the key. *)
Definition generateCacheKey (endpoint : string) (query : option object)
  : async (promise string) :=
  Promise_resolve (cacheKey endpoint query).

Definition get (key : arg) : async value :=
  avail ← isAvailable;
  if negb avail then mret VNull
  else
    try_catch
      (client ← getClient;
       match client with
       | None => mret VNull
       | Some client =>
           timeoutPromise ← timeout_after 5000 "Redis operation timeout";
           sent ← client_get client key;
           getPromise ← await sent;
           settled ← Promise_resolve getPromise;
           raced ← Promise_race [settled; rejecting timeoutPromise];
           data ← await raced;
           match data with
           | Some text =>
               if nonempty text then
                 match JSON_parse text with
                 | Some v => mret v
                 | None => throw "SyntaxError"
                 end
               else mret VNull
           | None => mret VNull
           end
       end)
      (fun _ => mret VNull).

Definition stringify_arg (data : value) : arg :=
  match JSON_stringify data with
  | Some text => Text text
  | None => Exotic UndefinedValue
  end.

Definition set (key : arg) (data : value) (expiry : Z) : async bool :=
  avail ← isAvailable;
  if negb avail then mret false
  else
    try_catch
      (client ← getClient;
       match client with
       | None => mret false
       | Some client =>
           timeoutPromise ← timeout_after 5000 "Redis operation timeout";
           sent ← client_setEx client key expiry (stringify_arg data);
           setPromise ← await sent;
           settled ← Promise_resolve setPromise;
           raced ← Promise_race [settled; rejecting timeoutPromise];
           _ ← await raced;
           mret true
       end)
      (fun _ => mret false).

Definition delete (key : arg) : async bool :=
  avail ← isAvailable;
  if negb avail then mret false
  else
    try_catch
      (client ← getClient;
       match client with
       | None => mret false
       | Some client =>
           timeoutPromise ← timeout_after 5000 "Redis operation timeout";
           sent ← client_del client key;
           deletePromise ← await sent;
           settled ← Promise_resolve deletePromise;
           raced ← Promise_race [settled; rejecting timeoutPromise];
           result ← await raced;
           mret (0 <? result)
       end)
      (fun _ => mret false).

Definition invalidatePattern (pattern : string) : async bool :=
  avail ← isAvailable;
  if negb avail then mret false
  else
    try_catch
      (client ← getClient;
       match client with
       | None => mret false
       | Some client =>
           timeoutPromise ← timeout_after 10000 "Redis operation timeout";
           sent ← client_keys client pattern;
           keysPromise ← await sent;
           settled ← Promise_resolve keysPromise;
           raced ← Promise_race [settled; rejecting timeoutPromise];
           keys ← await raced;
           if (0 <? length keys)%nat then
             sent' ← client_del_all client keys;
             deletePromise ← await sent';
             settled' ← Promise_resolve deletePromise;
             raced' ← Promise_race [settled'; rejecting timeoutPromise];
             _ ← await raced';
             mret true
           else mret true
       end)
      (fun _ => mret false).

Definition invalidateChapterCache : async bool :=
  invalidatePattern "/api/v1/chapters*".

Definition clearAll : async bool :=
  avail ← isAvailable;
  if negb avail then mret false
  else
    try_catch
      (client ← getClient;
       match client with
       | None => mret false
       | Some client =>
           timeoutPromise ← timeout_after 10000 "Redis operation timeout";
           sent ← client_flushDb client;
           flushPromise ← await sent;
           settled ← Promise_resolve flushPromise;
           raced ← Promise_race [settled; rejecting timeoutPromise];
           _ ← await raced;
           mret true
       end)
      (fun _ => mret false).

Inductive health :=
| NotInitialized
| Unavailable
| Healthy (response : string) (clientOpen : bool)
| HealthError (message : error).

(** [healthCheck] does not await the ping before the race. *)
Definition healthCheck : async health := fun w =>
  if negb (initialized (cacheService w)) then Returns w NotInitialized
  else
    (client ← getClient;
     match client with
     | None => mret Unavailable
     | Some client =>
         if negb (isOpen client) then mret Unavailable
         else
           try_catch
             (timeoutPromise ← timeout_after 3000 "Ping timeout";
              pingPromise ← client_ping client;
              raced ← Promise_race [pingPromise; rejecting timeoutPromise];
              pong ← await raced;
              mret (Healthy pong (isOpen client)))
             (fun e => mret (HealthError e))
     end) w.

(** The algorithm of [generateCacheKey] as the specification words it:
    drop the keys without a value, sort the rest, join, and append the
    result behind a question mark. *)
Definition spec_queryString (query : object) : string :=
  let kept := filter (fun kv => defined_value kv.2 = true) query in
  join "&"
    (map (fun key => key +:+ "=" +:+ encodeURIComponent (ToString (prop_get query key)))
       (sort (Object_keys kept))).

Definition spec_generateCacheKey (endpoint : string) (query : object) : string :=
  match query with
  | [] => endpoint
  | _ => endpoint +:+ "?" +:+ spec_queryString query
  end.

(** The query string in terms of the key-value map of the query and
    the list of its keys. *)
Definition queryString_of (m : gmap string value) (keys : list string) : string :=
  join "&"
    (map (fun key =>
            key +:+ "=" +:+ encodeURIComponent (ToString (default VUndefined (m !! key))))
       (sort (filter (fun key => defined_value (default VUndefined (m !! key)) = true) keys))).

End CacheService.

(** ** [middleware/rateLimiter.js] *)

Module RateLimiter.
Import Js Async.

Definition prefix : string := "rl:".

(** [RedisStore.getClient]: [getRedisClient] guarded by a [try]. *)
Definition getClient : async (option client) :=
  try_catch getRedisClient (fun _ => mret None).

Record hits := { totalHits : Z; resetTime : Z }.

Definition usable (c : option client) : option client :=
  match c with
  | Some c => if isOpen c then Some c else None
  | None => None
  end.

Definition incr (key : string) : async hits :=
  client ← getClient;
  match usable client with
  | None =>
      t ← Date_now;
      mret {| totalHits := 1; resetTime := t + 60000 |}
  | Some client =>
      let redisKey := prefix +:+ key in
      try_catch
        (sent ← client_incr client redisKey;
         current ← await sent;
         _ ← (if current =? 1
              then (sent' ← client_expire client redisKey 60; await sent')
              else mret 0);
         t ← Date_now;
         mret {| totalHits := current; resetTime := t + 60000 |})
        (fun _ =>
           t ← Date_now;
           mret {| totalHits := 1; resetTime := t + 60000 |})
  end.

Definition decrement (key : string) : async unit :=
  client ← getClient;
  match usable client with
  | None => mret tt
  | Some client =>
      let redisKey := prefix +:+ key in
      try_catch
        (sent ← client_decr client redisKey;
         current ← await sent;
         if current <? 0
         then (sent' ← client_set client redisKey 0; _ ← await sent'; mret tt)
         else mret tt)
        (fun _ => mret tt)
  end.

Definition resetKey (key : string) : async unit :=
  client ← getClient;
  match usable client with
  | None => mret tt
  | Some client =>
      let redisKey := prefix +:+ key in
      try_catch
        (sent ← client_del client (Text redisKey); _ ← await sent; mret tt)
        (fun _ => mret tt)
  end.

Record options := {
  opt_windowMs : option Z;
  opt_max : option Z;
  opt_message : option string;
  opt_skipSuccessfulRequests : option bool;
  opt_skipFailedRequests : option bool;
}.

Record rejection := {
  success : bool;
  error_label : string;
  message : string;
  retryAfter : Z;
}.

(** The configuration [createRateLimiter] hands to [rateLimit]. *)
Record limiter := {
  windowMs : Z;
  max : Z;
  reject_with : rejection;
  skipSuccessfulRequests : bool;
  skipFailedRequests : bool;
  store_incr : string -> async hits;
  store_decrement : string -> async unit;
  store_resetKey : string -> async unit;
}.

(** [Math.ceil(windowMs / 1000)] *)
Definition ceil_div (a b : Z) : Z := - ((- a) / b).

Definition createRateLimiter (o : options) : limiter :=
  let windowMs := default (60 * 1000) (opt_windowMs o) in
  let max := default 30 (opt_max o) in
  let message :=
    default "Too many requests from this IP, please try again later." (opt_message o) in
  {| windowMs := windowMs;
     max := max;
     reject_with := {| success := false; error_label := "Too many requests";
                       message := message; retryAfter := ceil_div windowMs 1000 |};
     skipSuccessfulRequests := default false (opt_skipSuccessfulRequests o);
     skipFailedRequests := default false (opt_skipFailedRequests o);
     store_incr := fun key =>
       try_catch (incr key)
         (fun _ => t ← Date_now; mret {| totalHits := 1; resetTime := t + windowMs |});
     store_decrement := fun key => try_catch (decrement key) (fun _ => mret tt);
     store_resetKey := fun key => try_catch (resetKey key) (fun _ => mret tt) |}.

Definition no_options : options :=
  {| opt_windowMs := None; opt_max := None; opt_message := None;
     opt_skipSuccessfulRequests := None; opt_skipFailedRequests := None |}.

(** The client the limiter works with: present, ready and open. *)
Definition connected (w : world) : option client :=
  match redisClient w with
  | Some c => if String.eqb (status c) "ready" && isOpen c then Some c else None
  | None => None
  end.

(** The first hit count the store holds for a key; no counter is 0. *)
Definition stored_hits (w : world) (key : string) : option Z :=
  match Redis.read (now w) (db w) (prefix +:+ key) with
  | Some e => Z_of_string (Redis.data e)
  | None => Some 0
  end.

End RateLimiter.

(** ** [controllers/chapterController.js] *)

Module ChapterController.
Import Js Async.

Inductive response :=
| Json (status : Z) (body : list value)
| Next (e : error).

(** Spreading a value into the arguments of a call. *)
Definition spread (v : value) : option (list value) :=
  match v with
  | VArr items => Some items
  | VStr s => Some (map (fun c => VStr (String c "")) (list_ascii_of_string s))
  | _ => None
  end.

Section Handler.

(** Query validation ([utils/validation.js]) and the listing query on
    the record store, with the shaping of its response. *)
Variable validateQuery : object -> list string + object.
Variable listChapters : object -> async value.

(** The value [getChapters] uses as cache key: the promise returned by
    [generateCacheKey], which it does not await.  A promise object has
    no property that holds what it resolves to, and its conversion to
    text is the same for every promise: what the store client is given
    is the promise object, whatever [p] holds. *)
Definition getChapters_key (p : promise string) : arg := Exotic PromiseObject.

Definition getChapters (query : object) : async response :=
  try_catch
    (match validateQuery query with
     | inl details =>
         mret (Json 400
                 [VObj [("success", VBool false);
                        ("error", VStr "Invalid query parameters");
                        ("details", VArr (map VStr details))]])
     | inr validatedQuery =>
         promised ← CacheService.generateCacheKey "/api/v1/chapters" (Some validatedQuery);
         let cacheKey := getChapters_key promised in
         cachedData ← CacheService.get cacheKey;
         if truthy cachedData then
           match spread cachedData with
           | Some args => mret (Json 200 args)
           | None => throw "TypeError: cachedData is not iterable"
           end
         else
           responseData ← listChapters validatedQuery;
           _ ← CacheService.set cacheKey responseData CacheService.CACHE_EXPIRY;
           mret (Json 200 [responseData])
     end)
    (fun e => mret (Next e)).

End Handler.

End ChapterController.

(** ** [utils/validation.js] *)

Module Validation.
Import Js.

(** An entry of [results.invalid]. *)
Record invalid_chapter := {
  index : nat;
  chapter : value;
  errors : list string;
}.

Record results := {
  valid : list value;
  invalid : list invalid_chapter;
}.

Section Chapters.

(** [validateChapter], the check of one chapter against the schema: the
    messages of [error.details], or the validated value. *)
Variable validateChapter : value -> list string + value.

(** [chapters.forEach((chapter, index) => ...)] from [index] on, with
    the two arrays the callback pushes to. *)
Fixpoint forEach_from (index : nat) (chapters : list value) (res : results) : results :=
  match chapters with
  | [] => res
  | chapter :: rest =>
      forEach_from (S index) rest
        (match validateChapter chapter with
         | inl errors =>
             {| valid := valid res;
                invalid := invalid res ++ [{| index := index; chapter := chapter;
                                              errors := errors |}] |}
         | inr v =>
             {| valid := valid res ++ [v]; invalid := invalid res |}
         end)
  end.

Definition validateChapters (chapters : list value) : results :=
  forEach_from 0 chapters {| valid := []; invalid := [] |}.

End Chapters.

End Validation.

(** ** [controllers/chapterController.js]: the upload *)

Module Upload.
Import Js Async Validation.

(** An element of [bulkError.writeErrors]. *)
Record writeError := {
  we_index : nat;
  errmsg : option string;
}.

(** What [Chapter.insertMany] rejects with. *)
Record bulkError := {
  writeErrors : option (list writeError);
  insertedDocs : option (list value);
}.

(** The request, as far as the handler reads it: the text of the
    uploaded file, if there is one, and the parsed body. *)
Record request := {
  file : option string;
  body : value;
}.

(** [x.k] for the keys the response reads, which no primitive and no
    array has: reading a property of null or undefined throws. *)
Definition member (x : value) (k : string) : async value :=
  match x with
  | VUndefined | VNull => throw "TypeError"
  | VObj o => mret (prop_get o k)
  | _ => mret VUndefined
  end.

(** [l.map(f)] for a callback that may throw. *)
Fixpoint map_each {A B} (f : A -> async B) (l : list A) : async (list B) :=
  match l with
  | [] => mret []
  | x :: l' => y ← f x; ys ← map_each f l'; mret (y :: ys)
  end.

Definition uploaded_entry (chapter : value) : async value :=
  id ← member chapter "_id";
  subject ← member chapter "subject";
  name ← member chapter "chapter";
  class ← member chapter "class";
  mret (VObj [("id", id); ("subject", subject); ("chapter", name); ("class", class)]).

Definition failed_entry (failed : invalid_chapter) : async value :=
  subject ← member (chapter failed) "subject";
  name ← member (chapter failed) "chapter";
  class ← member (chapter failed) "class";
  mret (VObj [("index", VNum (Int (Z.of_nat (index failed))));
              ("chapter", VObj [("subject", subject); ("chapter", name); ("class", class)]);
              ("errors", VArr (map VStr (errors failed)))]).

Definition bad_request (message : string) : ChapterController.response :=
  ChapterController.Json 400 [VObj [("success", VBool false); ("error", VStr message)]].

(** The entry pushed to [failedChapters] for a write error. *)
Definition write_failure (valid : list value) (writeError : writeError) : invalid_chapter :=
  {| index := we_index writeError;
     chapter := default VUndefined (valid !! we_index writeError);
     errors := [match errmsg writeError with
                | Some m => if nonempty m then m else "Database error"
                | None => "Database error"
                end] |}.

Section Handler.

(** [JSON.parse] of the uploaded text ([None] when it throws), the
    check of one chapter, and [Chapter.insertMany], which fulfils with
    the saved documents or rejects with an error. *)
Variable JSON_parse_file : string -> option value.
Variable validateChapter : value -> list string + value.
Variable insertMany : list value -> async (bulkError + list value).

(** [chaptersData], or the message of the 400 response. *)
Definition chaptersData (req : request) : string + value :=
  match file req with
  | Some fileContent =>
      match JSON_parse_file fileContent with
      | Some v => inr v
      | None => inl "Invalid JSON file format"
      end
  | None =>
      match body req with
      | VArr _ => inr (body req)
      | _ => inl "No chapters data provided. Send as JSON array in body or upload JSON file."
      end
  end.

(** The two arrays after the insert: [uploadedChapters] and
    [failedChapters]. *)
Definition insert_valid (validationResult : results)
  : async (list value * list invalid_chapter) :=
  if (0 <? length (valid validationResult))%nat then
    try_catch
      (saved ← insertMany (valid validationResult);
       match saved with
       | inr savedChapters => mret (savedChapters, invalid validationResult)
       | inl bulkError =>
           mret (default [] (insertedDocs bulkError),
                 invalid validationResult
                 ++ map (write_failure (valid validationResult))
                      (default [] (writeErrors bulkError)))
       end)
      (fun _ => mret ([], invalid validationResult))
  else mret ([], invalid validationResult).

Definition uploadChapters (req : request) : async ChapterController.response :=
  try_catch
    (match chaptersData req with
     | inl message => mret (bad_request message)
     | inr (VArr (first :: others)) =>
         let validationResult := validateChapters validateChapter (first :: others) in
         arrays ← insert_valid validationResult;
         let uploadedChapters := arrays.1 in
         let failedChapters := arrays.2 in
         _ ← (if (0 <? length uploadedChapters)%nat
              then CacheService.invalidateChapterCache
              else mret false);
         uploaded ← map_each uploaded_entry uploadedChapters;
         failed ← map_each failed_entry failedChapters;
         mret (ChapterController.Json 201
                 [VObj [("success", VBool true);
                        ("message",
                         VStr (Z_to_string (Z.of_nat (length uploadedChapters))
                               +:+ " chapters uploaded successfully"));
                        ("data",
                         VObj [("uploadedCount",
                                VNum (Int (Z.of_nat (length uploadedChapters))));
                               ("failedCount",
                                VNum (Int (Z.of_nat (length failedChapters))));
                               ("uploadedChapters", VArr uploaded);
                               ("failedChapters", VArr failed)])]])
     | inr _ => mret (bad_request "Chapters data must be a non-empty array")
     end)
    (fun e => mret (ChapterController.Next e)).

End Handler.

(** The properties of an object, none for any other value. *)
Definition fields (v : value) : object :=
  match v with
  | VObj o => o
  | _ => []
  end.

(** A value whose properties can be read: any but null and undefined. *)
Definition readable (x : value) : bool :=
  match x with
  | VUndefined | VNull => false
  | _ => true
  end.

End Upload.

(** ** [app.js]: the sanitising middleware *)

Module Sanitizer.
Import Js.

(** [/^\$/.test(key)] *)
Definition dollar_key (key : string) : bool :=
  match key with
  | String "$" _ => true
  | _ => false
  end.

(** [typeof v === 'object'] *)
Definition typeof_object (v : value) : bool :=
  match v with
  | VNull | VArr _ | VObj _ => true
  | _ => false
  end.

(** The inner function [sanitize] of [sanitizeInput], which works on
    its argument in place: the value is the argument after the call.
    Only an object that is not an array is worked on: its own keys that
    start with a dollar are deleted, and the values of the other keys
    are sanitized in turn when their type is [object]. *)
Fixpoint sanitize (obj : value) : value :=
  match obj with
  | VObj props =>
      VObj
        ((fix each (l : list (string * value)) : list (string * value) :=
            match l with
            | [] => []
            | (key, v) :: l' =>
                if dollar_key key then each l'
                else (key, if typeof_object v then sanitize v else v) :: each l'
            end) props)
  | _ => obj
  end.

(** No object has a key that starts with a dollar, as far as objects
    are reached through properties alone. *)
Fixpoint dollar_free (v : value) : bool :=
  match v with
  | VObj props =>
      (fix each (l : list (string * value)) : bool :=
         match l with
         | [] => true
         | (key, x) :: l' => negb (dollar_key key) && dollar_free x && each l'
         end) props
  | _ => true
  end.

(** The own properties of a value. *)
Definition props_of (v : value) : object :=
  match v with
  | VObj props => props
  | _ => []
  end.

End Sanitizer.

(** ** Example worlds *)

Module Examples.
Import Js Async.

(** A client library that refuses an argument that is not text. *)
Definition strict_client : client :=
  {| isOpen := true; status := "ready"; encodeArg := fun _ => None |}.

(** A client library that sends the string conversion of any argument. *)
Definition lenient_client : client :=
  {| isOpen := true; status := "ready";
     encodeArg := fun x =>
       match x with
       | PromiseObject => Some "[object Promise]"
       | UndefinedValue => Some ""
       end |}.

(** The store is connected and the cache service initialised; the
    connection answers the next commands as scripted. *)
Definition online (script : list behaviour) (d : gmap string Redis.entry) : world :=
  {| now := 1000; db := d; answers := script;
     redisClient := Some strict_client;
     cacheService := {| this_client := Some strict_client; initialized := true |} |}.

(** The same with a client library that converts any argument to text. *)
Definition online_lenient (script : list behaviour) (d : gmap string Redis.entry) : world :=
  {| now := 1000; db := d; answers := script;
     redisClient := Some lenient_client;
     cacheService := {| this_client := Some lenient_client; initialized := true |} |}.

(** There is no store. *)
Definition offline : world :=
  {| now := 1000; db := ∅; answers := [];
     redisClient := None;
     cacheService := {| this_client := None; initialized := false |} |}.

(** A limiter with a window of two minutes. *)
Definition two_minutes : RateLimiter.options :=
  {| RateLimiter.opt_windowMs := Some 120000;
     RateLimiter.opt_max := None;
     RateLimiter.opt_message := None;
     RateLimiter.opt_skipSuccessfulRequests := None;
     RateLimiter.opt_skipFailedRequests := None |}.

Definition address : string := "203.0.113.7".

(** The counter of [address] stands at 0 and expires at 61000. *)
Definition idle_counter : gmap string Redis.entry :=
  {[ "rl:203.0.113.7" := {| Redis.data := "0"; Redis.expires := Some 61000 |} ]}.


(** A query validation that accepts every query as it is. *)
Definition accept_all (query : object) : list string + object := inr query.

(** A record store that answers with the page asked for. *)
Definition echo_page (query : object) : async value :=
  mret (VObj [("success", VBool true); ("currentPage", prop_get query "page")]).

End Examples.

(** * Properties *)

Import Js Async.

(** ** Running async code *)

Section Run.
Context {A B : Type}.

Lemma bind_returns (m : async A) (f : A -> async B) w w' a :
  m w = Returns w' a -> (m ≫= f) w = f a w'.
Proof. intros H. unfold mbind, async_bind. by rewrite H. Qed.

Lemma try_returns (m : async A) h w w' a :
  m w = Returns w' a -> try_catch m h w = Returns w' a.
Proof. intros H. unfold try_catch. by rewrite H. Qed.

End Run.

(** A value that is already there wins any race. *)
Lemma race_plain_value {A} (t0 : Z) (v : A) (l : list (promise A)) :
  race_from t0 Pending (Fulfilled t0 v :: l) = Fulfilled t0 v.
Proof.
  cbn. induction l as [|p l IH]; cbn; [done|].
  destruct p as [t ?|t ?|]; cbn; [| |done];
    (destruct (Z.ltb_spec (Z.max t0 t) (Z.max t0 t0)); [lia|done]).
Qed.

(** ** Decimal renderings *)

Lemma Z_of_to_string (z : Z) : Z_of_string (Z_to_string z) = Some z.
Proof.
  unfold Z_of_string, Z_to_string.
  rewrite NilZero.isi.
  - rewrite DecimalZ.of_to. by rewrite String.eqb_refl.
  - destruct z; cbn; try discriminate.
    intros [= H]. by apply Unsigned.to_uint_nonnil in H.
  - destruct z; cbn; try discriminate.
    intros [= H]. by apply Unsigned.to_uint_nonnil in H.
Qed.

(** Picks the world an operation returned as the witness. *)
Ltac returned :=
  lazymatch goal with
  | |- exists w', Returns ?w _ = _ /\ _ => exists w
  | |- exists w', Returns ?w _ = _ => exists w
  end.

(** ** The store *)

Section RedisFacts.

Lemma read_Some t (d : gmap string Redis.entry) k e :
  Redis.read t d k = Some e <-> d !! k = Some e /\ Redis.live t e = true.
Proof.
  unfold Redis.read. destruct (d !! k) as [e'|]; [|by split; [|intros []]].
  destruct (Redis.live t e') eqn:E.
  - split; [by intros [= ->]|by intros [[= ->] _]].
  - split; [done|]. intros [[= ->] H]. congruence.
Qed.

Lemma read_insert_live t (d : gmap string Redis.entry) k e :
  Redis.live t e = true -> Redis.read t (<[k := e]> d) k = Some e.
Proof. intros H. apply read_Some. by rewrite lookup_insert_eq. Qed.

Lemma incr_by_spec delta k t (d : gmap string Redis.entry) z :
  Z_of_string (default "0" (Redis.data <$> Redis.read t d k)) = Some z ->
  Redis.INT64_MIN <= z + delta <= Redis.INT64_MAX ->
  Redis.incr_by delta k t d =
    (inr (z + delta),
     <[k := {| Redis.data := Z_to_string (z + delta);
               Redis.expires := Redis.read t d k ≫= Redis.expires |}]> d).
Proof.
  intros Hz Hrange. unfold Redis.incr_by. rewrite Hz.
  destruct (z + delta <? Redis.INT64_MIN) eqn:E1; [lia|].
  destruct (Redis.INT64_MAX <? z + delta) eqn:E2; [lia|]. reflexivity.
Qed.

Lemma INCR_fresh k t (d : gmap string Redis.entry) :
  Redis.read t d k = None ->
  Redis.INCR k t d = (inr 1, <[k := {| Redis.data := "1"; Redis.expires := None |}]> d).
Proof.
  intros H. unfold Redis.INCR. rewrite (incr_by_spec 1 k t d 0).
  - by rewrite H.
  - by rewrite H.
  - unfold Redis.INT64_MIN, Redis.INT64_MAX. lia.
Qed.

Lemma EXPIRE_live k seconds t (d : gmap string Redis.entry) e :
  Redis.read t d k = Some e -> 0 < seconds ->
  Redis.EXPIRE k seconds t d =
    (inr 1, <[k := {| Redis.data := Redis.data e; Redis.expires := Some (t + seconds * 1000) |}]> d).
Proof.
  intros H Hs. unfold Redis.EXPIRE. rewrite H.
  destruct (seconds <=? 0) eqn:E; [lia|]. reflexivity.
Qed.

Lemma del_keys_lookup ks t (d : gmap string Redis.entry) k :
  (Redis.del_keys ks t d).2 !! k = if decide (k ∈ ks) then None else d !! k.
Proof.
  revert d. induction ks as [|k0 ks IH]; intros d; cbn.
  - by rewrite decide_False by apply not_elem_of_nil.
  - specialize (IH (delete k0 d)).
    destruct (Redis.del_keys ks t (delete k0 d)) as [n d']. cbn in *.
    rewrite IH. destruct (decide (k ∈ ks)) as [Hin|Hout].
    + rewrite decide_True; [done|by right].
    + destruct (decide (k = k0)) as [->|Hne].
      * rewrite decide_True by left. apply lookup_delete_eq.
      * rewrite decide_False by (by intros [?|?]%elem_of_cons).
        by apply lookup_delete_ne.
Qed.

Lemma DEL_some ks t (d : gmap string Redis.entry) :
  ks <> [] ->
  Redis.DEL ks t d = (inr (Redis.del_keys ks t d).1, (Redis.del_keys ks t d).2).
Proof.
  intros H. unfold Redis.DEL. destruct ks; [done|].
  by destruct (Redis.del_keys _ _ _).
Qed.

End RedisFacts.

(** ** Texts *)

Section TextFacts.

Lemma append_cons c a b : String c a +:+ b = String c (a +:+ b).
Proof. reflexivity. Qed.

Lemma append_empty (s : string) : s +:+ "" = s.
Proof.
  induction s as [|c s IH]; [done|].
  change (String c (s +:+ "") = String c s). by rewrite IH.
Qed.

Lemma append_assoc (a b c : string) : (a +:+ b) +:+ c = a +:+ (b +:+ c).
Proof.
  induction a as [|x a IH]; [done|].
  rewrite !append_cons. by rewrite IH.
Qed.

Lemma length_append (a b : string) :
  String.length (a +:+ b) = (String.length a + String.length b)%nat.
Proof.
  induction a as [|x a IH]; [done|].
  rewrite append_cons. cbn. by rewrite IH.
Qed.

Lemma uint_digits d : all_chars is_number_char (NilEmpty.string_of_uint d) = true.
Proof. induction d; cbn; by rewrite ?IHd. Qed.

Lemma Z_to_string_digits z : all_chars is_number_char (Z_to_string z) = true.
Proof.
  unfold Z_to_string. destruct z as [|p|p]; cbn; [done| |].
  - destruct (Pos.to_uint p); cbn; by rewrite ?uint_digits.
  - destruct (Pos.to_uint p); cbn; by rewrite ?uint_digits.
Qed.

Lemma Z_to_string_head z :
  exists c s, Z_to_string z = String c s /\ is_number_char c = true.
Proof.
  pose proof (Z_to_string_digits z) as H.
  unfold Z_to_string in *. destruct z as [|p|p]; cbn in *.
  - by eexists _, _.
  - pose proof (Unsigned.to_uint_nonnil p) as Hnil.
    destruct (Pos.to_uint p); [done|..]; cbn in *; by eexists _, _.
  - by eexists _, _.
Qed.

(** A sign or a digit is none of the characters that structure a text. *)
Lemma number_char_code c :
  is_number_char c = true ->
  (N_of_ascii c =? 34)%N = false /\ (N_of_ascii c =? 91)%N = false /\
  (N_of_ascii c =? 123)%N = false /\ (N_of_ascii c =? 93)%N = false.
Proof.
  unfold is_number_char, is_digit. intros H.
  apply orb_true_iff in H as [[H1 H2]%andb_true_iff | H].
  - apply N.leb_le in H1, H2. repeat split; apply N.eqb_neq; lia.
  - apply N.eqb_eq in H. rewrite H. done.
Qed.

(** Reading back one escaped character. *)
Lemma parse_chars_escape_char c rest :
  parse_chars (escape_char c +:+ rest) =
    match parse_chars rest with
    | Some (t, r) => Some (String c t, r)
    | None => None
    end.
Proof.
  destruct c as [[] [] [] [] [] [] [] []]; reflexivity.
Qed.

(** Reading back a quoted string. *)
Lemma parse_chars_escape s rest :
  parse_chars (escape s +:+ String dquote rest) = Some (s, rest).
Proof.
  induction s as [|c s IH]; [done|].
  cbn [escape]. rewrite append_assoc, parse_chars_escape_char. by rewrite IH.
Qed.

Lemma quote_text s rest : quote s +:+ rest = String dquote (escape s +:+ String dquote rest).
Proof. unfold quote. by rewrite append_cons, append_assoc. Qed.

End TextFacts.

(** ** Numbers and their texts *)

Section NumberFacts.

Lemma digit_code c : is_digit c = true <-> (48 <= N_of_ascii c <= 57)%N.
Proof.
  unfold is_digit. rewrite andb_true_iff, !N.leb_le. tauto.
Qed.

Lemma is_zero_eq c : is_zero c = true <-> c = "0"%char.
Proof. unfold is_zero. apply Ascii.eqb_eq. Qed.

Lemma is_zero_digit c : is_zero c = true -> is_digit c = true.
Proof. by intros ->%is_zero_eq. Qed.

(** A digit is none of the other characters of a number. *)
Lemma digit_only c x :
  is_digit c = true -> is_digit x = false -> Ascii.eqb c x = false.
Proof.
  intros Hc Hx. destruct (Ascii.eqb_spec c x) as [->|]; [congruence|done].
Qed.

Lemma digit_is_number_char c : is_digit c = true -> is_number_char c = true.
Proof. unfold is_number_char. by intros ->. Qed.

Lemma zeros_digits n : all_chars is_digit (zeros n) = true.
Proof. induction n as [|n IH]; [done|]. exact IH. Qed.

Lemma length_zeros n : String.length (zeros n) = n.
Proof. induction n as [|n IH]; [done|]. cbn. by rewrite IH. Qed.

Lemma all_chars_app P a b :
  all_chars P (a +:+ b) = all_chars P a && all_chars P b.
Proof.
  induction a as [|c a IH]; [done|]. rewrite append_cons. cbn. by rewrite IH, andb_assoc.
Qed.

Lemma take_drop n s : take n s +:+ drop n s = s.
Proof.
  revert s. induction n as [|n IH]; intros [|c s]; try done.
  cbn [take drop]. by rewrite append_cons, IH.
Qed.

Lemma length_take n s : (n <= String.length s)%nat -> String.length (take n s) = n.
Proof.
  revert s. induction n as [|n IH]; intros [|c s] Hn; cbn in *; try done; try lia.
  rewrite IH; lia.
Qed.

Lemma take_digits n s : all_chars is_digit s = true -> all_chars is_digit (take n s) = true.
Proof.
  revert s. induction n as [|n IH]; intros [|c s]; try done.
  cbn. intros [-> Hs]%andb_true_iff. by apply IH.
Qed.

Lemma drop_digits n s : all_chars is_digit s = true -> all_chars is_digit (drop n s) = true.
Proof.
  revert s. induction n as [|n IH]; intros [|c s]; try done.
  cbn [drop all_chars]. intros [_ Hs]%andb_true_iff. by apply IH.
Qed.

Lemma drop_nonempty n s : (n < String.length s)%nat -> drop n s <> "".
Proof.
  revert s. induction n as [|n IH]; intros [|c s] Hn; cbn in *; try done; try lia.
  apply IH. lia.
Qed.

(** *** Rows of digits *)

Lemma span_digits_app d rest :
  all_chars is_digit d = true -> span_digits rest = ("", rest) ->
  span_digits (d +:+ rest) = (d, rest).
Proof.
  intros Hd Hrest. induction d as [|c d IH]; [done|].
  cbn in Hd. apply andb_true_iff in Hd as [Hc Hd].
  rewrite append_cons. cbn. by rewrite Hc, (IH Hd).
Qed.

Lemma span_digits_stop c rest :
  is_digit c = false -> span_digits (String c rest) = ("", String c rest).
Proof. intros H. cbn. by rewrite H. Qed.

Lemma stops_number_digits rest :
  stops_number rest = true -> span_digits rest = ("", rest).
Proof.
  destruct rest as [|c rest]; [done|]. cbn.
  unfold continues_number, is_number_char.
  intros H%negb_true_iff. by destruct (is_digit c).
Qed.

Lemma stops_number_point rest : stops_number rest = true -> parse_fraction rest = Some ("", rest).
Proof.
  destruct rest as [|c rest]; [done|]. cbn. unfold continues_number.
  intros H%negb_true_iff. by destruct (Ascii.eqb c "."); [rewrite !orb_true_r in H|].
Qed.

Lemma stops_number_exponent rest :
  stops_number rest = true -> parse_exponent rest = Some (0, rest).
Proof.
  destruct rest as [|c rest]; [done|]. cbn. unfold continues_number.
  intros H%negb_true_iff.
  destruct (Ascii.eqb c "e"); [by rewrite !orb_true_r in H|].
  by destruct (Ascii.eqb c "E"); [rewrite !orb_true_r in H|].
Qed.

Lemma strip_front_zeros n d : strip_zeros_front (zeros n +:+ d) = strip_zeros_front d.
Proof. induction n as [|n IH]; [done|]. exact IH. Qed.

Lemma length_strip_front d :
  (String.length (strip_zeros_front d) <= String.length d)%nat.
Proof. induction d as [|c d IH]; [done|]. cbn. destruct (is_zero c); cbn; lia. Qed.

Lemma strip_end_restore d :
  strip_zeros_end d
  +:+ zeros (String.length d - String.length (strip_zeros_end d)) = d
  /\ (String.length (strip_zeros_end d) <= String.length d)%nat.
Proof.
  induction d as [|c d [IH Hlen]]; [done|]. cbn [strip_zeros_end].
  destruct (strip_zeros_end d) as [|x r] eqn:Hr.
  - rewrite Nat.sub_0_r in IH. change (zeros (String.length d) = d) in IH.
    destruct (is_zero c) eqn:Hc.
    + apply is_zero_eq in Hc as ->. cbn [String.length]. split; [|lia].
      rewrite Nat.sub_0_r. change (String "0" (zeros (String.length d)) = String "0" d).
      by f_equal.
    + cbn [String.length]. split; [|lia]. rewrite Nat.sub_succ, Nat.sub_0_r.
      rewrite append_cons. change (String c (zeros (String.length d)) = String c d).
      by f_equal.
  - cbn [String.length] in *. split; [|lia].
    rewrite append_cons. rewrite Nat.sub_succ. by f_equal.
Qed.

Lemma strip_end_cons c s :
  strip_zeros_end (String c s)
  = match strip_zeros_end s with
    | EmptyString => if is_zero c then "" else String c ""
    | r => String c r
    end.
Proof. reflexivity. Qed.

Lemma strip_end_idem d : strip_zeros_end (strip_zeros_end d) = strip_zeros_end d.
Proof.
  induction d as [|c d IH]; [done|]. rewrite strip_end_cons.
  destruct (strip_zeros_end d) as [|x r] eqn:Hr.
  - destruct (is_zero c) eqn:Hc; [done|]. cbn. by rewrite Hc.
  - rewrite strip_end_cons, IH. done.
Qed.

Lemma strip_end_digits d :
  all_chars is_digit d = true -> all_chars is_digit (strip_zeros_end d) = true.
Proof.
  induction d as [|c d IH]; [done|]. cbn. intros [Hc Hd]%andb_true_iff.
  specialize (IH Hd). destruct (strip_zeros_end d) as [|x r].
  - destruct (is_zero c); [done|]. cbn. by rewrite Hc.
  - cbn in *. by rewrite Hc.
Qed.

(** Digits that begin with a digit other than zero keep it when the
    zeros at the end are left out. *)
Lemma strip_end_head c d :
  is_zero c = false ->
  exists r, strip_zeros_end (String c d) = String c r.
Proof.
  intros Hc. cbn. destruct (strip_zeros_end d); rewrite ?Hc; by eexists.
Qed.

(** *** The digits of an integer *)

Lemma uint_all_digits d : all_chars is_digit (NilEmpty.string_of_uint d) = true.
Proof. induction d; cbn; by rewrite ?IHd. Qed.

Lemma strip_front_uint d :
  strip_zeros_front (NilEmpty.string_of_uint d)
  = NilEmpty.string_of_uint (Decimal.nzhead d).
Proof. induction d; cbn; done. Qed.

Lemma to_uint_nzhead p : Decimal.nzhead (Pos.to_uint p) = Pos.to_uint p.
Proof.
  pose proof (DecimalPos.Unsigned.to_of (Pos.to_uint p)) as H.
  rewrite DecimalPos.Unsigned.of_to in H. cbn in H.
  destruct (Decimal.nzhead (Pos.to_uint p)) eqn:Hhead;
    try (rewrite DecimalFacts.unorm_nzhead in H by (by rewrite Hhead); congruence).
  apply DecimalFacts.unorm_0 in Hhead. rewrite Hhead in H.
  by destruct (Unsigned.to_uint_nonzero p).
Qed.

Lemma Z_to_string_pos p :
  Z_to_string (Z.pos p) = NilEmpty.string_of_uint (Pos.to_uint p).
Proof.
  unfold Z_to_string. cbn. pose proof (Unsigned.to_uint_nonnil p).
  by destruct (Pos.to_uint p).
Qed.

Lemma Z_to_string_neg p : Z_to_string (Z.neg p) = String "-" (Z_to_string (Z.pos p)).
Proof.
  rewrite Z_to_string_pos. unfold Z_to_string. cbn.
  pose proof (Unsigned.to_uint_nonnil p). by destruct (Pos.to_uint p).
Qed.

(** The digits of a positive integer: digits, the first of them not a
    zero. *)
Lemma pos_digits p :
  all_chars is_digit (Z_to_string (Z.pos p)) = true /\
  strip_zeros_front (Z_to_string (Z.pos p)) = Z_to_string (Z.pos p) /\
  exists c r, Z_to_string (Z.pos p) = String c r /\ is_zero c = false.
Proof.
  rewrite Z_to_string_pos. split; [apply uint_all_digits|].
  assert (strip_zeros_front (NilEmpty.string_of_uint (Pos.to_uint p))
          = NilEmpty.string_of_uint (Pos.to_uint p)) as Hfront
    by (by rewrite strip_front_uint, to_uint_nzhead).
  split; [done|].
  pose proof (Unsigned.to_uint_nonnil p) as Hnil.
  destruct (NilEmpty.string_of_uint (Pos.to_uint p)) as [|c r] eqn:Hs.
  - by destruct (Pos.to_uint p).
  - exists c, r. split; [done|]. cbn in Hfront.
    destruct (is_zero c); [|done].
    pose proof (length_strip_front r) as Hlen. rewrite Hfront in Hlen. cbn in Hlen. lia.
Qed.

Lemma digits_value_pos p : digits_value (Z_to_string (Z.pos p)) = Z.pos p.
Proof.
  unfold digits_value. destruct (pos_digits p) as (_ & -> & c & r & Hs & _).
  rewrite Hs, <- Hs. by rewrite Z_of_to_string.
Qed.

Lemma digits_value_to_string z : 0 <= z -> digits_value (Z_to_string z) = z.
Proof. destruct z as [|p|p]; [done|intros; apply digits_value_pos|lia]. Qed.

(** *** The number of a decimal *)

Lemma strip_front_fixed c r : is_zero c = false -> strip_zeros_front (String c r) = String c r.
Proof. intros H. cbn. by rewrite H. Qed.

(** The digits of an integer, with or without the zeros at their end,
    are read as the integer. *)
Lemma decimal_number_int (negative : bool) p d :
  (d = Z_to_string (Z.pos p) \/ d = strip_zeros_end (Z_to_string (Z.pos p))) ->
  decimal_number negative d (Z.of_nat (String.length (Z_to_string (Z.pos p))))
  = Int (if negative then Z.neg p else Z.pos p).
Proof.
  intros Hd. destruct (pos_digits p) as (Hdigits & Hfront & c & r & Hs & Hc).
  destruct (strip_end_restore (Z_to_string (Z.pos p))) as [Hrestore Hlen].
  destruct (strip_end_head c r Hc) as (r' & Hend). rewrite <- Hs in Hend.
  assert (strip_zeros_front d = d /\ strip_zeros_end d = strip_zeros_end (Z_to_string (Z.pos p))
          /\ (String.length d <= String.length (Z_to_string (Z.pos p)))%nat)
    as (Hd1 & Hd2 & Hd3).
  { destruct Hd as [-> | ->]; [done|].
    rewrite Hend, strip_front_fixed by done. rewrite <- Hend. by rewrite strip_end_idem. }
  unfold decimal_number. cbv zeta. rewrite Hd1, Hd2, Nat.sub_diag, Z.sub_0_r. rewrite Hend.
  rewrite <- Hend.
  destruct (Z.leb_spec (Z.of_nat (String.length (strip_zeros_end (Z_to_string (Z.pos p)))))
              (Z.of_nat (String.length (Z_to_string (Z.pos p))))) as [_|]; [|lia].
  rewrite <- Nat2Z.inj_sub, Nat2Z.id by done. rewrite Hrestore, digits_value_pos.
  by destruct negative.
Qed.

Lemma is_decimal_spec digits n :
  is_decimal digits n = true ->
  all_chars is_digit digits = true /\
  strip_zeros_front digits = digits /\ strip_zeros_end digits = digits /\
  n < Z.of_nat (String.length digits) /\
  exists c r, digits = String c r /\ is_zero c = false /\ is_digit c = true.
Proof.
  unfold is_decimal. rewrite !andb_true_iff.
  intros [[[[Hne Hd] Hf%String.eqb_eq] He%String.eqb_eq] Hn%Z.ltb_lt].
  repeat split; try done.
  destruct digits as [|c r]; [done|]. exists c, r. split; [done|].
  cbn in Hd. apply andb_true_iff in Hd as [Hc _]. split; [|done].
  cbn in Hf. destruct (is_zero c); [|done].
  pose proof (length_strip_front r) as Hlen. rewrite Hf in Hlen. cbn in Hlen. lia.
Qed.

Lemma decimal_number_dec negative digits n :
  is_decimal digits n = true -> decimal_number negative digits n = Dec negative digits n.
Proof.
  intros (_ & Hf & He & Hn & c & r & Hs & _)%is_decimal_spec.
  unfold decimal_number. cbv zeta. rewrite Hf, He, Nat.sub_diag, Z.sub_0_r.
  rewrite Hs, <- Hs. by destruct (Z.leb_spec (Z.of_nat (String.length digits)) n); [lia|].
Qed.

(** Zeros in front of the digits move the decimal point. *)
Lemma decimal_number_zeros negative m digits n :
  is_decimal digits n = true ->
  decimal_number negative (zeros m +:+ digits) (n + Z.of_nat m) = Dec negative digits n.
Proof.
  intros Hd. pose proof Hd as (_ & Hf & _)%is_decimal_spec.
  rewrite <- (decimal_number_dec negative digits n Hd).
  unfold decimal_number. cbv zeta. rewrite strip_front_zeros, !Hf.
  rewrite length_append, length_zeros, Nat.sub_diag.
  replace (m + String.length digits - String.length digits)%nat with m by lia.
  by replace (n + Z.of_nat m - Z.of_nat m) with (n - Z.of_nat 0%nat) by lia.
Qed.

(** *** Reading a number back *)

Lemma nonneg_digits z :
  0 <= z ->
  all_chars is_digit (Z_to_string z) = true /\
  exists c r, Z_to_string z = String c r /\ is_digit c = true.
Proof.
  destruct z as [|p|p]; [by split; [|eexists _, _]| |lia]. intros _.
  destruct (pos_digits p) as (Hd & _ & c & r & Hs & _). split; [done|].
  exists c, r. split; [done|]. rewrite Hs in Hd. cbn in Hd.
  by apply andb_true_iff in Hd as [? _].
Qed.

Lemma int_part_head d :
  is_int_part d = true -> all_chars is_digit d = true ->
  exists c r, d = String c r /\ is_digit c = true.
Proof.
  destruct d as [|c r]; [done|]. cbn [all_chars]. intros _ [? _]%andb_true_iff.
  by exists c, r.
Qed.

(** The exponent as it is printed, none when there is none. *)
Local Abbreviation exponent_text exp :=
  (match exp with
   | Some x => "e" +:+ (if 0 <=? x then "+" else "-") +:+ Z_to_string (Z.abs x)
   | None => ""
   end).

Local Abbreviation fraction_text frac :=
  (if nonempty frac then "." +:+ frac else "").

Lemma parse_exponent_text exp rest :
  stops_number rest = true ->
  parse_exponent (exponent_text exp +:+ rest) = Some (default 0 exp, rest).
Proof.
  intros Hrest. destruct exp as [x|]; [|by apply stops_number_exponent].
  destruct (nonneg_digits (Z.abs x) (Z.abs_nonneg x)) as (Hd & c & r & Hs & Hc).
  rewrite !append_assoc.
  change (parse_exponent ("e" +:+ ?t))
    with (let (negative, s1) :=
            match t with
            | String c' r =>
                if Ascii.eqb c' "-" then (true, r)
                else if Ascii.eqb c' "+" then (false, r) else (false, t)
            | EmptyString => (false, t)
            end in
          let (d, r) := span_digits s1 in
          if nonempty d
          then Some (if negative then - digits_value d else digits_value d, r)
          else None).
  destruct (Z.leb_spec 0 x).
  - change ("+" +:+ ?t) with (String "+" t). cbn [Ascii.eqb Bool.eqb]. cbv iota beta.
    rewrite span_digits_app by (done || by apply stops_number_digits).
    rewrite Hs at 1. cbn [nonempty String.eqb negb]. cbv iota.
    rewrite digits_value_to_string by lia. cbn [default].
    by replace (Z.abs x) with x by lia.
  - change ("-" +:+ ?t) with (String "-" t). cbn [Ascii.eqb Bool.eqb]. cbv iota beta.
    rewrite span_digits_app by (done || by apply stops_number_digits).
    rewrite Hs at 1. cbn [nonempty String.eqb negb]. cbv iota.
    rewrite digits_value_to_string by lia. cbn [default].
    by replace (- Z.abs x) with x by lia.
Qed.

Lemma exponent_text_stop exp rest :
  stops_number rest = true ->
  span_digits (exponent_text exp +:+ rest) = ("", exponent_text exp +:+ rest) /\
  parse_fraction (exponent_text exp +:+ rest) = Some ("", exponent_text exp +:+ rest).
Proof.
  intros Hrest. destruct exp as [x|].
  - rewrite !append_assoc. by change ("e" +:+ ?t) with (String "e" t).
  - split; [by apply stops_number_digits|by apply stops_number_point].
Qed.

Lemma parse_fraction_text frac exp rest :
  all_chars is_digit frac = true ->
  stops_number rest = true ->
  span_digits (fraction_text frac +:+ exponent_text exp +:+ rest)
  = ("", fraction_text frac +:+ exponent_text exp +:+ rest) /\
  parse_fraction (fraction_text frac +:+ exponent_text exp +:+ rest)
  = Some (frac, exponent_text exp +:+ rest).
Proof.
  intros Hd Hrest. destruct (exponent_text_stop exp rest Hrest) as [Hspan Hpoint].
  destruct frac as [|c r]; [done|].
  change (fraction_text (String c r)) with ("." +:+ String c r).
  rewrite !append_assoc. change ("." +:+ ?t) with (String "." t). split; [done|].
  cbn [parse_fraction Ascii.eqb Bool.eqb]. cbv iota.
  rewrite span_digits_app by done. done.
Qed.

(** A number text is read as the number of its digits: a minus sign or
    none, the integer part, the fraction if there is one, the exponent
    if there is one. *)
Lemma parse_number_text (negative : bool) int frac exp rest :
  all_chars is_digit int = true -> is_int_part int = true ->
  all_chars is_digit frac = true ->
  stops_number rest = true ->
  parse_number ((if negative then "-" else "")
                +:+ int +:+ fraction_text frac +:+ exponent_text exp +:+ rest)
  = Some (VNum (decimal_number negative (int +:+ frac)
                  (Z.of_nat (String.length int) + default 0 exp)), rest).
Proof.
  intros Hint Hpart Hfrac Hrest.
  destruct (int_part_head int Hpart Hint) as (c & r & Hs & Hc).
  destruct (parse_fraction_text frac exp rest Hfrac Hrest) as [Hspan Hpoint].
  assert (parse_number (int +:+ fraction_text frac +:+ exponent_text exp +:+ rest)
          = (let (i, s1) := span_digits (int +:+ fraction_text frac
                                         +:+ exponent_text exp +:+ rest) in
             if is_int_part i then
               match parse_fraction s1 with
               | Some (f, s2) =>
                   match parse_exponent s2 with
                   | Some (x, s3) =>
                       Some (VNum (decimal_number false (i +:+ f)
                                     (Z.of_nat (String.length i) + x)), s3)
                   | None => None
                   end
               | None => None
               end
             else None)) as Hplain.
  { rewrite Hs, append_cons. unfold parse_number.
    by rewrite (digit_only c "-" Hc eq_refl). }
  destruct negative.
  - change ("-" +:+ ?t) with (String "-" t). unfold parse_number.
    cbn [Ascii.eqb Bool.eqb]. cbv iota.
    rewrite span_digits_app by done. rewrite Hpart, Hpoint.
    by rewrite (parse_exponent_text exp rest Hrest).
  - change ("" +:+ ?t) with t. rewrite Hplain.
    rewrite span_digits_app by done. rewrite Hpart, Hpoint.
    by rewrite (parse_exponent_text exp rest Hrest).
Qed.

End NumberFacts.

(** ** JSON texts *)

Section JsonFacts.

(** Induction on values, through the lists nested in them. *)
Lemma value_induction (P : value -> Prop) :
  P VUndefined -> P VNull -> (forall b, P (VBool b)) -> (forall n, P (VNum n)) ->
  (forall s, P (VStr s)) ->
  (forall items, Forall P items -> P (VArr items)) ->
  (forall props, Forall (fun kv => P kv.2) props -> P (VObj props)) ->
  forall v, P v.
Proof.
  intros Hu Hn Hb Hnum Hs Harr Hobj.
  fix IH 1. intros [| |b|n|s|items|props].
  - exact Hu.
  - exact Hn.
  - apply Hb.
  - apply Hnum.
  - apply Hs.
  - apply Harr. induction items as [|x items IHitems]; constructor.
    + apply IH.
    + exact IHitems.
  - apply Hobj. induction props as [|[k x] props IHprops]; constructor.
    + apply IH.
    + exact IHprops.
Qed.

Lemma stringify_arr items :
  JSON_stringify (VArr items) =
    Some ("[" +:+ join "," (map (fun x => default "null" (JSON_stringify x)) items) +:+ "]").
Proof.
  cbn [JSON_stringify].
  match goal with
  | |- Some (_ +:+ join _ ?l +:+ _) = _ =>
      assert (l = map (fun x => default "null" (JSON_stringify x)) items) as ->; [|done]
  end.
  induction items as [|x items IH]; [done|]. cbn [map]. by rewrite <- IH.
Qed.

Lemma stringify_obj props :
  JSON_stringify (VObj props) =
    Some ("{" +:+
          join "," (omap (fun kv => member_text kv.1 (JSON_stringify kv.2)) props) +:+ "}").
Proof.
  cbn [JSON_stringify].
  match goal with
  | |- Some (_ +:+ join _ ?l +:+ _) = _ =>
      assert (l = omap (fun kv => member_text kv.1 (JSON_stringify kv.2)) props) as ->;
        [|done]
  end.
  induction props as [|[k x] props IH]; [done|]. cbn [omap list_omap fst snd].
  destruct (member_text k (JSON_stringify x)); by rewrite <- IH.
Qed.

Lemma is_json_arr items : is_json (VArr items) = forallb is_json items.
Proof.
  cbn [is_json]. induction items as [|x items IH]; [done|]. cbn [forallb]. by rewrite <- IH.
Qed.

Lemma is_json_obj props :
  is_json (VObj props) =
    bool_decide (NoDup props.*1) && forallb (fun kv => is_json kv.2) props.
Proof.
  cbn [is_json]. f_equal.
  induction props as [|[k x] props IH]; [done|]. cbn [forallb snd]. by rewrite <- IH.
Qed.

(** Reading a value by its first character. *)
Lemma parse_value_string item s1 :
  parse_value item (String dquote s1) =
    match parse_chars s1 with
    | Some (str, r) => Some (VStr str, r)
    | None => None
    end.
Proof. reflexivity. Qed.

Lemma parse_value_array item s1 :
  parse_value item (String "[" s1) =
    match head_is 93 s1 with
    | Some r => Some (VArr [], r)
    | None =>
        match item TElems s1 with
        | Some (items, r) => Some (VArr items, r)
        | None => None
        end
    end.
Proof. reflexivity. Qed.

Lemma parse_value_object item s1 :
  parse_value item (String "{" s1) =
    match head_is 125 s1 with
    | Some r => Some (VObj [], r)
    | None =>
        match item TMembers s1 with
        | Some (members, r) => Some (VObj (define_props members), r)
        | None => None
        end
    end.
Proof. reflexivity. Qed.

Lemma parse_value_number item c s1 :
  is_number_char c = true ->
  parse_value item (String c s1) = parse_number (String c s1).
Proof.
  intros H. destruct (number_char_code c H) as (H1 & H2 & H3 & _).
  unfold parse_value. cbv zeta. by rewrite H1, H2, H3, H.
Qed.

Lemma join_cons2 sep a b l : join sep (a :: b :: l) = a +:+ sep +:+ join sep (b :: l).
Proof. reflexivity. Qed.

Lemma parse_elems_texts items texts :
  Forall2 reads items texts -> items <> [] ->
  forall fuel rest,
    (String.length (join "," texts) + 1 < fuel)%nat ->
    parse_json fuel TElems (join "," texts +:+ "]" +:+ rest) = Some (items, rest).
Proof.
  induction 1 as [|x tx items texts (_ & Hlen & Hx) Hrest IH]; [done|].
  intros _ [|n] rest Hfuel; [lia|]. cbn [parse_json]. unfold parse_elems.
  destruct Hrest as [|y ty items texts Hy Hrest].
  - change (join "," [tx]) with tx in *.
    rewrite Hx by (done || lia). reflexivity.
  - rewrite join_cons2 in *. rewrite !length_append in Hfuel.
    change (String.length ",") with 1%nat in Hfuel.
    rewrite !append_assoc. rewrite Hx by (done || lia).
    change (head_is 44 ("," +:+ ?s)) with (Some s). cbv iota beta.
    rewrite IH by (done || lia). reflexivity.
Qed.

Lemma parse_members_texts props texts :
  Forall2 reads_member props texts -> props <> [] ->
  forall fuel rest,
    (String.length (join "," texts) + 1 < fuel)%nat ->
    parse_json fuel TMembers (join "," texts +:+ "}" +:+ rest) = Some (props, rest).
Proof.
  induction 1 as [|[k x] tx props texts (tv & -> & _ & Hlen & Hx) Hrest IH]; [done|].
  intros _ [|n] rest Hfuel; [lia|]. cbn [parse_json]. unfold parse_members.
  cbn [fst snd] in *.
  destruct Hrest as [|y ty props texts Hy Hrest].
  - change (join "," [?t]) with t in *.
    rewrite !length_append in Hfuel.
    rewrite !append_assoc, quote_text.
    change (head_is 34 (String dquote ?s)) with (Some s). cbv iota beta.
    rewrite parse_chars_escape.
    change (head_is 58 (":" +:+ ?s)) with (Some s). cbv iota beta.
    rewrite Hx by (done || lia). reflexivity.
  - rewrite join_cons2 in *. rewrite !length_append in Hfuel.
    change (String.length ",") with 1%nat in Hfuel.
    rewrite !append_assoc, quote_text.
    change (head_is 34 (String dquote ?s)) with (Some s). cbv iota beta.
    rewrite parse_chars_escape.
    change (head_is 58 (":" +:+ ?s)) with (Some s). cbv iota beta.
    rewrite Hx by (done || lia).
    change (head_is 44 ("," +:+ ?s)) with (Some s). cbv iota beta.
    rewrite IH by (done || lia). reflexivity.
Qed.

Lemma prop_set_fresh (o : object) k v :
  k ∉ o.*1 -> prop_set o k v = o ++ [(k, v)].
Proof.
  induction o as [|[k' v'] o IH]; [done|]. cbn. intros Hk.
  destruct (String.eqb_spec k' k) as [->|Hne].
  - exfalso. apply Hk. left.
  - rewrite IH; [done|]. intros Hin. apply Hk. by right.
Qed.

Lemma define_props_nodup (l : object) : NoDup l.*1 -> define_props l = l.
Proof.
  unfold define_props.
  assert (forall acc : object,
            NoDup (acc ++ l).*1 ->
            fold_left (fun o kv => prop_set o kv.1 kv.2) l acc = acc ++ l) as H.
  { induction l as [|[k v] l IH]; intros acc Hnd; cbn.
    - by rewrite app_nil_r.
    - rewrite prop_set_fresh.
      + rewrite IH; rewrite <- app_assoc; done.
      + rewrite fmap_app in Hnd. apply NoDup_app in Hnd as (_ & Hnd & _).
        intros Hin. apply (Hnd k Hin). left. }
  intros Hnd. by apply (H []).
Qed.

Lemma join_head sep a l rest :
  exists rest', join sep (a :: l) +:+ rest = a +:+ rest'.
Proof.
  destruct l as [|b l]; [by eexists|].
  rewrite join_cons2, append_assoc. by eexists.
Qed.

Lemma length_bracketed (a b c : string) :
  String.length (a +:+ b +:+ c)
  = (String.length a + String.length b + String.length c)%nat.
Proof. rewrite !length_append. lia. Qed.

(** *** The texts of numbers *)

Lemma reads_number (negative : bool) int frac exp :
  all_chars is_digit int = true -> is_int_part int = true ->
  all_chars is_digit frac = true ->
  reads (VNum (decimal_number negative (int +:+ frac)
                 (Z.of_nat (String.length int) + default 0 exp)))
    ((if negative then "-" else "")
     +:+ int
     +:+ (if nonempty frac then "." +:+ frac else "")
     +:+ match exp with
         | Some x => "e" +:+ (if 0 <=? x then "+" else "-") +:+ Z_to_string (Z.abs x)
         | None => ""
         end).
Proof.
  intros Hint Hpart Hfrac.
  destruct (int_part_head int Hpart Hint) as (c & r & Hs & Hc).
  set (tail := (if nonempty frac then _ else _) +:+ _).
  assert (exists c' r', is_number_char c' = true /\
            forall rest, ((if negative then "-" else "") +:+ int +:+ tail) +:+ rest
                         = String c' (r' +:+ rest)) as (c' & r' & Hc' & Htext).
  { destruct negative.
    - exists "-"%char, (int +:+ tail). split; [done|]. intros rest.
      by rewrite append_assoc.
    - exists c, (r +:+ tail). split; [by apply digit_is_number_char|]. intros rest.
      change ("" +:+ ?t) with t. by rewrite Hs, append_cons, append_cons. }
  destruct (number_char_code c' Hc') as (_ & _ & _ & H93).
  split; [|split].
  - intros rest. rewrite Htext. unfold head_is. by rewrite H93.
  - specialize (Htext ""). rewrite append_empty in Htext. rewrite Htext. cbn. lia.
  - intros [|n] rest Hf Hr; [lia|]. cbn [parse_json].
    rewrite Htext, (parse_value_number _ c' _ Hc'), <- Htext.
    subst tail. rewrite !append_assoc.
    by apply parse_number_text.
Qed.

Lemma int_part_digits c r : is_zero c = false -> is_int_part (String c r) = true.
Proof. intros H. cbn. rewrite H. by destruct r. Qed.

(** An integer is read back from what it prints as. *)
Lemma reads_Int z : reads (VNum (Int z)) (number_to_string (Int z)).
Proof.
  destruct z as [|p|p].
  - exact (reads_number false "0" "" None eq_refl eq_refl eq_refl).
  - destruct (pos_digits p) as (Hd & _ & c & r & Hs & Hc).
    unfold number_to_string. change (Z.abs (Z.pos p)) with (Z.pos p).
    change (Z.pos p <? 0) with false. cbv zeta.
    destruct (String.length (Z_to_string (Z.pos p)) <=? 21)%nat.
    + pose proof (reads_number false (Z_to_string (Z.pos p)) "" None Hd) as H.
      rewrite append_empty, Z.add_0_r, decimal_number_int in H by (by left).
      cbn [nonempty String.eqb negb] in H. rewrite !append_empty in H.
      apply H; [|done]. rewrite Hs. by apply int_part_digits.
    + destruct (strip_end_head c r Hc) as (r' & Hend). rewrite <- Hs in Hend.
      pose proof (strip_end_digits _ Hd) as Hd'. rewrite Hend in Hd'.
      cbn [all_chars] in Hd'. apply andb_true_iff in Hd' as [Hdc Hdr].
      pose proof (reads_number false (String c "") r'
                    (Some (Z.of_nat (String.length (Z_to_string (Z.pos p))) - 1))) as H.
      replace (Z.of_nat (String.length (String c ""))
               + default 0 (Some (Z.of_nat (String.length (Z_to_string (Z.pos p))) - 1)))
        with (Z.of_nat (String.length (Z_to_string (Z.pos p)))) in H
        by (cbv [default from_option id String.length]; lia).
      change (String c "" +:+ r') with (String c r') in H.
      rewrite <- Hend, decimal_number_int in H by (by right).
      rewrite Hend. unfold exponent_form.
      apply H; [by cbn; rewrite Hdc|done..].
  - destruct (pos_digits p) as (Hd & _ & c & r & Hs & Hc).
    unfold number_to_string. change (Z.abs (Z.neg p)) with (Z.pos p).
    change (Z.neg p <? 0) with true. cbv zeta.
    destruct (String.length (Z_to_string (Z.pos p)) <=? 21)%nat.
    + pose proof (reads_number true (Z_to_string (Z.pos p)) "" None Hd) as H.
      rewrite append_empty, Z.add_0_r, decimal_number_int in H by (by left).
      cbn [nonempty String.eqb negb] in H. rewrite !append_empty in H.
      rewrite Z_to_string_neg. apply H; [|done]. rewrite Hs. by apply int_part_digits.
    + destruct (strip_end_head c r Hc) as (r' & Hend). rewrite <- Hs in Hend.
      pose proof (strip_end_digits _ Hd) as Hd'. rewrite Hend in Hd'.
      cbn [all_chars] in Hd'. apply andb_true_iff in Hd' as [Hdc Hdr].
      pose proof (reads_number true (String c "") r'
                    (Some (Z.of_nat (String.length (Z_to_string (Z.pos p))) - 1))) as H.
      replace (Z.of_nat (String.length (String c ""))
               + default 0 (Some (Z.of_nat (String.length (Z_to_string (Z.pos p))) - 1)))
        with (Z.of_nat (String.length (Z_to_string (Z.pos p)))) in H
        by (cbv [default from_option id String.length]; lia).
      change (String c "" +:+ r') with (String c r') in H.
      rewrite <- Hend, decimal_number_int in H by (by right).
      rewrite Hend. unfold exponent_form.
      apply H; [by cbn; rewrite Hdc|done..].
Qed.

Lemma nonempty_app a c r : nonempty (a +:+ String c r) = true.
Proof. by destruct a. Qed.

(** So is a number that is not an integer. *)
Lemma reads_Dec negative d n :
  is_decimal d n = true ->
  reads (VNum (Dec negative d n)) (number_to_string (Dec negative d n)).
Proof.
  intros Hd. pose proof Hd as (Hdig & Hf & He & Hn & c & r & Hs & Hc & Hdc)%is_decimal_spec.
  unfold number_to_string, decimal_to_string. cbv zeta.
  destruct ((Z.of_nat (String.length d) <=? n) && (n <=? 21)) eqn:H1.
  { apply andb_true_iff in H1 as [H1 _]. apply Z.leb_le in H1. lia. }
  destruct ((0 <? n) && (n <=? 21)) eqn:H2; [|destruct ((-6 <? n) && (n <=? 0)) eqn:H3].
  - apply andb_true_iff in H2 as [H2 _]. apply Z.ltb_lt in H2.
    pose proof (reads_number negative (take (Z.to_nat n) d) (drop (Z.to_nat n) d) None) as H.
    rewrite take_drop, length_take in H by lia.
    replace (Z.of_nat (Z.to_nat n) + default 0 None) with n in H
      by (cbv [default from_option id]; lia).
    rewrite decimal_number_dec in H by done.
    assert (nonempty (drop (Z.to_nat n) d) = true) as Hne.
    { unfold nonempty. destruct (String.eqb_spec (drop (Z.to_nat n) d) "") as [Hempty|]; [|done].
      by apply drop_nonempty in Hempty; [|lia]. }
    rewrite Hne, append_empty in H. apply H.
    + by apply take_digits.
    + destruct (Z.to_nat n) as [|n'] eqn:Hn'; [lia|]. rewrite Hs. cbn [take].
      by apply int_part_digits.
    + by apply drop_digits.
  - apply andb_true_iff in H3 as [_ H3]. apply Z.leb_le in H3.
    pose proof (reads_number negative "0" (zeros (Z.to_nat (- n)) +:+ d) None) as H.
    change ("0" +:+ zeros (Z.to_nat (- n)) +:+ d)
      with (zeros (S (Z.to_nat (- n))) +:+ d) in H.
    replace (Z.of_nat (String.length "0") + default 0 None)
      with (n + Z.of_nat (S (Z.to_nat (- n)))) in H
      by (cbv [default from_option id String.length]; lia).
    rewrite decimal_number_zeros in H by done.
    assert (nonempty (zeros (Z.to_nat (- n)) +:+ d) = true) as Hne
      by (rewrite Hs; apply nonempty_app).
    rewrite Hne, append_empty in H.
    apply H; [done..|]. by rewrite all_chars_app, zeros_digits.
  - pose proof (reads_number negative (String c "") r (Some (n - 1))) as H.
    change (String c "" +:+ r) with (String c r) in H. rewrite <- Hs in H.
    replace (Z.of_nat (String.length (String c "")) + default 0 (Some (n - 1)))
      with n in H by (cbv [default from_option id String.length]; lia).
    rewrite decimal_number_dec in H by done.
    rewrite Hs at 2. unfold exponent_form.
    rewrite Hs in Hdig. cbn [all_chars] in Hdig. apply andb_true_iff in Hdig as [_ Hr].
    apply H; [by cbn; rewrite Hdc|done..].
Qed.

(** *** The image of a value *)

Local Abbreviation element_image :=
  (fun x : value => match x with VUndefined => VNull | _ => json_image x end).

Local Abbreviation member_image :=
  (fun kv : string * value =>
     match kv.2 with VUndefined => None | _ => Some (kv.1, json_image kv.2) end).

Lemma legible_arr items : legible (VArr items) = forallb legible items.
Proof.
  cbn [legible]. induction items as [|x items IH]; [done|]. cbn [forallb]. by rewrite <- IH.
Qed.

Lemma legible_obj props :
  legible (VObj props) =
    bool_decide (NoDup props.*1) && forallb (fun kv => legible kv.2) props.
Proof.
  cbn [legible]. f_equal.
  induction props as [|[k x] props IH]; [done|]. cbn [forallb snd]. by rewrite <- IH.
Qed.

Lemma json_image_arr items : json_image (VArr items) = VArr (map element_image items).
Proof.
  cbn [json_image]. f_equal.
  induction items as [|x items IH]; [done|]. cbn [map]. rewrite <- IH. by destruct x.
Qed.

Lemma json_image_obj props : json_image (VObj props) = VObj (omap member_image props).
Proof.
  cbn [json_image]. f_equal.
  induction props as [|[k x] props IH]; [done|]. cbn [omap list_omap fst snd].
  rewrite <- IH. by destruct x.
Qed.

Lemma survives_arr items : survives_json (VArr items) = forallb survives_json items.
Proof.
  cbn [survives_json]. induction items as [|x items IH]; [done|]. cbn [forallb].
  by rewrite <- IH.
Qed.

Lemma survives_obj props :
  survives_json (VObj props) = forallb (fun kv => survives_json kv.2) props.
Proof.
  cbn [survives_json].
  induction props as [|[k x] props IH]; [done|]. cbn [forallb snd]. by rewrite <- IH.
Qed.

Lemma undefined_or_not (x : value) : x = VUndefined \/ x <> VUndefined.
Proof. destruct x; (by left) || (by right). Qed.

Lemma reads_null : reads VNull "null".
Proof.
  split; [done|]. split; [cbn; lia|]. intros [|n] rest Hf Hr; [lia|]. reflexivity.
Qed.

Lemma member_image_keys props : (omap member_image props).*1 `sublist_of` props.*1.
Proof.
  induction props as [|[k x] props IH]; [done|]. cbn [omap list_omap fst snd].
  destruct x; cbn; by constructor.
Qed.

Lemma array_texts items :
  Forall (fun x => legible x = true -> x <> VUndefined ->
                   exists text, JSON_stringify x = Some text /\ reads (json_image x) text)
    items ->
  forallb legible items = true ->
  Forall2 reads (map element_image items)
    (map (fun x => default "null" (JSON_stringify x)) items).
Proof.
  induction 1 as [|x items Hx _ IH]; cbn [map forallb]; [constructor|].
  intros [Hj Hrest]%andb_true_iff. constructor; [|auto].
  destruct (undefined_or_not x) as [->|Hne]; [exact reads_null|].
  destruct (Hx Hj Hne) as (text & -> & Hreads). by destruct x.
Qed.

Lemma object_texts props :
  Forall (fun kv => legible kv.2 = true -> kv.2 <> VUndefined ->
                    exists text, JSON_stringify kv.2 = Some text
                                 /\ reads (json_image kv.2) text) props ->
  forallb (fun kv => legible kv.2) props = true ->
  Forall2 reads_member (omap member_image props)
    (omap (fun kv => member_text kv.1 (JSON_stringify kv.2)) props).
Proof.
  induction 1 as [|[k x] props Hx _ IH]; cbn [omap list_omap forallb fst snd] in *;
    [constructor|].
  intros [Hj Hrest]%andb_true_iff.
  destruct (undefined_or_not x) as [->|Hne]; [by apply IH|].
  destruct (Hx Hj Hne) as (text & -> & Hreads).
  replace (match x with VUndefined => None | _ => Some (k, json_image x) end)
    with (Some (k, json_image x)) by (by destruct x).
  cbn [member_text]. constructor; [|auto]. by exists text.
Qed.

(** Every value but [undefined] is written as a text that is read back
    as the image of the value. *)
Lemma image_reads v :
  legible v = true -> v <> VUndefined ->
  exists text, JSON_stringify v = Some text /\ reads (json_image v) text.
Proof.
  induction v as [| |b|n|s|items IH|props IH] using value_induction; intros Hj Hv.
  - done.
  - exists "null". split; [done|]. exact reads_null.
  - destruct b.
    + exists "true". split; [done|]. split; [done|]. split; [cbn; lia|].
      intros [|n] rest Hf Hr; [lia|]. reflexivity.
    + exists "false". split; [done|]. split; [done|]. split; [cbn; lia|].
      intros [|n] rest Hf Hr; [lia|]. reflexivity.
  - destruct n as [z| |negative| |negative d n].
    + exists (number_to_string (Int z)). split; [done|]. apply reads_Int.
    + exists "null". split; [done|]. exact reads_null.
    + exists "null". split; [done|]. exact reads_null.
    + exists "0". split; [done|]. exact (reads_Int 0).
    + exists (number_to_string (Dec negative d n)). split; [done|]. by apply reads_Dec.
  - exists (quote s). split; [done|]. split; [|split].
    + intros r. by rewrite quote_text.
    + unfold quote. cbn. lia.
    + intros [|n] rest Hf Hr; [lia|]. cbn [parse_json].
      by rewrite quote_text, parse_value_string, parse_chars_escape.
  - rewrite legible_arr in Hj. pose proof (array_texts items IH Hj) as Htexts.
    eexists. split; [apply stringify_arr|]. rewrite json_image_arr.
    set (texts := map (fun x => default "null" _) items) in *.
    set (images := map _ items) in *. split; [done|]. split.
    + rewrite length_bracketed. cbn. lia.
    + intros [|n] rest Hf Hr; [lia|]. cbn [parse_json].
      rewrite length_bracketed in Hf. cbn in Hf.
      rewrite !append_assoc. change ("[" +:+ ?t) with (String "[" t).
      rewrite parse_value_array.
      destruct Htexts as [|x tx images' texts' Hx Htexts]; [done|].
      destruct (join_head "," tx texts' ("]" +:+ rest)) as (rest' & Hhead).
      rewrite Hhead, (proj1 Hx), <- Hhead.
      rewrite (parse_elems_texts (x :: images') (tx :: texts')); [done| |done|lia].
      by constructor.
  - rewrite legible_obj in Hj. apply andb_true_iff in Hj as [Hnd Hj].
    apply bool_decide_eq_true in Hnd.
    pose proof (object_texts props IH Hj) as Htexts.
    pose proof (sublist_NoDup _ _ Hnd (member_image_keys props)) as Hnd'.
    eexists. split; [apply stringify_obj|]. rewrite json_image_obj.
    set (texts := omap (fun kv => member_text _ _) props) in *.
    set (images := omap _ props) in *. split; [done|]. split.
    + rewrite length_bracketed. cbn. lia.
    + intros [|n] rest Hf Hr; [lia|]. cbn [parse_json].
      rewrite length_bracketed in Hf. cbn in Hf.
      rewrite !append_assoc. change ("{" +:+ ?t) with (String "{" t).
      rewrite parse_value_object.
      destruct Htexts as [|kv tx images' texts' Hkv Htexts]; [done|].
      destruct (join_head "," tx texts' ("}" +:+ rest)) as (rest' & Hhead).
      assert (head_is 125 (tx +:+ rest') = None) as Hopen.
      { destruct Hkv as (tv & -> & _). by rewrite !append_assoc, quote_text. }
      rewrite Hhead, Hopen, <- Hhead.
      rewrite (parse_members_texts (kv :: images') (tx :: texts')); [| |done|lia].
      * by rewrite define_props_nodup.
      * by constructor.
Qed.

(** The round trip of the serialisation: a value is written as a text
    that is not empty and parses to the image of the value. *)
Lemma JSON_image v :
  legible v = true -> v <> VUndefined ->
  exists text, JSON_stringify v = Some text /\ nonempty text = true /\
               JSON_parse text = Some (json_image v).
Proof.
  intros Hl Hv. destruct (image_reads v Hl Hv) as (text & Htext & _ & Hlen & Hread).
  exists text. split; [done|]. split.
  - destruct text; [cbn in Hlen; lia|reflexivity].
  - unfold JSON_parse.
    rewrite <- (append_empty text) at 2. by rewrite Hread by (done || lia).
Qed.

(** The values that come back as they went are those that hold no
    [undefined], no [NaN], no infinity and no [-0]. *)
Lemma image_of_survivor v : survives_json v = true -> json_image v = v.
Proof.
  induction v as [| |b|n|s|items IH|props IH] using value_induction; intros Hs;
    try done.
  - by destruct n.
  - rewrite survives_arr in Hs. rewrite json_image_arr. f_equal.
    induction IH as [|x items Hx _ IHitems]; [done|]. cbn [forallb map] in *.
    apply andb_true_iff in Hs as [Hx' Hs]. rewrite IHitems by done.
    rewrite <- (Hx Hx') at 2. by destruct x.
  - rewrite survives_obj in Hs. rewrite json_image_obj. f_equal.
    induction IH as [|[k x] props Hx _ IHprops]; [done|].
    cbn [forallb omap list_omap fst snd] in *.
    apply andb_true_iff in Hs as [Hx' Hs]. rewrite IHprops by done.
    rewrite <- (Hx Hx') at 2. by destruct x.
Qed.



Lemma is_json_legible v : is_json v = true -> legible v = true /\ survives_json v = true.
Proof.
  induction v as [| |b|n|s|items IH|props IH] using value_induction; intros Hj;
    try done.
  - by destruct n.
  - rewrite is_json_arr in Hj. rewrite legible_arr, survives_arr.
    induction IH as [|x items Hx _ IHitems]; [done|]. cbn [forallb] in *.
    apply andb_true_iff in Hj as [Hx' Hj].
    destruct (Hx Hx') as [-> ->]. by apply IHitems.
  - rewrite is_json_obj in Hj. rewrite legible_obj, survives_obj.
    apply andb_true_iff in Hj as [-> Hj]. rewrite andb_true_l.
    induction IH as [|[k x] props Hx _ IHprops]; [done|]. cbn [forallb snd] in *.
    apply andb_true_iff in Hj as [Hx' Hj].
    destruct (Hx Hx') as [-> ->]. by apply IHprops.
Qed.



(** A JSON value is written as a text that is not empty and parses to
    the same value. *)
Lemma JSON_round_trip v :
  is_json v = true ->
  exists text, JSON_stringify v = Some text /\ nonempty text = true /\
               JSON_parse text = Some v.
Proof.
  intros Hj. destruct (is_json_legible v Hj) as [Hl Hs].
  assert (v <> VUndefined) as Hv by (by intros ->).
  destruct (JSON_image v Hl Hv) as (text & Htext & Hne & Hparse).
  exists text. by rewrite <- (image_of_survivor v Hs) at 2.
Qed.


End JsonFacts.

(** ** Sorting keys *)

Section SortFacts.

Lemma str_le_cases a b : str_le a b <-> a = b \/ OrderedTypeEx.String_as_OT.lt a b.
Proof.
  unfold str_le, String.leb.
  destruct (String.compare a b) eqn:E.
  - apply OrderedTypeEx.String_as_OT.cmp_eq in E. by split; [left|].
  - apply OrderedTypeEx.String_as_OT.cmp_lt in E. by split; [right|].
  - split; [done|]. intros [->|H%OrderedTypeEx.String_as_OT.cmp_lt].
    + assert (String.compare b b = Eq) as Hb
        by by apply OrderedTypeEx.String_as_OT.cmp_eq.
      congruence.
    + unfold OrderedTypeEx.String_as_OT.cmp in H. congruence.
Qed.

#[local] Instance str_le_trans : Transitive str_le.
Proof.
  intros a b c [->|Hab]%str_le_cases [->|Hbc]%str_le_cases;
    apply str_le_cases; eauto.
  right. by eapply OrderedTypeEx.String_as_OT.lt_trans.
Qed.

#[local] Instance str_le_antisym : AntiSymm (=) str_le.
Proof. intros a b. apply String.leb_antisym. Qed.

#[local] Instance str_le_total : Total str_le.
Proof. intros a b. apply String.leb_total. Qed.

Lemma sort_sorted l : StronglySorted str_le (sort l).
Proof. apply StronglySorted_merge_sort; apply _. Qed.

Lemma sort_perm l : sort l ≡ₚ l.
Proof. apply merge_sort_Permutation. Qed.

(** Sorting forgets the order the keys came in. *)
Lemma sort_order_free l1 l2 : l1 ≡ₚ l2 -> sort l1 = sort l2.
Proof.
  intros H. apply (StronglySorted_unique str_le); [apply sort_sorted..|].
  by rewrite !sort_perm.
Qed.

Lemma filter_strongly_sorted (P : string -> Prop) `{!forall x, Decision (P x)} l :
  StronglySorted str_le l -> StronglySorted str_le (filter P l).
Proof.
  induction 1 as [|x l Hl IH Hx]; [constructor|].
  rewrite filter_cons. destruct (decide (P x)); [|done].
  constructor; [done|].
  apply Forall_forall. intros y [_ Hy]%list_elem_of_filter.
  by eapply Forall_forall in Hx.
Qed.

(** Dropping keys commutes with sorting them. *)
Lemma filter_sort (P : string -> Prop) `{!forall x, Decision (P x)} l :
  filter P (sort l) = sort (filter P l).
Proof.
  apply (StronglySorted_unique str_le).
  - apply filter_strongly_sorted, sort_sorted.
  - apply sort_sorted.
  - by rewrite !sort_perm.
Qed.

End SortFacts.

(** ** Objects *)

Section ObjectFacts.

Lemma prop_get_map (o : object) k :
  prop_get o k = default VUndefined ((list_to_map o : gmap string value) !! k).
Proof.
  induction o as [|[k' v] o IH]; cbn; [done|].
  destruct (String.eqb_spec k' k) as [->|Hne].
  - by rewrite lookup_insert_eq.
  - by rewrite lookup_insert_ne.
Qed.

Lemma prop_get_elem (o : object) k v :
  NoDup (Object_keys o) -> (k, v) ∈ o -> prop_get o k = v.
Proof.
  intros Hnd Hin. rewrite prop_get_map.
  by rewrite (elem_of_list_to_map_1 o k v Hnd Hin).
Qed.

(** The keys whose value is kept are the keys of the kept properties. *)
Lemma filter_keys (P : value -> Prop) `{!forall x, Decision (P x)} (o l : object) :
  (forall k v, (k, v) ∈ l -> prop_get o k = v) ->
  filter (fun k => P (prop_get o k)) l.*1 = (filter (fun kv => P kv.2) l).*1.
Proof.
  induction l as [|[k v] l IH]; intros Hget; [done|].
  rewrite fmap_cons, !filter_cons. cbn [fst snd].
  rewrite (Hget k v) by left.
  rewrite IH by (intros; apply Hget; by right).
  by destruct (decide (P v)).
Qed.

End ObjectFacts.

(** ** The cache service *)

Section CacheFacts.
Import CacheService.

Lemma available_client w :
  available w = true ->
  exists c, this_client (cacheService w) = Some c /\ isOpen c = true.
Proof.
  unfold available. destruct (this_client (cacheService w)) as [c|]; [|done].
  intros [H _]%andb_true_iff. eauto.
Qed.

(** C4.  While the store is unavailable ([isAvailable()] is false),
    [get] returns null for every key and [set] returns false for every
    key, value and expiry; both return at once, without throwing and
    without touching anything. *)
Theorem unavailable_get_null_set_false (w : world) (key : arg) (data : value) (expiry : Z) :
  isAvailable w = Returns w false ->
  get key w = Returns w VNull /\ set key data expiry w = Returns w false.
Proof.
  intros H. split.
  - unfold get. by rewrite (bind_returns _ _ _ _ _ H).
  - unfold set. by rewrite (bind_returns _ _ _ _ _ H).
Qed.

(** *** Cache keys *)

Lemma kept_keys (o l : object) :
  (forall k v, (k, v) ∈ l -> prop_get o k = v) ->
  filter (fun key => defined_value (prop_get o key) = true) l.*1 =
    (filter (fun kv => defined_value kv.2 = true) l).*1.
Proof. exact (filter_keys (fun v => defined_value v = true) o l). Qed.

Lemma queryString_of_order_free m keys keys' :
  keys ≡ₚ keys' -> queryString_of m keys = queryString_of m keys'.
Proof.
  intros H. unfold queryString_of. f_equal. f_equal.
  apply sort_order_free. by rewrite H.
Qed.

Lemma spec_queryString_map (query : object) :
  NoDup (Object_keys query) ->
  spec_queryString query = queryString_of (list_to_map query) (Object_keys query).
Proof.
  intros Hnd. unfold spec_queryString, queryString_of, Object_keys. cbv zeta.
  rewrite <- (kept_keys query query) by (intros; by apply prop_get_elem).
  f_equal.
  rewrite (list_filter_iff _
             (fun key => defined_value (default VUndefined
                           ((list_to_map query : gmap string value) !! key)) = true))
    by (intros k; by rewrite prop_get_map).
  apply map_ext. intros k. by rewrite prop_get_map.
Qed.

(** What [generateCacheKey] computes for a query object. *)
Lemma cacheKey_spec (endpoint : string) (query : object) :
  NoDup (Object_keys query) ->
  cacheKey endpoint (Some query) =
    if nonempty (spec_queryString query)
    then endpoint +:+ "?" +:+ spec_queryString query
    else endpoint.
Proof.
  intros Hnd. unfold cacheKey.
  destruct query as [|kv query]; [done|].
  change (length (Object_keys (kv :: query)) =? 0)%nat with false. cbv iota.
  unfold spec_queryString, Object_keys. cbv zeta.
  rewrite (filter_sort (fun key => defined_value (prop_get (kv :: query) key) = true)).
  rewrite (kept_keys (kv :: query) (kv :: query))
    by (intros; by apply prop_get_elem).
  destruct (nonempty _); [done|apply append_empty].
Qed.

(** C3 (amended).  [generateCacheKey] resolves to the endpoint followed,
    when at least one key has a value that is neither null nor
    undefined, by a question mark and the pairs [key=url-encoded-value]
    of those keys in sorted order joined by [&]; when no key is left
    (in particular for the empty query) it resolves to the endpoint
    alone.  Two queries that are equal as key-value maps get the same
    key. *)
Theorem generateCacheKey_sorted_and_order_free
  (endpoint : string) (query query' : object) (w : world) :
  NoDup (Object_keys query) ->
  NoDup (Object_keys query') ->
  (list_to_map query : gmap string value) = list_to_map query' ->
  generateCacheKey endpoint (Some query) w =
    Returns w (Fulfilled (now w)
      (if nonempty (spec_queryString query)
       then endpoint +:+ "?" +:+ spec_queryString query
       else endpoint)) /\
  generateCacheKey endpoint (Some query') w =
    generateCacheKey endpoint (Some query) w.
Proof.
  intros Hnd Hnd' Hmap.
  unfold generateCacheKey, Promise_resolve.
  rewrite !cacheKey_spec by done. split; [done|].
  rewrite !spec_queryString_map by done. rewrite <- Hmap.
  rewrite (queryString_of_order_free _ (Object_keys query') (Object_keys query)); [done|].
  unfold Object_keys. apply fmap_Permutation. symmetry. by apply list_to_map_inj.
Qed.

(** Unfolds an operation of the service on a world whose fields are
    explicit, and runs it as far as it computes. *)
Ltac run_cache :=
  unfold get, set, delete, invalidatePattern, clearAll, healthCheck,
    isAvailable, available, getClient, client_get, client_setEx, client_del,
    client_del_all, client_keys, client_flushDb, client_ping, send_with,
    stringify_arg, encode, send, next_answer, timeout_after, Promise_resolve,
    Promise_race, try_catch, await, mbind, async_bind, mret, async_ret;
  repeat (progress (cbn -[race_from Nat.ltb Redis.DEL]; rewrite ?race_plain_value)).

(** Makes the fields of an available world explicit. *)
Ltac open_world w c Hav :=
  destruct w as [? ? ? ? [? ?]]; destruct c as [? ? ?];
  unfold available in Hav; cbn in *; subst; cbn in *; subst.

(** C1.  No timer bounds the store round trip of the cache operations:
    each of [get], [set], [delete], [invalidatePattern] and [clearAll]
    awaits the reply of the store before it starts the race with its
    timer, so with a store that never answers the operation never
    completes. *)
Theorem cache_operations_wait_for_the_store
  (w : world) (key : string) (data : value) (text : string) (expiry : Z)
  (pattern : string) (rest : list behaviour) :
  available w = true ->
  answers w = Hang :: rest ->
  JSON_stringify data = Some text ->
  get (Text key) w = Blocks /\
  set (Text key) data expiry w = Blocks /\
  delete (Text key) w = Blocks /\
  invalidatePattern pattern w = Blocks /\
  clearAll w = Blocks.
Proof.
  intros Hav Hans Htext.
  destruct (available_client w Hav) as (c & Hc & Hopen).
  open_world w c Hav.
  repeat split; run_cache; rewrite ?Htext; reflexivity.
Qed.

(** A slow reply is waited for as well: the operation completes when the
    store answers, however late, and with the answer of the store. *)
Lemma get_returns_when_the_store_answers
  (w : world) (key : string) (delay : Z) (rest : list behaviour) :
  available w = true ->
  answers w = Reply delay :: rest ->
  0 <= delay ->
  Redis.read (now w) (db w) key = None ->
  exists w', get (Text key) w = Returns w' VNull /\ now w' = now w + delay.
Proof.
  intros Hav Hans Hd Hk.
  destruct (available_client w Hav) as (c & Hc & Hopen).
  open_world w c Hav.
  run_cache. unfold Redis.GET. rewrite Hk. cbn.
  returned. split; [reflexivity | cbn; lia].
Qed.

(** The health check races the ping itself, and its timer does fire. *)
Lemma healthCheck_times_out (w : world) (rest : list behaviour) :
  available w = true ->
  answers w = Hang :: rest ->
  exists w', healthCheck w = Returns w' (HealthError "Ping timeout")
             /\ now w' = now w + 3000.
Proof.
  intros Hav Hans.
  destruct (available_client w Hav) as (c & Hc & Hopen).
  open_world w c Hav.
  run_cache.
  eexists; split; [reflexivity | cbn; lia].
Qed.

Lemma nonempty_length {A} (l : list A) : l <> [] -> (0 <? length l)%nat = true.
Proof. by destruct l. Qed.

(** C8.  [invalidatePattern] returns true when the scan and the batch
    delete completed: with no matching key nothing is deleted, otherwise
    exactly the matching keys are.  It returns false when the store is
    unavailable and when the scan or the delete fails. *)
Theorem invalidatePattern_result (w : world) (pattern : string) :
  let keys := Redis.matching pattern (now w) (db w) in
  (available w = false -> invalidatePattern pattern w = Returns w false) /\
  (available w = true ->
   forall d1 rest, answers w = Reply d1 :: rest -> keys = [] ->
   exists w', invalidatePattern pattern w = Returns w' true /\ db w' = db w) /\
  (available w = true ->
   forall d1 d2 rest, answers w = Reply d1 :: Reply d2 :: rest -> keys <> [] ->
   exists w', invalidatePattern pattern w = Returns w' true /\
     forall k, db w' !! k = if decide (k ∈ keys) then None else db w !! k) /\
  (available w = true ->
   forall d1 e rest, answers w = Fail d1 e :: rest ->
   exists w', invalidatePattern pattern w = Returns w' false /\ db w' = db w) /\
  (available w = true ->
   forall d1 d2 e rest, answers w = Reply d1 :: Fail d2 e :: rest -> keys <> [] ->
   exists w', invalidatePattern pattern w = Returns w' false /\ db w' = db w).
Proof.
  intros keys. subst keys. split; [|repeat split].
  - intros Hav. unfold invalidatePattern.
    by rewrite (bind_returns isAvailable _ w w false) by (unfold isAvailable; by rewrite Hav).
  - intros Hav d1 rest Hans Hkeys.
    destruct (available_client w Hav) as (c & Hc & Hopen).
    open_world w c Hav. run_cache. unfold Redis.KEYS. rewrite Hkeys. cbn.
    returned. done.
  - intros Hav d1 d2 rest Hans Hkeys.
    destruct (available_client w Hav) as (c & Hc & Hopen).
    open_world w c Hav. run_cache. unfold Redis.KEYS. run_cache.
    rewrite (nonempty_length _ Hkeys). run_cache.
    rewrite DEL_some by done. run_cache.
    returned. split; [reflexivity|]. intros k. cbn. apply del_keys_lookup.
  - intros Hav d1 e rest Hans.
    destruct (available_client w Hav) as (c & Hc & Hopen).
    open_world w c Hav. run_cache. returned. done.
  - intros Hav d1 d2 e rest Hans Hkeys.
    destruct (available_client w Hav) as (c & Hc & Hopen).
    open_world w c Hav. run_cache. unfold Redis.KEYS. run_cache.
    rewrite (nonempty_length _ Hkeys). run_cache.
    returned. done.
Qed.


(** *** The claims at concrete worlds *)

Lemma unavailable_witness :
  get (Text "/api/v1/chapters") Examples.offline = Returns Examples.offline VNull /\
  set (Text "/api/v1/chapters") (VArr []) CACHE_EXPIRY Examples.offline
  = Returns Examples.offline false.
Proof.
  apply (unavailable_get_null_set_false Examples.offline (Text "/api/v1/chapters")
           (VArr []) CACHE_EXPIRY).
  reflexivity.
Defined.

Lemma cache_operations_wait_witness :
  get (Text "k") (Examples.online [Hang] ∅) = Blocks /\
  set (Text "k") VNull CACHE_EXPIRY (Examples.online [Hang] ∅) = Blocks /\
  delete (Text "k") (Examples.online [Hang] ∅) = Blocks /\
  invalidatePattern "/api/v1/chapters*" (Examples.online [Hang] ∅) = Blocks /\
  clearAll (Examples.online [Hang] ∅) = Blocks.
Proof.
  apply (cache_operations_wait_for_the_store (Examples.online [Hang] ∅) "k" VNull "null"
           CACHE_EXPIRY "/api/v1/chapters*" []);
    reflexivity.
Defined.

(** A reply after seven seconds is delivered after seven seconds: the
    timer of five seconds does not end the operation. *)
Lemma get_after_seven_seconds :
  exists w',
    get (Text "k") (Examples.online [Reply 7000] ∅) = Returns w' VNull /\
    now w' = 1000 + 7000.
Proof. eexists. split; vm_compute; reflexivity. Qed.

(** C3, as stated, fails for a query none of whose keys has a value:
    the code returns the endpoint alone, the algorithm as worded
    appends a question mark. *)
Lemma generateCacheKey_without_values :
  generateCacheKey "/x" (Some [("a", VUndefined)]) Examples.offline
  = Returns Examples.offline (Fulfilled 1000 "/x") /\
  spec_generateCacheKey "/x" [("a", VUndefined)] = "/x?".
Proof. split; reflexivity. Qed.

(** The examples of the specification. *)
Example generateCacheKey_empty :
  cacheKey "/x" (Some []) = "/x".
Proof. reflexivity. Qed.

Example generateCacheKey_sorted :
  cacheKey "/x" (Some [("b", VNum (Int 2)); ("a", VNum (Int 1))]) = "/x?a=1&b=2".
Proof. vm_compute. reflexivity. Qed.

Example generateCacheKey_dropped :
  cacheKey "/x" (Some [("a", VUndefined); ("b", VNum (Int 1))]) = "/x?b=1".
Proof. vm_compute. reflexivity. Qed.

Example generateCacheKey_encoded :
  cacheKey "/api/v1/chapters" (Some [("status", VStr "Not Started"); ("class", VStr "11&12")])
  = "/api/v1/chapters?class=11%2612&status=Not%20Started".
Proof. vm_compute. reflexivity. Qed.

Lemma generateCacheKey_witness :
  generateCacheKey "/x" (Some [("b", VNum (Int 2)); ("a", VNum (Int 1))]) Examples.offline
  = Returns Examples.offline
      (Fulfilled (now Examples.offline)
         (if nonempty (spec_queryString [("b", VNum (Int 2)); ("a", VNum (Int 1))])
          then "/x" +:+ "?" +:+ spec_queryString [("b", VNum (Int 2)); ("a", VNum (Int 1))]
          else "/x")) /\
  generateCacheKey "/x" (Some [("a", VNum (Int 1)); ("b", VNum (Int 2))]) Examples.offline
  = generateCacheKey "/x" (Some [("b", VNum (Int 2)); ("a", VNum (Int 1))]) Examples.offline.
Proof.
  apply (generateCacheKey_sorted_and_order_free "/x"
           [("b", VNum (Int 2)); ("a", VNum (Int 1))]
           [("a", VNum (Int 1)); ("b", VNum (Int 2))] Examples.offline).
  - apply (bool_decide_unpack _). vm_compute. exact I.
  - apply (bool_decide_unpack _). vm_compute. exact I.
  - vm_compute. reflexivity.
Defined.



(** A number with a fraction comes back as it went. *)
Example set_then_get_keeps_a_fraction :
  exists w1 w2,
    set (Text "k") (VArr [VNum (Dec false "5" 0); VNum (Dec true "314159" 1);
                          VNum (Dec false "30000000000000004" 0)])
      CACHE_EXPIRY (Examples.online [] ∅) = Returns w1 true /\
    db w1 !! "k" ≫= (Some ∘ Redis.data) = Some "[0.5,-3.14159,0.30000000000000004]" /\
    get (Text "k") w1
    = Returns w2 (VArr [VNum (Dec false "5" 0); VNum (Dec true "314159" 1);
                        VNum (Dec false "30000000000000004" 0)]).
Proof. eexists _, _. split; [|split]; vm_compute; reflexivity. Qed.

Lemma invalidatePattern_witness :
  invalidatePattern "/api/v1/chapters*" Examples.offline = Returns Examples.offline false /\
  exists w',
    invalidatePattern "/api/v1/chapters*" (Examples.online [Reply 1] ∅) = Returns w' true /\
    db w' = db (Examples.online [Reply 1] ∅).
Proof.
  split.
  - apply (proj1 (invalidatePattern_result Examples.offline "/api/v1/chapters*")).
    reflexivity.
  - apply (proj1 (proj2 (invalidatePattern_result (Examples.online [Reply 1] ∅)
                           "/api/v1/chapters*")) eq_refl 1 []);
      reflexivity.
Defined.

End CacheFacts.

(** ** The rate limiter *)

Section LimiterFacts.
Import RateLimiter.

Lemma getClient_connected w :
  exists r, getClient w = Returns w r /\ usable r = connected w.
Proof.
  unfold getClient, try_catch, getRedisClient, connected, usable.
  destruct (redisClient w) as [c|]; [|by eexists].
  destruct (String.eqb (status c) "ready"); by eexists.
Qed.

(** C2.  Fail-open: when the client is absent, not ready or not open,
    or when the increment sent to the store raises an error, the
    limiter's increment returns one hit and does not throw.  The reset
    time it reports is one minute from now, whatever window the limiter
    was configured with. *)
Theorem store_incr_fails_open (o : options) (key : string) (w : world) :
  connected w = None \/
  (exists c, connected w = Some c /\
     raises (sent ← client_incr c (prefix +:+ key); await sent) w) ->
  exists w',
    store_incr (createRateLimiter o) key w =
      Returns w' {| totalHits := 1; resetTime := now w' + 60000 |}.
Proof.
  intros H. cbn.
  destruct (getClient_connected w) as (r & Hr & Hu).
  destruct H as [Hdown | (c & Hc & w' & e & Hthrow)].
  - exists w. apply try_returns. unfold incr.
    rewrite (bind_returns _ _ _ _ _ Hr), Hu, Hdown. reflexivity.
  - exists w'. apply try_returns. unfold incr.
    rewrite (bind_returns _ _ _ _ _ Hr), Hu, Hc.
    unfold try_catch, mbind, async_bind in *.
    destruct (client_incr c (prefix +:+ key) w) as [w1 sent|w1 e1|];
      [destruct (await sent w1)|..]; by simplify_eq.
Qed.

Lemma connected_Some w c :
  connected w = Some c ->
  redisClient w = Some c /\ status c = "ready" /\ isOpen c = true.
Proof.
  unfold connected. destruct (redisClient w) as [c'|]; [|done].
  destruct (String.eqb_spec (status c') "ready"); [|done].
  destruct (isOpen c') eqn:E; [|done]. by intros [= <-].
Qed.

Ltac run_limiter :=
  unfold incr, decrement, resetKey, getClient, getRedisClient, usable,
    client_incr, client_decr, client_expire, client_set, client_del, send_with,
    encode, send, next_answer, Date_now, try_catch, await, mbind, async_bind,
    mret, async_ret;
  cbn.

(** C7.  When the increment finds no counter (the first hit of a fresh
    window) the limiter reports one hit, sets the expiry of the key to
    60 seconds and reports a reset time of now + 60000 ms.  Both are
    one minute whatever window the limiter was configured with. *)
Theorem first_hit_expiry_is_one_minute
  (o : options) (key : string) (w : world) (c : client) (d1 d2 : Z)
  (rest : list behaviour) :
  connected w = Some c ->
  answers w = Reply d1 :: Reply d2 :: rest ->
  0 <= d1 -> 0 <= d2 ->
  Redis.read (now w) (db w) (prefix +:+ key) = None ->
  exists w',
    store_incr (createRateLimiter o) key w =
      Returns w' {| totalHits := 1; resetTime := now w' + 60000 |} /\
    now w' = now w + d1 + d2 /\
    db w' !! (prefix +:+ key) =
      Some {| Redis.data := "1"; Redis.expires := Some (now w + d1 + 60 * 1000) |}.
Proof.
  intros (Hc & Hready & Hopen)%connected_Some Hans H1 H2 Hfresh.
  destruct w as [t d ans rc cs]; destruct c as [op st enc]; cbn in *; subst.
  run_limiter.
  rewrite (INCR_fresh _ _ _ Hfresh). cbn.
  erewrite EXPIRE_live; [|by apply read_insert_live|lia].
  unfold set_clock. cbn. repeat rewrite Z.max_r by lia.
  returned. split; [reflexivity|]. cbn. split; [lia|].
  by rewrite lookup_insert_eq.
Qed.

Lemma stored_hits_text w key z :
  stored_hits w key = Some z ->
  Z_of_string
    (default "0" (Redis.data <$> Redis.read (now w) (db w) (prefix +:+ key))) = Some z.
Proof.
  unfold stored_hits. destruct (Redis.read _ _ _); cbn; [done|].
  by intros [= <-].
Qed.

(** What [decrement] does when the store answers and the counter does
    not stand above 0: it writes 0 with a plain [SET]. *)
Lemma decrement_writes_zero
  (key : string) (w : world) (c : client) (z d1 d2 : Z) (rest : list behaviour) :
  connected w = Some c ->
  answers w = Reply d1 :: Reply d2 :: rest ->
  0 <= d1 -> 0 <= d2 ->
  stored_hits w key = Some z ->
  Redis.INT64_MIN < z <= 0 ->
  exists w',
    decrement key w = Returns w' tt /\
    db w' !! (prefix +:+ key) = Some {| Redis.data := "0"; Redis.expires := None |}.
Proof.
  intros (Hc & Hready & Hopen)%connected_Some Hans H1 H2 Hz%stored_hits_text Hneg.
  destruct w as [t d ans rc cs]; destruct c as [op st enc]; cbn in *; subst.
  run_limiter. unfold Redis.DECR.
  rewrite (incr_by_spec _ _ _ _ _ Hz) by (unfold Redis.INT64_MAX; lia). cbn.
  destruct (z + -1 <? 0) eqn:E; [|lia]. cbn.
  returned. split; [reflexivity|]. cbn.
  by rewrite lookup_insert_eq.
Qed.

(** C10.  When the decrement leaves the counter negative (it stood at
    0 or below, or was absent), [decrement] writes 0 with a plain [SET]
    that carries no expiry: whatever time to live the key had is gone,
    and the key is there at every later time. *)
Theorem decrement_correction_drops_expiry
  (key : string) (w : world) (c : client) (z d1 d2 : Z) (rest : list behaviour) :
  connected w = Some c ->
  answers w = Reply d1 :: Reply d2 :: rest ->
  0 <= d1 -> 0 <= d2 ->
  stored_hits w key = Some z ->
  Redis.INT64_MIN < z <= 0 ->
  exists w',
    decrement key w = Returns w' tt /\
    db w' !! (prefix +:+ key) = Some {| Redis.data := "0"; Redis.expires := None |} /\
    forall t, Redis.read t (db w') (prefix +:+ key)
              = Some {| Redis.data := "0"; Redis.expires := None |}.
Proof.
  intros Hconn Hans H1 H2 Hz Hneg.
  destruct (decrement_writes_zero key w c z d1 d2 rest) as (w' & Hrun & Hdb); try done.
  exists w'. repeat split; [done..|].
  intros t. by apply read_Some.
Qed.

(** When the store executes both commands, the counter is at least 0
    after [decrement(key)] completes, and a counter that stood at 0
    stands at 0. *)
Lemma decrement_clamps_when_the_store_answers
  (key : string) (w : world) (c : client) (z d1 d2 : Z) (rest : list behaviour) :
  connected w = Some c ->
  answers w = Reply d1 :: Reply d2 :: rest ->
  0 <= d1 -> 0 <= d2 ->
  stored_hits w key = Some z ->
  Redis.INT64_MIN < z <= Redis.INT64_MAX ->
  exists w',
    decrement key w = Returns w' tt /\
    (exists z', stored_hits w' key = Some z' /\ 0 <= z') /\
    (z = 0 -> stored_hits w' key = Some 0).
Proof.
  intros Hconn Hans H1 H2 Hz Hrange.
  destruct (Z.le_gt_cases z 0) as [Hle|Hpos].
  - destruct (decrement_writes_zero key w c z d1 d2 rest)
      as (w' & Hrun & Hdb); try done; [lia|].
    exists w'. split; [done|].
    assert (stored_hits w' key = Some 0) as ->.
    { unfold stored_hits, Redis.read. by rewrite Hdb. }
    split; [by exists 0|done].
  - apply connected_Some in Hconn as (Hc & Hready & Hopen).
    apply stored_hits_text in Hz.
    destruct w as [t d ans rc cs]; destruct c as [op st enc]; cbn in *; subst.
    run_limiter. unfold Redis.DECR.
    rewrite (incr_by_spec _ _ _ _ _ Hz) by (unfold Redis.INT64_MIN in *; lia). cbn.
    destruct (z + -1 <? 0) eqn:E; [lia|]. cbn.
    returned. split; [reflexivity|]. split; [|lia].
    unfold stored_hits, Redis.read. cbn. rewrite lookup_insert_eq.
    destruct (Redis.live _ _); cbn; [|by exists 0].
    rewrite Z_of_to_string. exists (z + -1). split; [done|lia].
Qed.

(** What [decrement] leaves when the store executes the decrement and
    rejects the corrective write. *)
Lemma decrement_without_the_correction
  (key : string) (w : world) (c : client) (z d1 d2 : Z) (e : error)
  (rest : list behaviour) :
  connected w = Some c ->
  answers w = Reply d1 :: Fail d2 e :: rest ->
  0 <= d1 -> 0 <= d2 ->
  stored_hits w key = Some z ->
  Redis.INT64_MIN < z <= 0 ->
  exists w',
    decrement key w = Returns w' tt /\
    now w' = now w + d1 + d2 /\
    db w' !! (prefix +:+ key)
    = Some {| Redis.data := Z_to_string (z - 1);
              Redis.expires :=
                Redis.read (now w) (db w) (prefix +:+ key) ≫= Redis.expires |}.
Proof.
  intros (Hc & Hready & Hopen)%connected_Some Hans H1 H2 Hz%stored_hits_text Hneg.
  destruct w as [t d ans rc cs]; destruct c as [op st enc]; cbn in *; subst.
  run_limiter. unfold Redis.DECR.
  rewrite (incr_by_spec _ _ _ _ _ Hz) by (unfold Redis.INT64_MAX; lia). cbn.
  destruct (z + -1 <? 0) eqn:E; [|lia]. cbn.
  returned. split; [reflexivity|]. cbn. split; [lia|].
  rewrite lookup_insert_eq. by replace (z + -1) with (z - 1) by lia.
Qed.

(** C6.  The clamp at 0 is a second command: [decrement] sends [DECR]
    and, when the result is negative, a [SET] of 0, inside one [try]
    whose [catch] only logs.  When the store executes both, the counter
    is at least 0 afterwards and a counter at 0 stays at 0.  When the
    store executes the [DECR] and rejects the [SET], [decrement]
    completes all the same and the counter is left below 0, where it
    is read until its expiry (for ever, when it has none). *)
Theorem decrement_clamps_only_if_the_set_succeeds
  (key : string) (w : world) (c : client) (z d1 d2 : Z) (rest : list behaviour) :
  connected w = Some c ->
  0 <= d1 -> 0 <= d2 ->
  stored_hits w key = Some z ->
  Redis.INT64_MIN < z <= Redis.INT64_MAX ->
  (answers w = Reply d1 :: Reply d2 :: rest ->
   exists w',
     decrement key w = Returns w' tt /\
     (exists z', stored_hits w' key = Some z' /\ 0 <= z') /\
     (z = 0 -> stored_hits w' key = Some 0)) /\
  (forall e, answers w = Reply d1 :: Fail d2 e :: rest -> z <= 0 ->
   exists w' left,
     decrement key w = Returns w' tt /\
     db w' !! (prefix +:+ key) = Some left /\
     Redis.data left = Z_to_string (z - 1) /\
     Redis.expires left = Redis.read (now w) (db w) (prefix +:+ key) ≫= Redis.expires /\
     forall t, now w' <= t -> Redis.live t left = true ->
       stored_hits (set_clock w' t) key = Some (z - 1) /\ z - 1 < 0).
Proof.
  intros Hconn H1 H2 Hz Hrange. split.
  - intros Hans. by apply (decrement_clamps_when_the_store_answers key w c z d1 d2 rest).
  - intros e Hans Hle.
    destruct (decrement_without_the_correction key w c z d1 d2 e rest)
      as (w' & Hrun & Hnow & Hdb); try done; [lia|].
    eexists w', _. split; [done|]. split; [exact Hdb|]. split; [done|]. split; [done|].
    intros t Ht Hlive. split; [|lia].
    unfold stored_hits, Redis.read. cbn [set_clock now db]. rewrite Hdb.
    rewrite Z.max_r by done. rewrite Hlive. cbn. apply Z_of_to_string.
Qed.

(** The failing input of C6: the counter of [address] stands at 0, the
    store executes the decrement and rejects the [SET]; [decrement]
    completes and the counter stands at -1. *)
Lemma decrement_leaves_minus_one :
  stored_hits (Examples.online [Reply 0; Fail 0 "Connection is closed."]
                 Examples.idle_counter) Examples.address = Some 0 /\
  exists w',
    decrement Examples.address
      (Examples.online [Reply 0; Fail 0 "Connection is closed."] Examples.idle_counter)
    = Returns w' tt /\
    stored_hits w' Examples.address = Some (-1).
Proof. split; [reflexivity|]. eexists. split; vm_compute; reflexivity. Qed.

Lemma decrement_clamps_witness :
  exists w' left,
    decrement Examples.address
      (Examples.online [Reply 0; Fail 0 "Connection is closed."] Examples.idle_counter)
    = Returns w' tt /\
    db w' !! (prefix +:+ Examples.address) = Some left /\
    Redis.data left = Z_to_string (0 - 1) /\
    Redis.expires left
    = Redis.read (now (Examples.online [Reply 0; Fail 0 "Connection is closed."]
                         Examples.idle_counter))
        (db (Examples.online [Reply 0; Fail 0 "Connection is closed."]
               Examples.idle_counter))
        (prefix +:+ Examples.address) ≫= Redis.expires /\
    forall t, now w' <= t -> Redis.live t left = true ->
      stored_hits (set_clock w' t) Examples.address = Some (0 - 1) /\ 0 - 1 < 0.
Proof.
  assert (Redis.INT64_MIN < 0 <= Redis.INT64_MAX) as Hrange
    by (unfold Redis.INT64_MIN, Redis.INT64_MAX; lia).
  apply (proj2 (decrement_clamps_only_if_the_set_succeeds Examples.address
                  (Examples.online [Reply 0; Fail 0 "Connection is closed."]
                     Examples.idle_counter)
                  Examples.strict_client 0 0 0 [] eq_refl (Z.le_refl 0) (Z.le_refl 0)
                  eq_refl Hrange)
           "Connection is closed.");
    [reflexivity|lia].
Defined.

Lemma decrement_correction_witness :
  exists w',
    decrement Examples.address (Examples.online [Reply 2; Reply 3] Examples.idle_counter)
    = Returns w' tt /\
    db w' !! (prefix +:+ Examples.address)
    = Some {| Redis.data := "0"; Redis.expires := None |} /\
    forall t, Redis.read t (db w') (prefix +:+ Examples.address)
              = Some {| Redis.data := "0"; Redis.expires := None |}.
Proof.
  apply (decrement_correction_drops_expiry Examples.address
           (Examples.online [Reply 2; Reply 3] Examples.idle_counter)
           Examples.strict_client 0 2 3 []);
    try reflexivity; try lia.
  unfold Redis.INT64_MIN. lia.
Defined.

(** The failing input of C2 and C7: a limiter with a window of two
    minutes.  Without a store the reset time is one minute away, not
    the window. *)
Lemma store_incr_reset_is_not_the_window :
  store_incr (createRateLimiter Examples.two_minutes) Examples.address Examples.offline
  = Returns Examples.offline {| totalHits := 1; resetTime := 1000 + 60000 |} /\
  1000 + 60000 <> now Examples.offline + windowMs (createRateLimiter Examples.two_minutes).
Proof. split; [reflexivity|]. vm_compute. discriminate. Qed.

(** With a store, the first hit gets an expiry of one minute, not of
    the window. *)
Lemma first_hit_expiry_is_not_the_window :
  exists w',
    store_incr (createRateLimiter Examples.two_minutes) Examples.address
      (Examples.online [] ∅)
    = Returns w' {| totalHits := 1; resetTime := 1000 + 60000 |} /\
    db w' !! (prefix +:+ Examples.address)
    = Some {| Redis.data := "1"; Redis.expires := Some (1000 + 60000) |} /\
    1000 + 60000 <> now w' + windowMs (createRateLimiter Examples.two_minutes).
Proof.
  eexists. split; [vm_compute; reflexivity|]. split; [vm_compute; reflexivity|].
  vm_compute. discriminate.
Qed.

Lemma store_incr_fails_open_witness :
  exists w',
    store_incr (createRateLimiter Examples.two_minutes) Examples.address Examples.offline
    = Returns w' {| totalHits := 1; resetTime := now w' + 60000 |}.
Proof.
  apply (store_incr_fails_open Examples.two_minutes Examples.address Examples.offline).
  left. reflexivity.
Defined.

Lemma first_hit_expiry_witness :
  exists w',
    store_incr (createRateLimiter Examples.two_minutes) Examples.address
      (Examples.online [Reply 2; Reply 3] ∅)
    = Returns w' {| totalHits := 1; resetTime := now w' + 60000 |} /\
    now w' = 1000 + 2 + 3 /\
    db w' !! (prefix +:+ Examples.address)
    = Some {| Redis.data := "1"; Redis.expires := Some (1000 + 2 + 60 * 1000) |}.
Proof.
  apply (first_hit_expiry_is_one_minute Examples.two_minutes Examples.address
           (Examples.online [Reply 2; Reply 3] ∅) Examples.strict_client 2 3 []);
    try reflexivity; lia.
Defined.

(** After the correction the key has no expiry until the counter is
    next brought to 1: that increment sets the expiry again. *)
Example expiry_returns_with_the_next_hit :
  exists w1 w2 h,
    decrement Examples.address (Examples.online [] Examples.idle_counter) = Returns w1 tt /\
    db w1 !! (prefix +:+ Examples.address)
    = Some {| Redis.data := "0"; Redis.expires := None |} /\
    incr Examples.address w1 = Returns w2 h /\
    db w2 !! (prefix +:+ Examples.address)
    = Some {| Redis.data := "1"; Redis.expires := Some (1000 + 60 * 1000) |}.
Proof.
  eexists _, _, _.
  split; [vm_compute; reflexivity|].
  split; [vm_compute; reflexivity|].
  split; [vm_compute; reflexivity|].
  vm_compute; reflexivity.
Qed.

End LimiterFacts.

(** ** The listing handler *)

Section ControllerFacts.
Import ChapterController.

(** The handler, step by step, for a query that passes validation: the
    lookup under the key, and on a miss the listing and the write under
    the same key. *)
Lemma getChapters_steps
  (validateQuery : object -> list string + object) (listChapters : object -> async value)
  (query validated : object) (w : world) :
  validateQuery query = inr validated ->
  getChapters validateQuery listChapters query w
  = match CacheService.get (Exotic PromiseObject) w with
    | Returns w1 cachedData =>
        if truthy cachedData then
          match spread cachedData with
          | Some args => Returns w1 (Json 200 args)
          | None => Returns w1 (Next "TypeError: cachedData is not iterable")
          end
        else
          match listChapters validated w1 with
          | Returns w2 responseData =>
              match CacheService.set (Exotic PromiseObject) responseData
                      CacheService.CACHE_EXPIRY w2 with
              | Returns w3 _ => Returns w3 (Json 200 [responseData])
              | Throws w3 e => Returns w3 (Next e)
              | Blocks => Blocks
              end
          | Throws w2 e => Returns w2 (Next e)
          | Blocks => Blocks
          end
    | Throws w1 e => Returns w1 (Next e)
    | Blocks => Blocks
    end.
Proof.
  intros Hq. unfold getChapters, try_catch. rewrite Hq.
  unfold CacheService.generateCacheKey, Promise_resolve, getChapters_key.
  unfold mbind at 1, async_bind at 1. unfold mbind at 1, async_bind at 1.
  destruct (CacheService.get (Exotic PromiseObject) w) as [w1 cachedData|w1 e|];
    [|done|done].
  destruct (truthy cachedData); [by destruct (spread cachedData)|].
  unfold mbind at 1, async_bind at 1.
  destruct (listChapters validated w1) as [w2 responseData|w2 e|]; [|done|done].
  unfold mbind at 1, async_bind at 1.
  by destruct (CacheService.set (Exotic PromiseObject) responseData
                 CacheService.CACHE_EXPIRY w2).
Qed.

(** C9.  [generateCacheKey] returns a promise, fulfilled with the key
    string, and [getChapters] hands that promise, not the string, to
    [get] and to [set].  For two queries that pass validation:
    - the promises are those of the two key strings, and differ when
      the strings do;
    - the key handed on is not text, and every client puts the same on
      the wire for the two requests;
    - the handler answers a request by looking up that key, and on a
      miss by listing from the record store and writing the response
      under that key;
    - so a request that finds an entry is answered from it whatever it
      asked for: the two requests have the same outcome, and the record
      store is not asked;
    - and what the write-through of one request leaves in the store and
      in the service is what the other would have left for the same
      response. *)
Theorem getChapters_passes_the_promise_as_key
  (validateQuery : object -> list string + object) (listChapters : object -> async value)
  (q1 q2 v1 v2 : object) (w : world) :
  validateQuery q1 = inr v1 ->
  validateQuery q2 = inr v2 ->
  let p1 := Fulfilled (now w) (CacheService.cacheKey "/api/v1/chapters" (Some v1)) in
  let p2 := Fulfilled (now w) (CacheService.cacheKey "/api/v1/chapters" (Some v2)) in
  let handler := getChapters validateQuery listChapters in
  CacheService.generateCacheKey "/api/v1/chapters" (Some v1) w = Returns w p1 /\
  CacheService.generateCacheKey "/api/v1/chapters" (Some v2) w = Returns w p2 /\
  (p1 = p2 <->
   CacheService.cacheKey "/api/v1/chapters" (Some v1)
   = CacheService.cacheKey "/api/v1/chapters" (Some v2)) /\
  (forall s, getChapters_key p1 <> Text s) /\
  (forall c, encode c (getChapters_key p1) = encode c (getChapters_key p2)) /\
  handler q1 w
  = match CacheService.get (getChapters_key p1) w with
    | Returns w1 cachedData =>
        if truthy cachedData then
          match spread cachedData with
          | Some args => Returns w1 (Json 200 args)
          | None => Returns w1 (Next "TypeError: cachedData is not iterable")
          end
        else
          match listChapters v1 w1 with
          | Returns w2 responseData =>
              match CacheService.set (getChapters_key p1) responseData
                      CacheService.CACHE_EXPIRY w2 with
              | Returns w3 _ => Returns w3 (Json 200 [responseData])
              | Throws w3 e => Returns w3 (Next e)
              | Blocks => Blocks
              end
          | Throws w2 e => Returns w2 (Next e)
          | Blocks => Blocks
          end
    | Throws w1 e => Returns w1 (Next e)
    | Blocks => Blocks
    end /\
  (forall w1 cachedData,
     CacheService.get (getChapters_key p1) w = Returns w1 cachedData ->
     truthy cachedData = true ->
     handler q1 w = handler q2 w /\
     forall other : object -> async value,
       getChapters validateQuery other q1 w = handler q1 w) /\
  (forall responseData w',
     CacheService.set (getChapters_key p1) responseData CacheService.CACHE_EXPIRY w'
     = CacheService.set (getChapters_key p2) responseData CacheService.CACHE_EXPIRY w').
Proof.
  intros H1 H2 p1 p2 handler. subst handler.
  split; [reflexivity|]. split; [reflexivity|]. split.
  { split; [intros [= H]; exact H|intros H; unfold p1, p2; f_equal; exact H]. }
  split; [done|]. split; [done|]. split.
  { exact (getChapters_steps validateQuery listChapters q1 v1 w H1). }
  split; [|done].
  intros w1 cachedData Hget Htruthy. unfold getChapters_key in Hget. split.
  - rewrite (getChapters_steps validateQuery listChapters q1 v1 w H1),
      (getChapters_steps validateQuery listChapters q2 v2 w H2).
    by rewrite Hget, Htruthy.
  - intros other.
    rewrite (getChapters_steps validateQuery listChapters q1 v1 w H1),
      (getChapters_steps validateQuery other q1 v1 w H1).
    by rewrite Hget, Htruthy.
Qed.

(** The claim at a store that holds a listing under the text of the
    promise, reached through a client that converts its arguments to
    text: the requests for page 1 and for page 2 have the same key on
    the wire and the same outcome, although their key strings differ. *)
Lemma getChapters_key_witness :
  let w := Examples.online_lenient []
             {[ "[object Promise]" :=
                  {| Redis.data := "[1]"; Redis.expires := None |} ]} in
  CacheService.cacheKey "/api/v1/chapters" (Some [("page", VNum (Int 1))])
  <> CacheService.cacheKey "/api/v1/chapters" (Some [("page", VNum (Int 2))]) /\
  getChapters Examples.accept_all Examples.echo_page [("page", VNum (Int 1))] w
  = Returns (set_clock w 1000) (Json 200 [VNum (Int 1)]) /\
  getChapters Examples.accept_all Examples.echo_page [("page", VNum (Int 1))] w
  = getChapters Examples.accept_all Examples.echo_page [("page", VNum (Int 2))] w.
Proof.
  intros w. split; [vm_compute; discriminate|]. split; [vm_compute; reflexivity|].
  apply (proj1 (proj2 (proj2 (proj2 (proj2 (proj2 (proj2
           (getChapters_passes_the_promise_as_key Examples.accept_all Examples.echo_page
              [("page", VNum (Int 1))] [("page", VNum (Int 2))]
              [("page", VNum (Int 1))] [("page", VNum (Int 2))] w eq_refl eq_refl))))))))
    with (w1 := set_clock w 1000) (cachedData := VArr [VNum (Int 1)]);
    [vm_compute; reflexivity|reflexivity].
Defined.

(** The keys promised for two pages differ. *)
Example promised_keys_differ :
  CacheService.cacheKey "/api/v1/chapters" (Some [("page", VNum (Int 1))])
  <> CacheService.cacheKey "/api/v1/chapters" (Some [("page", VNum (Int 2))]).
Proof. vm_compute. discriminate. Qed.

(** With a client library that converts the promise to text, the
    listing of page 1 is stored under the text of the promise, and the
    request for page 2 finds that entry; spreading the cached object
    into the arguments of [res.json] then throws. *)
Example second_request_finds_the_first_entry :
  exists w1 w2 entry,
    getChapters Examples.accept_all Examples.echo_page [("page", VNum (Int 1))]
      (Examples.online_lenient [] ∅)
    = Returns w1 (Json 200 [VObj [("success", VBool true); ("currentPage", VNum (Int 1))]]) /\
    db w1 !! "[object Promise]" = Some entry /\
    CacheService.get (getChapters_key (Fulfilled 1000 "/api/v1/chapters?page=2")) w1
    = Returns w2 (VObj [("success", VBool true); ("currentPage", VNum (Int 1))]) /\
    getChapters Examples.accept_all Examples.echo_page [("page", VNum (Int 2))] w1
    = Returns w2 (Next "TypeError: cachedData is not iterable").
Proof.
  eexists _, _, _.
  split; [vm_compute; reflexivity|].
  split; [vm_compute; reflexivity|].
  split; [vm_compute; reflexivity|].
  vm_compute; reflexivity.
Qed.

End ControllerFacts.

(** * More of the code *)

(** ** The cache service: errors, bounds and frames *)

Section CacheMore.
Import CacheService.

Ltac run_ops :=
  unfold get, set, delete, invalidatePattern, invalidateChapterCache, clearAll,
    healthCheck, isAvailable, available, getClient, set_this_client, getRedisClient,
    client_get, client_setEx, client_del, client_del_all, client_keys,
    client_flushDb, client_ping, send_with, stringify_arg, encode, send,
    next_answer, timeout_after, Promise_resolve, Promise_race, try_catch, await,
    throw, mbind, async_bind, mret, async_ret;
  repeat (progress (cbn -[race_from Nat.ltb Redis.DEL Z.add Z.mul Z.max];
                    rewrite ?race_plain_value)).

(** A handler that returns swallows whatever the body throws. *)
Lemma try_swallows {A} (m : async A) (a : A) w w' e :
  try_catch m (fun _ => mret a) w <> Throws w' e.
Proof. unfold try_catch. destruct (m w); done. Qed.

(** Splits on the tests an operation makes on its way. *)
Ltac split_tests :=
  repeat match goal with
         | |- context [if ?b then _ else _] => destruct b eqn:?; cbn
         | |- context [Z.ltb ?a ?b] => destruct (Z.ltb_spec a b); cbn
         end.

(** X2.  The health check always answers, and within three seconds:
    whatever the state of the service and however the store behaves,
    [healthCheck] returns a status not later than 3000 ms after the
    call. *)
Theorem healthCheck_answers_within_three_seconds (w : world) :
  exists w' h, healthCheck w = Returns w' h /\ now w <= now w' <= now w + 3000.
Proof.
  destruct w as [t d ans rc [tc ini]].
  destruct ini; [|eexists _, _; split; [reflexivity|cbn; lia]].
  destruct tc as [[[] st enc]|]; destruct rc as [[[] st' enc']|];
    destruct ans as [|[dl|dl e|] rest]; run_ops; unfold set_clock, rejecting; cbn;
    split_tests; eexists _, _; (split; [reflexivity|cbn; lia]).
Qed.

(** Makes the fields of an available world explicit. *)
Ltac open_available w Hav :=
  let c := fresh "c" in
  let Hc := fresh "Hc" in
  let Hopen := fresh "Hopen" in
  destruct (available_client w Hav) as (c & Hc & Hopen);
  destruct w as [? ? ? ? [? ?]]; destruct c as [? ? ?];
  unfold available in Hav; cbn in *; subst; cbn in *; subst.

(** X3.  What the health check of an available service reports: a pong
    that comes within three seconds is healthy; a failure that comes
    within three seconds is reported with its message; a store that
    answers later than that, or never, is reported as [Ping timeout]
    at three seconds. *)
Theorem healthCheck_reports (w : world) (rest : list behaviour) :
  available w = true ->
  (forall d, answers w = Reply d :: rest -> 0 <= d < 3000 ->
     exists w', healthCheck w = Returns w' (Healthy "PONG" true) /\ now w' = now w + d) /\
  (forall d e, answers w = Fail d e :: rest -> 0 <= d < 3000 ->
     exists w', healthCheck w = Returns w' (HealthError e) /\ now w' = now w + d) /\
  (forall b, answers w = b :: rest ->
     match b with
     | Reply d | Fail d _ => 3000 < d
     | Hang => True
     end ->
     exists w', healthCheck w = Returns w' (HealthError "Ping timeout")
                /\ now w' = now w + 3000).
Proof.
  intros Hav. repeat split.
  - intros d Hans Hd. open_available w Hav. run_ops. unfold set_clock, rejecting; cbn.
    split_tests; try lia. eexists; split; [reflexivity|cbn; lia].
  - intros d e Hans Hd. open_available w Hav. run_ops. unfold set_clock, rejecting; cbn.
    split_tests; try lia. eexists; split; [reflexivity|cbn; lia].
  - intros b Hans Hb. open_available w Hav.
    destruct b as [d|d e|]; run_ops; unfold set_clock, rejecting; cbn;
      split_tests; try lia; eexists; (split; [reflexivity|cbn; lia]).
Qed.

Lemma healthCheck_reports_witness :
  exists w',
    healthCheck (Examples.online [Reply 12] ∅) = Returns w' (Healthy "PONG" true) /\
    now w' = now (Examples.online [Reply 12] ∅) + 12.
Proof.
  apply (proj1 (healthCheck_reports (Examples.online [Reply 12] ∅) [] eq_refl) 12);
    [reflexivity|lia].
Defined.

(** X4.  [delete] of an available service removes the key and returns
    true exactly when the key held a live entry; when the store fails
    the command it returns false and nothing is removed. *)
Theorem delete_removes_the_key (w : world) (key : string) :
  available w = true ->
  (forall d rest, answers w = Reply d :: rest ->
     exists w',
       delete (Text key) w
       = Returns w' (bool_decide (is_Some (Redis.read (now w) (db w) key))) /\
       db w' = base.delete key (db w)) /\
  (forall d e rest, answers w = Fail d e :: rest ->
     exists w', delete (Text key) w = Returns w' false /\ db w' = db w).
Proof.
  intros Hav. split.
  - intros d rest Hans. open_available w Hav. run_ops.
    rewrite DEL_some by done. cbn [Redis.del_keys fst snd].
    destruct (Redis.read _ _ key) as [e|]; run_ops; eexists; (split; [reflexivity|done]).
  - intros d e rest Hans. open_available w Hav. run_ops.
    eexists; split; [reflexivity|done].
Qed.

Lemma delete_removes_witness :
  exists w',
    delete (Text "rl:203.0.113.7") (Examples.online [Reply 1] Examples.idle_counter)
    = Returns w'
        (bool_decide (is_Some (Redis.read (now (Examples.online [Reply 1] Examples.idle_counter))
                                 (db (Examples.online [Reply 1] Examples.idle_counter))
                                 "rl:203.0.113.7"))) /\
    db w' = base.delete "rl:203.0.113.7" (db (Examples.online [Reply 1] Examples.idle_counter)).
Proof.
  apply (proj1 (delete_removes_the_key (Examples.online [Reply 1] Examples.idle_counter)
                  "rl:203.0.113.7" eq_refl) 1 []).
  reflexivity.
Defined.

(** X5.  [clearAll] of an available service whose store answers returns
    true and leaves the store empty: no key is read any more, and every
    counter of the rate limiter, which lives in the same store, is back
    at 0. *)
Theorem clearAll_empties_the_store (w : world) (d : Z) (rest : list behaviour) :
  available w = true ->
  answers w = Reply d :: rest ->
  exists w',
    clearAll w = Returns w' true /\
    db w' = ∅ /\
    (forall t key, Redis.read t (db w') key = None) /\
    (forall key, RateLimiter.stored_hits w' key = Some 0).
Proof.
  intros Hav Hans. open_available w Hav. run_ops.
  eexists. split; [reflexivity|]. cbn. split; [done|]. split.
  - intros t key. unfold Redis.read. by rewrite lookup_empty.
  - intros key. unfold RateLimiter.stored_hits, Redis.read. cbn.
    by rewrite lookup_empty.
Qed.

Lemma clearAll_witness :
  exists w',
    clearAll (Examples.online [Reply 1] Examples.idle_counter) = Returns w' true /\
    db w' = ∅ /\
    (forall t key, Redis.read t (db w') key = None) /\
    (forall key, RateLimiter.stored_hits w' key = Some 0).
Proof.
  apply (clearAll_empties_the_store (Examples.online [Reply 1] Examples.idle_counter) 1 []);
    reflexivity.
Defined.



(** A text with a fraction, an exponent or a key that is an array index
    is read as the value it is the text of; a text that is no JSON is
    read as null. *)
Example get_reads_numbers :
  let stored := fun text : string =>
    Examples.online [] {[ "k" := {| Redis.data := text; Redis.expires := None |} ]} in
  (exists w', get (Text "k") (stored "0.5") = Returns w' (VNum (Dec false "5" 0))) /\
  (exists w', get (Text "k") (stored "1e+21") = Returns w' (VNum (Int (10 ^ 21)))) /\
  (exists w', get (Text "k") (stored ("{" +:+ quote "1" +:+ ":2," +:+ quote "b" +:+ ":1}"))
              = Returns w' (VObj [("1", VNum (Int 2)); ("b", VNum (Int 1))])) /\
  (exists w', get (Text "k") (stored "Optics") = Returns w' VNull).
Proof. repeat split; eexists; vm_compute; reflexivity. Qed.

(** X7.  The operations on one key leave every other key of the store
    alone, in every world and whatever the store answers: [get] changes
    no entry at all, [set] and [delete] at most the entry of their key. *)
Theorem cache_operations_touch_one_key
  (w w' : world) (key : string) (data : value) (expiry : Z) :
  (forall r, get (Text key) w = Returns w' r -> db w' = db w) /\
  (forall r, set (Text key) data expiry w = Returns w' r ->
     forall k, k <> key -> db w' !! k = db w !! k) /\
  (forall r, delete (Text key) w = Returns w' r ->
     forall k, k <> key -> db w' !! k = db w !! k).
Proof.
  destruct w as [t d ans rc [[[[] st enc]|] []]]; repeat split; intros r;
    run_ops; try (by intros [= <- _]);
    try destruct (JSON_stringify data); try destruct (enc UndefinedValue);
    destruct ans as [|[dl|dl e|] rest]; run_ops;
    unfold Redis.GET, Redis.SETEX; rewrite ?DEL_some by done; run_ops;
    try destruct (expiry <=? 0); run_ops;
    try destruct (Redis.read _ _ key) as [en|]; run_ops;
    try destruct (nonempty _); run_ops; try destruct (JSON_parse _); run_ops;
    try done; intros [= <- _]; cbn; try done; intros k Hk;
    by rewrite ?lookup_insert_ne, ?lookup_delete_ne.
Qed.

Lemma cache_operations_touch_witness :
  exists w',
    set (Text "a") VNull CACHE_EXPIRY (Examples.online [Reply 1] Examples.idle_counter)
    = Returns w' true /\
    forall k, k <> "a" ->
      db w' !! k = db (Examples.online [Reply 1] Examples.idle_counter) !! k.
Proof.
  eexists. split; [reflexivity|].
  apply (proj1 (proj2 (cache_operations_touch_one_key
                         (Examples.online [Reply 1] Examples.idle_counter) _
                         "a" VNull CACHE_EXPIRY)) true).
  reflexivity.
Defined.

(** X8.  An entry lives for its expiry: after [set] of a JSON value
    with a positive expiry has been answered, whatever the key held
    before, every [get] the store receives before the send time plus
    the expiry returns the value, and every [get] it receives from then
    on returns null. *)
Theorem entry_lives_for_its_expiry
  (w : world) (key : string) (v : value) (expiry d1 : Z) (rest : list behaviour) :
  available w = true ->
  answers w = Reply d1 :: rest ->
  0 < expiry ->
  is_json v = true ->
  exists w1,
    set (Text key) v expiry w = Returns w1 true /\
    forall w2 d2 rest2,
      db w2 = db w1 -> available w2 = true -> answers w2 = Reply d2 :: rest2 ->
      (now w2 < now w + expiry * 1000 -> exists w3, get (Text key) w2 = Returns w3 v) /\
      (now w + expiry * 1000 <= now w2 -> exists w3, get (Text key) w2 = Returns w3 VNull).
Proof.
  intros Hav Hans Hexp (text & Htext & Hne & Hparse)%JSON_round_trip.
  open_available w Hav. run_ops. rewrite Htext. run_ops. unfold Redis.SETEX.
  destruct (Z.leb_spec expiry 0) as [|_]; [lia|]. run_ops.
  eexists. split; [reflexivity|].
  intros w2 d2 rest2 Hdb Hav2 Hans2. cbn in Hdb.
  assert (Hread : Redis.read (now w2) (db w2) key
                  = if now w2 <? now0 + expiry * 1000
                    then Some {| Redis.data := text;
                                 Redis.expires := Some (now0 + expiry * 1000) |}
                    else None).
  { rewrite Hdb. unfold Redis.read. by rewrite lookup_insert_eq. }
  clear Hdb.
  destruct (available_client w2 Hav2) as (c2 & Hc2 & Hopen2).
  destruct w2 as [now1 db1 ans1 rc1 [tc1 ini1]]; destruct c2 as [? ? ?];
    unfold available in Hav2; cbn in * |-; subst; cbn in * |-; subst.
  split; intros Ht; cbn in Ht; run_ops; unfold Redis.GET; rewrite Hread.
  - destruct (Z.ltb_spec now1 (now0 + expiry * 1000)) as [_|]; [|lia].
    run_ops. rewrite Hne, Hparse. by eexists.
  - destruct (Z.ltb_spec now1 (now0 + expiry * 1000)) as [|_]; [lia|].
    run_ops. by eexists.
Qed.

Lemma entry_lives_witness :
  exists w1,
    set (Text "k") (VNum (Int 7)) 2 (Examples.online [Reply 1] ∅) = Returns w1 true /\
    forall w2 d2 rest2,
      db w2 = db w1 -> available w2 = true -> answers w2 = Reply d2 :: rest2 ->
      (now w2 < now (Examples.online [Reply 1] ∅) + 2 * 1000 ->
       exists w3, get (Text "k") w2 = Returns w3 (VNum (Int 7))) /\
      (now (Examples.online [Reply 1] ∅) + 2 * 1000 <= now w2 ->
       exists w3, get (Text "k") w2 = Returns w3 VNull).
Proof.
  apply (entry_lives_for_its_expiry (Examples.online [Reply 1] ∅) "k" (VNum (Int 7)) 2 1 []);
    [reflexivity|reflexivity|lia|reflexivity].
Defined.

(** X9.  When [set] stores nothing: an expiry that is not positive is
    refused by the store, a value without a JSON text is refused by a
    client that takes only text, and a failed command is a failed
    command; in each case [set] returns false and the store is as it
    was. *)
Theorem set_stores_nothing
  (w : world) (key : string) (data : value) (expiry : Z) (rest : list behaviour) :
  available w = true ->
  (forall d, answers w = Reply d :: rest -> expiry <= 0 ->
     exists w', set (Text key) data expiry w = Returns w' false /\ db w' = db w) /\
  (forall c, this_client (cacheService w) = Some c ->
     JSON_stringify data = None -> encodeArg c UndefinedValue = None ->
     set (Text key) data expiry w = Returns w false) /\
  (forall d e, answers w = Fail d e :: rest ->
     exists w', set (Text key) data expiry w = Returns w' false /\ db w' = db w).
Proof.
  intros Hav. repeat split.
  - intros d Hans Hexp. open_available w Hav. run_ops.
    unfold Redis.SETEX. destruct (Z.leb_spec expiry 0) as [_|]; [|lia].
    destruct (JSON_stringify data); [|destruct (encodeArg0 _)]; run_ops;
      eexists; (split; [reflexivity|done]).
  - intros c' Hc' Hdata Henc. destruct w as [t d ans rc [tc ini]].
    cbn in Hc'. subst tc. destruct c' as [op st enc].
    unfold available in Hav. cbn in Hav, Henc. apply andb_prop in Hav as [-> ->].
    run_ops. rewrite Hdata. run_ops. rewrite Henc. run_ops.
    unfold set_clock. cbn. by rewrite Z.max_id.
  - intros d e Hans. open_available w Hav. run_ops.
    destruct (JSON_stringify data); [|destruct (encodeArg0 _)]; run_ops;
      eexists; (split; [reflexivity|done]).
Qed.

Lemma set_stores_nothing_witness :
  set (Text "k") VUndefined CACHE_EXPIRY (Examples.online [] ∅)
  = Returns (Examples.online [] ∅) false.
Proof.
  apply (proj1 (proj2 (set_stores_nothing (Examples.online [] ∅) "k" VUndefined
                         CACHE_EXPIRY [] eq_refl)) Examples.strict_client);
    reflexivity.
Defined.

Lemma keeps_ret {A} (a : A) : keeps (mret a).
Proof. by intros w. Qed.

Lemma keeps_throw {A} e : keeps (@throw A e).
Proof. by intros w. Qed.

Lemma keeps_bind {A B} (m : async A) (f : A -> async B) :
  keeps m -> (forall a, keeps (f a)) -> keeps (m ≫= f).
Proof.
  intros Hm Hf w. unfold mbind, async_bind. specialize (Hm w).
  destruct (m w) as [w1 a|w1 e|]; [|done|done].
  destruct Hm as [<- <-]. exact (Hf a w1).
Qed.

Lemma keeps_try {A} (m : async A) h :
  keeps m -> (forall e, keeps (h e)) -> keeps (try_catch m h).
Proof.
  intros Hm Hh w. unfold try_catch. specialize (Hm w).
  destruct (m w) as [w1 a|w1 e|]; [done| |done].
  destruct Hm as [<- <-]. exact (Hh e w1).
Qed.

Lemma keeps_await {A} (p : promise A) : keeps (await p).
Proof. intros w. by destruct p. Qed.

Lemma keeps_send {A} cmd : keeps (@send A cmd).
Proof.
  intros w. unfold send. destruct (next_answer w) as [[dl|dl e|] rest]; [|done|done].
  by destruct (cmd (now w) (db w)).
Qed.

Lemma keeps_send_with {A} c a cmd : keeps (@send_with A c a cmd).
Proof. unfold send_with. destruct (encode c a); [apply keeps_send|by intros w]. Qed.

Lemma keeps_setEx c key seconds v : keeps (client_setEx c key seconds v).
Proof.
  unfold client_setEx. destruct (encode c v); [apply keeps_send_with|by intros w].
Qed.

Lemma keeps_timeout ms msg : keeps (timeout_after ms msg).
Proof. by intros w. Qed.

Lemma keeps_resolve {A} (v : A) : keeps (Promise_resolve v).
Proof. by intros w. Qed.

Lemma keeps_race {A} (l : list (promise A)) : keeps (Promise_race l).
Proof. by intros w. Qed.

(** Behind the test of [isAvailable], [getClient] hands back the client
    the service holds. *)
Lemma keeps_guarded {A} (g : option client -> async A) (a : A) h :
  (forall c, keeps (g c)) -> (forall e, keeps (h e)) ->
  keeps (avail ← isAvailable;
         if negb avail then mret a else try_catch (getClient ≫= g) h).
Proof.
  intros Hg Hh w. unfold mbind at 1, async_bind at 1, isAvailable.
  destruct (available w) eqn:Hav; [|done]. cbn [negb].
  destruct (available_client w Hav) as (c & Hc & Hopen).
  assert (getClient w = Returns w (Some c)) as Hget.
  { unfold getClient. by rewrite Hc, Hopen. }
  unfold try_catch. rewrite (bind_returns _ _ _ _ _ Hget).
  exact (keeps_try (g (Some c)) h (Hg (Some c)) Hh w).
Qed.

Ltac keeps_steps :=
  repeat first
    [ apply keeps_ret | apply keeps_throw | apply keeps_await | apply keeps_send
    | apply keeps_send_with | apply keeps_setEx | apply keeps_timeout
    | apply keeps_resolve | apply keeps_race
    | apply keeps_bind; [|intros ?]
    | match goal with
      | |- keeps (match ?x with _ => _ end) => destruct x
      end ].

(** X10.  The five cache operations never change the fields of the
    service nor the client of [config/redis.js]: the branch of
    [getClient] that fetches a new client is not reached from them,
    because [isAvailable] has already asked for an open client. *)
Theorem cache_operations_keep_the_client
  (w w' : world) (key : arg) (data : value) (expiry : Z) (pattern : string) :
  let kept := cacheService w' = cacheService w /\ redisClient w' = redisClient w in
  (forall r, get key w = Returns w' r -> kept) /\
  (forall r, set key data expiry w = Returns w' r -> kept) /\
  (forall r, delete key w = Returns w' r -> kept) /\
  (forall r, invalidatePattern pattern w = Returns w' r -> kept) /\
  (forall r, clearAll w = Returns w' r -> kept).
Proof.
  assert (forall A (m : async A) r, keeps m -> m w = Returns w' r ->
            cacheService w' = cacheService w /\ redisClient w' = redisClient w) as Hkept.
  { intros A m r Hm Hr. specialize (Hm w). by rewrite Hr in Hm. }
  cbv zeta. split; [|split; [|split; [|split]]]; intros r; apply Hkept.
  - unfold get. apply keeps_guarded; [intros c|intros e]; keeps_steps.
  - unfold set. apply keeps_guarded; [intros c|intros e]; keeps_steps.
  - unfold delete. apply keeps_guarded; [intros c|intros e]; keeps_steps.
  - unfold invalidatePattern. apply keeps_guarded; [intros c|intros e]; keeps_steps.
  - unfold clearAll. apply keeps_guarded; [intros c|intros e]; keeps_steps.
Qed.

Lemma cache_operations_keep_witness :
  exists w',
    delete (Text "rl:203.0.113.7") (Examples.online [Reply 1] Examples.idle_counter)
    = Returns w' true /\
    cacheService w' = cacheService (Examples.online [Reply 1] Examples.idle_counter) /\
    redisClient w' = redisClient (Examples.online [Reply 1] Examples.idle_counter).
Proof.
  eexists. split; [reflexivity|].
  apply (proj1 (proj2 (proj2 (cache_operations_keep_the_client
                                (Examples.online [Reply 1] Examples.idle_counter) _
                                (Text "rl:203.0.113.7") VNull CACHE_EXPIRY "*"))) true).
  reflexivity.
Defined.

(** X11.  A service left with a closed client is repaired by the health
    check and by nothing else: while [config/redis.js] holds a new
    client that is ready and open, [get] still returns null without
    asking the store, and [healthCheck] installs the new client, pings
    with it and leaves the service available. *)
Theorem healthCheck_replaces_a_closed_client
  (w : world) (old new : client) (d : Z) (rest : list behaviour) :
  this_client (cacheService w) = Some old ->
  isOpen old = false ->
  initialized (cacheService w) = true ->
  redisClient w = Some new ->
  status new = "ready" ->
  isOpen new = true ->
  answers w = Reply d :: rest ->
  0 <= d < 3000 ->
  (forall key, get key w = Returns w VNull) /\
  exists w',
    healthCheck w = Returns w' (Healthy "PONG" true) /\
    this_client (cacheService w') = Some new /\
    available w' = true /\
    db w' = db w.
Proof.
  intros Hold Hclosed Hini Hnew Hready Hopen Hans Hd.
  destruct w as [t db0 ans rc [tc ini]]. cbn in * |-. subst.
  destruct old as [oo os oe], new as [no ns ne]. cbn in * |-. subst. split.
  - intros key. by run_ops.
  - run_ops. unfold set_clock, rejecting; cbn. split_tests; try lia.
    eexists. split; [reflexivity|]. by cbn.
Qed.

Lemma healthCheck_replaces_witness :
  let w := {| now := 1000; db := ∅; answers := [Reply 5];
              redisClient := Some Examples.strict_client;
              cacheService :=
                {| this_client :=
                     Some {| isOpen := false; status := "end"; encodeArg := fun _ => None |};
                   initialized := true |} |} in
  (forall key, get key w = Returns w VNull) /\
  exists w',
    healthCheck w = Returns w' (Healthy "PONG" true) /\
    this_client (cacheService w') = Some Examples.strict_client /\
    available w' = true /\
    db w' = db w.
Proof.
  intros w.
  apply (healthCheck_replaces_a_closed_client w
           {| isOpen := false; status := "end"; encodeArg := fun _ => None |}
           Examples.strict_client 5 []);
    try reflexivity; lia.
Defined.

(** The pattern of the chapter listings matches the keys that start
    with the path of the listing. *)
Lemma glob_star s : Redis.glob "*" s = true.
Proof. induction s as [|c s IH]; [done|]. exact IH. Qed.

Lemma prefix_cons a p c s :
  String.prefix (String a p) (String c s) = Ascii.eqb a c && String.prefix p s.
Proof.
  cbn [String.prefix]. destruct (Ascii.ascii_dec a c) as [->|Hne].
  - by rewrite Ascii.eqb_refl.
  - by apply Ascii.eqb_neq in Hne as ->.
Qed.

Lemma glob_chapters s :
  Redis.glob "/api/v1/chapters*" s = String.prefix "/api/v1/chapters" s.
Proof.
  do 16 (destruct s as [|? s]; [reflexivity|];
         rewrite prefix_cons; cbn [Redis.glob]; f_equal).
  by rewrite glob_star; destruct s.
Qed.

Lemma elem_of_matching pattern t (d : gmap string Redis.entry) k :
  k ∈ Redis.matching pattern t d
  <-> Redis.glob pattern k = true /\ is_Some (Redis.read t d k).
Proof.
  unfold Redis.matching. rewrite list_elem_of_filter. split; [by intros [? _]|].
  intros [Hg [e He]]. split; [by split; [|exists e]|].
  apply read_Some in He as [He _].
  apply list_elem_of_fmap. exists (k, e). split; [done|].
  by apply elem_of_map_to_list.
Qed.

Lemma read_later t t' (d : gmap string Redis.entry) k :
  t <= t' -> Redis.read t d k = None -> Redis.read t' d k = None.
Proof.
  unfold Redis.read, Redis.live. destruct (d !! k) as [[v [x|]]|]; cbn; try done.
  intros Ht. destruct (Z.ltb_spec t x); [done|]. intros _.
  by destruct (Z.ltb_spec t' x); [lia|].
Qed.

(** X12.  [invalidateChapterCache] removes the keys that start with
    [/api/v1/chapters] and no other: once the scan and the delete are
    answered, no such key is read any more, and every other key, the
    counters of the rate limiter and an entry stored under the text of
    a promise among them, is as it was. *)
Theorem invalidateChapterCache_removes_the_listing_keys
  (w : world) (d1 d2 : Z) (rest : list behaviour) :
  available w = true ->
  answers w = Reply d1 :: Reply d2 :: rest ->
  exists w',
    invalidateChapterCache w = Returns w' true /\
    (forall k t, String.prefix "/api/v1/chapters" k = true -> now w <= t ->
       Redis.read t (db w') k = None) /\
    (forall k, String.prefix "/api/v1/chapters" k = false -> db w' !! k = db w !! k).
Proof.
  intros Hav Hans.
  assert (Hlookup : forall d' : gmap string Redis.entry,
    (forall k, d' !! k = if decide (k ∈ Redis.matching "/api/v1/chapters*" (now w) (db w))
                         then None else db w !! k) ->
    (forall k t, String.prefix "/api/v1/chapters" k = true -> now w <= t ->
       Redis.read t d' k = None) /\
    (forall k, String.prefix "/api/v1/chapters" k = false -> d' !! k = db w !! k)).
  { intros d' Hd'. split.
    - intros k t Hk Ht.
      destruct (decide (k ∈ Redis.matching "/api/v1/chapters*" (now w) (db w))) as [Hin|Hout].
      + unfold Redis.read. rewrite Hd'. by rewrite decide_True.
      + apply (read_later (now w)); [done|].
        assert (Redis.read (now w) (db w) k = None) as Hnone.
        { destruct (Redis.read (now w) (db w) k) as [e|] eqn:He; [|done].
          destruct Hout. apply elem_of_matching. by rewrite glob_chapters. }
        unfold Redis.read in *. rewrite Hd'. by rewrite decide_False.
    - intros k Hk. rewrite Hd'. rewrite decide_False; [done|].
      intros [Hg _]%elem_of_matching. rewrite glob_chapters in Hg. congruence. }
  open_available w Hav. run_ops. unfold Redis.KEYS. run_ops.
  destruct (Redis.matching "/api/v1/chapters*" now0 db0) as [|k0 ks] eqn:Hkeys; run_ops.
  - eexists. split; [reflexivity|]. cbn. apply Hlookup.
    intros k. by rewrite decide_False by apply not_elem_of_nil.
  - change (0 <? S (length ks))%nat with true. run_ops.
    rewrite DEL_some by done. run_ops.
    eexists. split; [reflexivity|]. cbn [db now]. apply Hlookup.
    intros k. exact (del_keys_lookup (k0 :: ks) _ db0 k).
Qed.

Lemma invalidateChapterCache_witness :
  let stored :=
    {[ "/api/v1/chapters?page=1" := {| Redis.data := "{}"; Redis.expires := None |};
       "[object Promise]" := {| Redis.data := "{}"; Redis.expires := None |} ]} in
  exists w',
    invalidateChapterCache (Examples.online [Reply 1; Reply 1] stored) = Returns w' true /\
    (forall k t, String.prefix "/api/v1/chapters" k = true ->
       now (Examples.online [Reply 1; Reply 1] stored) <= t ->
       Redis.read t (db w') k = None) /\
    (forall k, String.prefix "/api/v1/chapters" k = false ->
       db w' !! k = db (Examples.online [Reply 1; Reply 1] stored) !! k).
Proof.
  intros stored.
  apply (invalidateChapterCache_removes_the_listing_keys
           (Examples.online [Reply 1; Reply 1] stored) 1 1 []); reflexivity.
Defined.

End CacheMore.

(** ** The store of the rate limiter: errors, counts and frames *)

Section LimiterMore.
Import RateLimiter.

Lemma try_total {A} (m : async A) h w w' e :
  (forall e1 w1 w2 e2, h e1 w1 <> Throws w2 e2) -> try_catch m h w <> Throws w' e.
Proof. intros Hh. unfold try_catch. destruct (m w); [done| |done]. apply Hh. Qed.

Lemma try_transparent {A} (m : async A) h w :
  (forall w' e, m w <> Throws w' e) -> try_catch m h w = m w.
Proof.
  intros Hm. unfold try_catch. destruct (m w) as [? ?|w' e|]; [done| |done].
  by destruct (Hm w' e).
Qed.

Lemma incr_never_throws key w w' e : incr key w <> Throws w' e.
Proof.
  unfold incr. destruct (getClient_connected w) as (r & Hr & _).
  rewrite (bind_returns _ _ _ _ _ Hr).
  destruct (usable r); [|done]. by apply try_total.
Qed.

Lemma decrement_never_throws key w w' e : decrement key w <> Throws w' e.
Proof.
  unfold decrement. destruct (getClient_connected w) as (r & Hr & _).
  rewrite (bind_returns _ _ _ _ _ Hr).
  destruct (usable r); [|done]. by apply try_total.
Qed.

Lemma resetKey_never_throws key w w' e : resetKey key w <> Throws w' e.
Proof.
  unfold resetKey. destruct (getClient_connected w) as (r & Hr & _).
  rewrite (bind_returns _ _ _ _ _ Hr).
  destruct (usable r); [|done]. by apply try_total.
Qed.

(** X13.  The store of the limiter never throws, whatever the state of
    the connection and the answers of the store, so the guards that
    [createRateLimiter] puts around it never run: the three methods of
    the configured store are the methods of [RedisStore]. *)
Theorem limiter_store_never_throws (o : options) (key : string) (w : world) :
  (forall w' e, incr key w <> Throws w' e) /\
  (forall w' e, decrement key w <> Throws w' e) /\
  (forall w' e, resetKey key w <> Throws w' e) /\
  store_incr (createRateLimiter o) key w = incr key w /\
  store_decrement (createRateLimiter o) key w = decrement key w /\
  store_resetKey (createRateLimiter o) key w = resetKey key w.
Proof.
  split; [intros; apply incr_never_throws|].
  split; [intros; apply decrement_never_throws|].
  split; [intros; apply resetKey_never_throws|].
  cbn. split; [|split]; apply try_transparent; intros w' e.
  - apply incr_never_throws.
  - apply decrement_never_throws.
  - apply resetKey_never_throws.
Qed.

Ltac run_store :=
  unfold incr, decrement, resetKey, getClient, getRedisClient, usable,
    client_incr, client_decr, client_expire, client_set, client_del, send_with,
    encode, send, next_answer, Date_now, try_catch, await, mbind, async_bind,
    mret, async_ret;
  cbn -[Redis.INCR Redis.DECR Redis.DEL Redis.EXPIRE Z.add Z.mul Z.max].

Ltac open_connected w c Hconn :=
  apply connected_Some in Hconn as (? & ? & ?);
  destruct w as [? ? ? ? ?]; destruct c as [? ? ?]; cbn in * |-; subst.

(** X14.  A hit on a counter that is there and not at 0 only counts: the
    store is sent one command, the count goes up by one and the expiry
    of the key stays as it was. *)
Theorem later_hit_counts_and_keeps_the_expiry
  (key : string) (w : world) (c : client) (e : Redis.entry) (z d1 : Z)
  (rest : list behaviour) :
  connected w = Some c ->
  answers w = Reply d1 :: rest ->
  0 <= d1 ->
  Redis.read (now w) (db w) (prefix +:+ key) = Some e ->
  Z_of_string (Redis.data e) = Some z ->
  z <> 0 ->
  Redis.INT64_MIN <= z + 1 <= Redis.INT64_MAX ->
  exists w',
    incr key w = Returns w' {| totalHits := z + 1; resetTime := now w + d1 + 60000 |} /\
    answers w' = rest /\
    db w' = <[prefix +:+ key := {| Redis.data := Z_to_string (z + 1);
                                   Redis.expires := Redis.expires e |}]> (db w).
Proof.
  intros Hconn Hans Hd Hread Hz Hnz Hrange.
  open_connected w c Hconn. run_store. unfold Redis.INCR.
  rewrite (incr_by_spec 1 _ _ _ z) by (by rewrite ?Hread).
  rewrite Hread. cbn -[Z.add Z.max].
  destruct (Z.eqb_spec (z + 1) 1) as [|_]; [lia|]. cbn -[Z.add Z.max].
  unfold set_clock; cbn -[Z.add Z.max]. rewrite Z.max_r by lia.
  eexists. split; [reflexivity|]. done.
Qed.

Lemma later_hit_witness :
  let w := Examples.online [Reply 2]
             {[ "rl:203.0.113.7" := {| Redis.data := "4"; Redis.expires := Some 61000 |} ]} in
  exists w',
    incr Examples.address w
    = Returns w' {| totalHits := 4 + 1; resetTime := now w + 2 + 60000 |} /\
    answers w' = [] /\
    db w' = <[prefix +:+ Examples.address :=
                {| Redis.data := Z_to_string (4 + 1);
                   Redis.expires :=
                     Redis.expires {| Redis.data := "4"; Redis.expires := Some 61000 |} |}]>
              (db w).
Proof.
  intros w.
  apply (later_hit_counts_and_keeps_the_expiry Examples.address w Examples.strict_client
           {| Redis.data := "4"; Redis.expires := Some 61000 |} 4 2 []);
    try reflexivity; try lia.
  unfold Redis.INT64_MIN, Redis.INT64_MAX. lia.
Defined.

(** X15.  [resetKey] removes the counter of its key when the store
    answers, so that the key counts from 0 again, and does nothing at
    all without a connection. *)
Theorem resetKey_removes_the_counter (key : string) (w : world) :
  (connected w = None -> resetKey key w = Returns w tt) /\
  (forall c d rest, connected w = Some c -> answers w = Reply d :: rest ->
     exists w',
       resetKey key w = Returns w' tt /\
       db w' = base.delete (prefix +:+ key) (db w) /\
       stored_hits w' key = Some 0) /\
  (forall c d e rest, connected w = Some c -> answers w = Fail d e :: rest ->
     exists w', resetKey key w = Returns w' tt /\ db w' = db w).
Proof.
  split; [|split].
  - intros Hdown. unfold resetKey.
    destruct (getClient_connected w) as (r & Hr & Hu).
    by rewrite (bind_returns _ _ _ _ _ Hr), Hu, Hdown.
  - intros c d rest Hconn Hans. open_connected w c Hconn. run_store.
    rewrite DEL_some by done. cbn [Redis.del_keys fst snd].
    eexists. split; [reflexivity|]. split; [done|].
    unfold stored_hits, Redis.read. cbn. by rewrite lookup_delete_eq.
  - intros c d e rest Hconn Hans. open_connected w c Hconn. run_store.
    eexists. split; [reflexivity|done].
Qed.

Lemma resetKey_witness :
  exists w',
    resetKey Examples.address (Examples.online [Reply 1] Examples.idle_counter)
    = Returns w' tt /\
    db w' = base.delete (prefix +:+ Examples.address)
              (db (Examples.online [Reply 1] Examples.idle_counter)) /\
    stored_hits w' Examples.address = Some 0.
Proof.
  apply (proj1 (proj2 (resetKey_removes_the_counter Examples.address
                         (Examples.online [Reply 1] Examples.idle_counter)))
           Examples.strict_client 1 []); reflexivity.
Defined.

(** X16.  A hit that is taken back leaves the counter as it was: after
    [incr] and [decrement] on a counter that stands at 1 or more and is
    still there when the decrement arrives, the count and the expiry of
    the key are what they were before the hit. *)
Theorem hit_taken_back_restores_the_counter
  (key : string) (w : world) (c : client) (e : Redis.entry) (z d1 d2 : Z)
  (rest : list behaviour) :
  connected w = Some c ->
  answers w = Reply d1 :: Reply d2 :: rest ->
  0 <= d1 -> 0 <= d2 ->
  Redis.read (now w) (db w) (prefix +:+ key) = Some e ->
  Redis.live (now w + d1) e = true ->
  Z_of_string (Redis.data e) = Some z ->
  1 <= z < Redis.INT64_MAX ->
  exists w1 h w2,
    incr key w = Returns w1 h /\
    totalHits h = z + 1 /\
    decrement key w1 = Returns w2 tt /\
    db w2 !! (prefix +:+ key)
    = Some {| Redis.data := Z_to_string z; Redis.expires := Redis.expires e |}.
Proof.
  intros Hconn Hans Hd1 Hd2 Hread Hlive Hz Hrange.
  open_connected w c Hconn. run_store. unfold Redis.INCR.
  rewrite (incr_by_spec 1 _ _ _ z)
    by (rewrite ?Hread; unfold Redis.INT64_MIN in *; (done || lia)).
  rewrite Hread. cbn -[Z.add Z.max].
  destruct (Z.eqb_spec (z + 1) 1) as [|_]; [lia|]. cbn -[Z.add Z.max].
  unfold set_clock; cbn -[Z.add Z.max]. rewrite Z.max_r by lia.
  eexists _, _, _. split; [reflexivity|]. split; [done|].
  run_store. unfold Redis.DECR.
  set (e1 := {| Redis.data := Z_to_string (z + 1); Redis.expires := Redis.expires e |}).
  assert (Hread1 : Redis.read (now0 + d1) (<[prefix +:+ key := e1]> db0) (prefix +:+ key)
                   = Some e1).
  { apply read_insert_live. exact Hlive. }
  rewrite (incr_by_spec (-1) _ _ _ (z + 1))
    by (rewrite ?Hread1; cbn; unfold Redis.INT64_MIN in *; (apply Z_of_to_string || lia)).
  rewrite Hread1. cbn -[Z.add Z.max].
  destruct (Z.ltb_spec (z + 1 + -1) 0) as [|_]; [lia|]. cbn -[Z.add Z.max].
  replace (z + 1 + -1) with z by lia.
  split; [reflexivity|]. cbn -[Z.add Z.max]. by rewrite lookup_insert_eq.
Qed.

Lemma hit_taken_back_witness :
  let w := Examples.online [Reply 2; Reply 3]
             {[ "rl:203.0.113.7" := {| Redis.data := "4"; Redis.expires := Some 61000 |} ]} in
  exists w1 h w2,
    incr Examples.address w = Returns w1 h /\
    totalHits h = 4 + 1 /\
    decrement Examples.address w1 = Returns w2 tt /\
    db w2 !! (prefix +:+ Examples.address)
    = Some {| Redis.data := Z_to_string 4;
              Redis.expires :=
                Redis.expires {| Redis.data := "4"; Redis.expires := Some 61000 |} |}.
Proof.
  intros w.
  apply (hit_taken_back_restores_the_counter Examples.address w Examples.strict_client
           {| Redis.data := "4"; Redis.expires := Some 61000 |} 4 2 3 []);
    try reflexivity; try lia.
  unfold Redis.INT64_MAX. lia.
Defined.

(** *** Frames *)

Lemma touches_ret {A} k0 (a : A) : touches_only k0 (mret a).
Proof. by intros w. Qed.

Lemma touches_bind {A B} k0 (m : async A) (f : A -> async B) :
  touches_only k0 m -> (forall a, touches_only k0 (f a)) -> touches_only k0 (m ≫= f).
Proof.
  intros Hm Hf w. unfold mbind, async_bind. specialize (Hm w).
  destruct (m w) as [w1 a|w1 e|]; [|done|done].
  specialize (Hf a w1). destruct (f a w1); [| |done];
    intros k Hk; rewrite <- (Hm k Hk); by apply Hf.
Qed.

Lemma touches_try {A} k0 (m : async A) h :
  touches_only k0 m -> (forall e, touches_only k0 (h e)) -> touches_only k0 (try_catch m h).
Proof.
  intros Hm Hh w. unfold try_catch. specialize (Hm w).
  destruct (m w) as [w1 a|w1 e|]; [done| |done].
  specialize (Hh e w1). destruct (h e w1); [| |done];
    intros k Hk; rewrite <- (Hm k Hk); by apply Hh.
Qed.

Lemma touches_await {A} k0 (p : promise A) : touches_only k0 (await p).
Proof. intros w. by destruct p. Qed.

Lemma touches_now k0 : touches_only k0 Date_now.
Proof. by intros w. Qed.

Lemma touches_getClient k0 : touches_only k0 getClient.
Proof. intros w. destruct (getClient_connected w) as (r & -> & _). done. Qed.

Lemma touches_send {A} k0 (cmd : Z -> gmap string Redis.entry -> Redis.reply A) :
  (forall t d k, k <> k0 -> (cmd t d).2 !! k = d !! k) -> touches_only k0 (send cmd).
Proof.
  intros Hcmd w. unfold send. destruct (next_answer w) as [[dl|dl e|] rest]; [|done|done].
  specialize (Hcmd (now w) (db w)). by destruct (cmd (now w) (db w)).
Qed.

Lemma incr_by_frame delta k0 t (d : gmap string Redis.entry) k :
  k <> k0 -> (Redis.incr_by delta k0 t d).2 !! k = d !! k.
Proof.
  intros Hk. unfold Redis.incr_by. destruct (Z_of_string _); [|done].
  destruct (_ || _); [done|]. cbn. by rewrite lookup_insert_ne.
Qed.

Lemma EXPIRE_frame seconds k0 t (d : gmap string Redis.entry) k :
  k <> k0 -> (Redis.EXPIRE k0 seconds t d).2 !! k = d !! k.
Proof.
  intros Hk. unfold Redis.EXPIRE. destruct (Redis.read t d k0); [|done].
  destruct (seconds <=? 0); cbn; by rewrite ?lookup_insert_ne, ?lookup_delete_ne.
Qed.

Lemma SET_frame v k0 t (d : gmap string Redis.entry) k :
  k <> k0 -> (Redis.SET k0 v t d).2 !! k = d !! k.
Proof. intros Hk. cbn. by rewrite lookup_insert_ne. Qed.

Lemma DEL_frame k0 t (d : gmap string Redis.entry) k :
  k <> k0 -> (Redis.DEL [k0] t d).2 !! k = d !! k.
Proof.
  intros Hk. rewrite DEL_some by done. cbn [snd]. rewrite del_keys_lookup.
  rewrite decide_False; [done|]. by intros ->%list_elem_of_singleton.
Qed.

Ltac touches_steps :=
  repeat first
    [ apply touches_ret | apply touches_await | apply touches_now
    | apply touches_getClient
    | apply touches_send; intros; first
        [ by apply incr_by_frame | by apply EXPIRE_frame | by apply SET_frame
        | by apply DEL_frame ]
    | apply touches_bind; [|intros ?]
    | apply touches_try; [|intros ?]
    | match goal with
      | |- touches_only _ (match ?x with _ => _ end) => destruct x
      end ].

(** X17.  The store of the limiter works on the key [rl:<key>] and on
    no other: whatever the store answers, [incr], [decrement] and
    [resetKey] leave every other key, the entries of the cache among
    them, as they were. *)
Theorem limiter_store_touches_one_key (key : string) (w w' : world) (k : string) :
  k <> prefix +:+ key ->
  (forall r, incr key w = Returns w' r -> db w' !! k = db w !! k) /\
  (forall r, decrement key w = Returns w' r -> db w' !! k = db w !! k) /\
  (forall r, resetKey key w = Returns w' r -> db w' !! k = db w !! k).
Proof.
  intros Hk.
  assert (forall A (m : async A) r, touches_only (prefix +:+ key) m -> m w = Returns w' r ->
            db w' !! k = db w !! k) as Hframe.
  { intros A m r Hm Hr. specialize (Hm w). rewrite Hr in Hm. by apply Hm. }
  split; [|split]; intros r; apply Hframe.
  - unfold incr, client_incr, client_expire, Redis.INCR. touches_steps.
  - unfold decrement, client_decr, client_set, Redis.DECR. touches_steps.
  - unfold resetKey, client_del, send_with, encode. touches_steps.
Qed.

Lemma limiter_store_touches_witness :
  let w := Examples.online [Reply 1; Reply 1] Examples.idle_counter in
  let w' := {| now := 1002;
               db := {[ "rl:203.0.113.7" :=
                          {| Redis.data := "1"; Redis.expires := Some 61001 |} ]};
               answers := [];
               redisClient := redisClient w;
               cacheService := cacheService w |} in
  incr Examples.address w = Returns w' {| totalHits := 1; resetTime := 61002 |} /\
  db w' !! "/api/v1/chapters" = db w !! "/api/v1/chapters".
Proof.
  intros w w'. split; [vm_compute; reflexivity|].
  apply (proj1 (limiter_store_touches_one_key Examples.address w w'
                  "/api/v1/chapters" ltac:(discriminate))
           {| totalHits := 1; resetTime := 61002 |}).
  vm_compute. reflexivity.
Defined.

(** X18.  The [retryAfter] a rejected request is told, in seconds,
    covers the window and exceeds it by less than a second, for every
    window length. *)
Theorem retryAfter_covers_the_window (o : options) :
  let l := createRateLimiter o in
  1000 * (retryAfter (reject_with l) - 1) < windowMs l <= 1000 * retryAfter (reject_with l).
Proof.
  cbn. unfold ceil_div. set (a := default (60 * 1000) (opt_windowMs o)).
  pose proof (Z.div_mod (- a) 1000 ltac:(lia)).
  pose proof (Z.mod_pos_bound (- a) 1000 ltac:(lia)). lia.
Qed.

End LimiterMore.

(** ** The sanitising middleware *)

Section SanitizerFacts.
Import Sanitizer.

Lemma sanitize_typed v : (if typeof_object v then sanitize v else v) = sanitize v.
Proof. by destruct v. Qed.

Lemma sanitize_is_object l : VObj (props_of (sanitize (VObj l))) = sanitize (VObj l).
Proof. reflexivity. Qed.

Lemma sanitize_cons key v l :
  sanitize (VObj ((key, v) :: l))
  = if dollar_key key then sanitize (VObj l)
    else VObj ((key, sanitize v) :: props_of (sanitize (VObj l))).
Proof.
  change (sanitize (VObj ((key, v) :: l)))
    with (VObj (if dollar_key key then props_of (sanitize (VObj l))
                else (key, if typeof_object v then sanitize v else v)
                       :: props_of (sanitize (VObj l)))).
  rewrite sanitize_typed. by destruct (dollar_key key).
Qed.

Lemma dollar_free_cons key x l :
  dollar_free (VObj ((key, x) :: l))
  = negb (dollar_key key) && dollar_free x && dollar_free (VObj l).
Proof. reflexivity. Qed.

Lemma sanitize_dollar_free v : dollar_free (sanitize v) = true.
Proof.
  induction v as [| | | | | |props IH] using value_induction; try reflexivity.
  induction IH as [|[key x] l Hx _ IHl]; [reflexivity|].
  rewrite sanitize_cons. destruct (dollar_key key) eqn:Hkey; [exact IHl|].
  rewrite dollar_free_cons, Hkey. cbn in Hx. rewrite Hx.
  by rewrite sanitize_is_object.
Qed.

Lemma sanitize_fixes_dollar_free v : dollar_free v = true -> sanitize v = v.
Proof.
  induction v as [| | | | | |props IH] using value_induction; try reflexivity.
  induction IH as [|[key x] l Hx _ IHl]; [reflexivity|].
  rewrite dollar_free_cons, sanitize_cons.
  intros [[Hkey%negb_true_iff Hfree]%andb_prop Hrest]%andb_prop.
  rewrite Hkey. cbn in Hx. by rewrite Hx, IHl.
Qed.

(** X19.  What [sanitize] leaves has no key that starts with a dollar
    in any object reached through properties; a value that has none is
    left as it is, and no other value is; sanitizing twice is
    sanitizing once. *)
Theorem sanitize_removes_the_dollar_keys (v : value) :
  dollar_free (sanitize v) = true /\
  (sanitize v = v <-> dollar_free v = true) /\
  sanitize (sanitize v) = sanitize v.
Proof.
  split; [apply sanitize_dollar_free|]. split.
  - split; [|apply sanitize_fixes_dollar_free].
    intros <-. apply sanitize_dollar_free.
  - apply sanitize_fixes_dollar_free, sanitize_dollar_free.
Qed.

Lemma sanitized_lookup o key :
  prop_get (props_of (sanitize (VObj o))) key
  = if dollar_key key then VUndefined else sanitize (prop_get o key).
Proof.
  induction o as [|[k x] o IH]; [by destruct (dollar_key key)|].
  rewrite sanitize_cons. destruct (dollar_key k) eqn:Hk.
  - rewrite IH. cbn [prop_get]. destruct (String.eqb_spec k key) as [->|]; [|done].
    by rewrite Hk.
  - cbn [props_of prop_get]. destruct (String.eqb_spec k key) as [->|]; [|exact IH].
    by rewrite Hk.
Qed.

(** X20.  Reading a property after [sanitize]: a key that starts with a
    dollar reads as undefined, any other key reads as the sanitized
    value it had.  An array is never entered: an array under a key
    that stays is handed on as it is, with every dollar key inside
    it. *)
Theorem sanitize_reads (o : object) (key : string) :
  prop_get (props_of (sanitize (VObj o))) key
  = (if dollar_key key then VUndefined else sanitize (prop_get o key)) /\
  (forall items, dollar_key key = false -> prop_get o key = VArr items ->
     prop_get (props_of (sanitize (VObj o))) key = VArr items).
Proof.
  split; [apply sanitized_lookup|].
  intros items Hkey Hget. by rewrite sanitized_lookup, Hkey, Hget.
Qed.

Lemma sanitize_reads_witness :
  let o := [("ids", VArr [VObj [("$ne", VNull)]]); ("$where", VStr "1")] in
  prop_get (props_of (sanitize (VObj o))) "ids" = VArr [VObj [("$ne", VNull)]].
Proof.
  intros o.
  apply (proj2 (sanitize_reads o "ids") [VObj [("$ne", VNull)]]); reflexivity.
Defined.

End SanitizerFacts.

(** ** Validation of an upload *)

Section ValidationFacts.
Import Validation.
Variable validateChapter : value -> list string + value.

Local Abbreviation nothing := {| valid := []; invalid := [] |}.
Local Abbreviation each := (forEach_from validateChapter).

(** The loop only appends to what it has collected. *)
Lemma forEach_from_app i cs res :
  each i cs res
  = {| valid := valid res ++ valid (each i cs nothing);
       invalid := invalid res ++ invalid (each i cs nothing) |}.
Proof.
  revert i res. induction cs as [|c cs IH]; intros i res.
  - cbn. rewrite !app_nil_r. by destruct res.
  - cbn [forEach_from]. rewrite IH. rewrite (IH (S i) (match validateChapter c with
                                                       | inl _ => _ | inr _ => _ end)).
    destruct (validateChapter c) as [errs|v]; cbn; by rewrite <- !app_assoc.
Qed.

Lemma forEach_from_cons i c cs :
  each i (c :: cs) nothing
  = match validateChapter c with
    | inl errs =>
        {| valid := valid (each (S i) cs nothing);
           invalid := {| index := i; chapter := c; errors := errs |}
                      :: invalid (each (S i) cs nothing) |}
    | inr v =>
        {| valid := v :: valid (each (S i) cs nothing);
           invalid := invalid (each (S i) cs nothing) |}
    end.
Proof.
  cbn [forEach_from]. rewrite forEach_from_app.
  by destruct (validateChapter c).
Qed.

Lemma forEach_from_length i cs :
  (length (valid (each i cs nothing)) + length (invalid (each i cs nothing))
   = length cs)%nat.
Proof.
  revert i. induction cs as [|c cs IH]; intros i; [done|].
  rewrite forEach_from_cons. specialize (IH (S i)).
  destruct (validateChapter c); cbn; lia.
Qed.

Lemma forEach_from_invalid i cs e :
  e ∈ invalid (each i cs nothing)
  <-> exists j, index e = (i + j)%nat /\ cs !! j = Some (chapter e)
                /\ validateChapter (chapter e) = inl (errors e).
Proof.
  revert i. induction cs as [|c cs IH]; intros i.
  - cbn. split; [by intros ?%elem_of_nil|by intros (j & _ & ? & _)].
  - rewrite forEach_from_cons. split.
    + intros He. destruct (validateChapter c) as [errs|v] eqn:Hc; cbn in He.
      * apply elem_of_cons in He as [->|He].
        -- exists 0%nat. cbn. split; [lia|done].
        -- apply IH in He as (j & Hj & Hcs & Hv). exists (S j). split; [lia|done].
      * apply IH in He as (j & Hj & Hcs & Hv). exists (S j). split; [lia|done].
    + intros ([|j] & Hj & Hcs & Hv).
      * cbn in Hcs. injection Hcs as ->. rewrite Hv. cbn. rewrite Nat.add_0_r in Hj.
        destruct e as [ie ce ee]. cbn in *. subst. by left.
      * assert (e ∈ invalid (each (S i) cs nothing)) as He.
        { apply IH. exists j. split; [lia|done]. }
        destruct (validateChapter c); cbn; [by right|done].
Qed.

Lemma forEach_from_valid i cs v :
  v ∈ valid (each i cs nothing)
  <-> exists c, c ∈ cs /\ validateChapter c = inr v.
Proof.
  revert i. induction cs as [|c cs IH]; intros i.
  - cbn. split; [by intros ?%elem_of_nil|by intros (c & ?%elem_of_nil & _)].
  - rewrite forEach_from_cons. split.
    + intros Hv. destruct (validateChapter c) as [errs|v'] eqn:Hc; cbn in Hv.
      * apply IH in Hv as (c' & Hin & Hc'). exists c'. split; [by right|done].
      * apply elem_of_cons in Hv as [->|Hv].
        -- exists c. split; [by left|done].
        -- apply IH in Hv as (c' & Hin & Hc'). exists c'. split; [by right|done].
    + intros (c' & [->|Hin]%elem_of_cons & Hc').
      * rewrite Hc'. by left.
      * assert (v ∈ valid (each (S i) cs nothing)) as Hv by (apply IH; by exists c').
        destruct (validateChapter c); cbn; [done|by right].
Qed.

Lemma forEach_from_sorted i cs :
  StronglySorted lt (index <$> invalid (each i cs nothing)).
Proof.
  revert i. induction cs as [|c cs IH]; intros i; [constructor|].
  rewrite forEach_from_cons. destruct (validateChapter c); cbn; [|apply IH].
  constructor; [apply IH|].
  apply Forall_forall. intros n (e & -> & He)%list_elem_of_fmap.
  apply forEach_from_invalid in He as (j & -> & _). lia.
Qed.

(** X21.  [validateChapters] accounts for every chapter once: the valid
    and the invalid entries together are as many as the chapters; an
    entry is in [invalid] exactly when its index is the position of its
    chapter in the upload and its errors are those of that chapter; the
    invalid entries come in the order of the upload; and [valid] holds
    exactly the values of the chapters that pass. *)
Theorem validateChapters_accounts_for_every_chapter (chapters : list value) :
  let res := validateChapters validateChapter chapters in
  (length (valid res) + length (invalid res) = length chapters)%nat /\
  (forall e, e ∈ invalid res
     <-> chapters !! index e = Some (chapter e)
         /\ validateChapter (chapter e) = inl (errors e)) /\
  StronglySorted lt (index <$> invalid res) /\
  (forall v, v ∈ valid res <-> exists c, c ∈ chapters /\ validateChapter c = inr v).
Proof.
  cbv zeta. unfold validateChapters. split; [apply forEach_from_length|].
  split; [|split; [apply forEach_from_sorted|apply forEach_from_valid]].
  intros e. rewrite forEach_from_invalid. split.
  - by intros (j & -> & ? & ?).
  - intros [? ?]. by exists (index e).
Qed.

End ValidationFacts.

(** ** The upload *)

Section UploadFacts.
Import Validation Upload ChapterController.
Variable JSON_parse_file : string -> option value.
Variable validateChapter : value -> list string + value.
Variable insertMany : list value -> async (bulkError + list value).

Local Abbreviation upload := (uploadChapters JSON_parse_file validateChapter insertMany).
Local Abbreviation data_of := (chaptersData JSON_parse_file).
Local Abbreviation validated := (validateChapters validateChapter).

Lemma member_spec x k w :
  member x k w
  = if readable x then Returns w (prop_get (fields x) k) else Throws w "TypeError".
Proof. destruct x; reflexivity. Qed.

Lemma uploaded_entry_spec :
  exists g, forall chapter w,
    uploaded_entry chapter w
    = if readable chapter then Returns w (g chapter) else Throws w "TypeError".
Proof.
  exists (fun chapter =>
            VObj [("id", prop_get (fields chapter) "_id");
                  ("subject", prop_get (fields chapter) "subject");
                  ("chapter", prop_get (fields chapter) "chapter");
                  ("class", prop_get (fields chapter) "class")]).
  intros chapter w. destruct chapter; reflexivity.
Qed.

Lemma failed_entry_spec :
  exists g, forall failed w,
    failed_entry failed w
    = if readable (chapter failed) then Returns w (g failed) else Throws w "TypeError".
Proof.
  exists (fun failed =>
            VObj [("index", VNum (Int (Z.of_nat (index failed))));
                  ("chapter",
                   VObj [("subject", prop_get (fields (chapter failed)) "subject");
                         ("chapter", prop_get (fields (chapter failed)) "chapter");
                         ("class", prop_get (fields (chapter failed)) "class")]);
                  ("errors", VArr (map VStr (errors failed)))]).
  intros [i chapter errs] w. destruct chapter; reflexivity.
Qed.

Lemma map_each_spec {A B} (f : A -> async B) (g : A -> B) (r : A -> bool) l w :
  (forall x w, f x w = if r x then Returns w (g x) else Throws w "TypeError") ->
  map_each f l w = if forallb r l then Returns w (map g l) else Throws w "TypeError".
Proof.
  intros Hf. induction l as [|x l IH]; [done|].
  cbn [map_each forallb map]. unfold mbind, async_bind in *. rewrite Hf.
  destruct (r x); [|done]. cbn. rewrite IH. by destruct (forallb r l).
Qed.

Lemma insert_valid_never_throws res w w' e :
  insert_valid insertMany res w <> Throws w' e.
Proof.
  unfold insert_valid. destruct (0 <? length (valid res))%nat; [|done].
  apply try_swallows.
Qed.

(** What the handler answers once the two arrays are there. *)
Lemma upload_after_insert :
  exists g1 g2, forall req first others w w1 uploadedChapters failedChapters,
    data_of req = inr (VArr (first :: others)) ->
    insert_valid insertMany (validated (first :: others)) w
    = Returns w1 (uploadedChapters, failedChapters) ->
    upload req w
    = match (if (0 <? length uploadedChapters)%nat
             then CacheService.invalidateChapterCache
             else mret false) w1 with
      | Returns w2 _ =>
          Returns w2
            (if forallb readable uploadedChapters
                && forallb (fun failed => readable (chapter failed)) failedChapters
             then
               Json 201
                 [VObj [("success", VBool true);
                        ("message",
                         VStr (Z_to_string (Z.of_nat (length uploadedChapters))
                               +:+ " chapters uploaded successfully"));
                        ("data",
                         VObj [("uploadedCount",
                                VNum (Int (Z.of_nat (length uploadedChapters))));
                               ("failedCount",
                                VNum (Int (Z.of_nat (length failedChapters))));
                               ("uploadedChapters", VArr (map g1 uploadedChapters));
                               ("failedChapters", VArr (map g2 failedChapters))])]]
             else Next "TypeError")
      | Throws w2 e => Returns w2 (Next e)
      | Blocks => Blocks
      end.
Proof.
  destruct uploaded_entry_spec as (g1 & Hg1). destruct failed_entry_spec as (g2 & Hg2).
  exists g1, g2. intros req first others w w1 up failed Hdata Hins.
  unfold uploadChapters, try_catch. rewrite Hdata.
  rewrite (bind_returns _ _ _ _ _ Hins). cbn [fst snd].
  unfold mbind at 1, async_bind at 1.
  destruct ((if (0 <? length up)%nat
             then CacheService.invalidateChapterCache else mret false) w1)
    as [w2 b|w2 e|]; [|done|done].
  unfold mbind at 1, async_bind at 1.
  rewrite (map_each_spec uploaded_entry g1 readable up w2 Hg1).
  destruct (forallb readable up); [|done]. cbn [andb].
  unfold mbind at 1, async_bind at 1.
  rewrite (map_each_spec failed_entry g2 (fun failed => readable (chapter failed))
             failed w2 Hg2).
  by destruct (forallb _ failed).
Qed.

(** X22.  The upload is answered with status 400 exactly when there is
    no array of at least one chapter to work on: a file that does not
    parse, no file and a body that is no array, or data that is no
    array or an empty one.  Nothing is validated, inserted or
    invalidated then. *)
Theorem upload_rejects_what_is_no_array (req : request) (w : world) :
  ((forall first others, data_of req <> inr (VArr (first :: others))) ->
   exists message, upload req w = Returns w (bad_request message)) /\
  (forall w' body, upload req w = Returns w' (Json 400 body) ->
   forall first others, data_of req <> inr (VArr (first :: others))).
Proof.
  split.
  - intros Hbad. unfold uploadChapters, try_catch.
    destruct (data_of req) as [message|[| | | | |[|first others]|]] eqn:Hdata;
      try (by eexists). by destruct (Hbad first others).
  - intros w' body Hrun first others Hdata.
    destruct upload_after_insert as (g1 & g2 & Hafter).
    destruct (insert_valid insertMany (validated (first :: others)) w)
      as [w1 [up failed]|w1 e|] eqn:Hins.
    + rewrite (Hafter _ _ _ _ _ _ _ Hdata Hins) in Hrun.
      destruct ((if (0 <? length up)%nat
                 then CacheService.invalidateChapterCache else mret false) w1);
        [|done|done].
      by destruct (_ && _).
    + by apply insert_valid_never_throws in Hins.
    + unfold uploadChapters, try_catch in Hrun. rewrite Hdata in Hrun.
      unfold mbind at 1, async_bind at 1 in Hrun. by rewrite Hins in Hrun.
Qed.

Lemma all_invalid_results i cs :
  (forall c, c ∈ cs -> exists errs, validateChapter c = inl errs) ->
  valid (forEach_from validateChapter i cs {| valid := []; invalid := [] |}) = [] /\
  chapter <$> invalid (forEach_from validateChapter i cs {| valid := []; invalid := [] |})
  = cs.
Proof.
  revert i. induction cs as [|c cs IH]; intros i Hall; [done|].
  rewrite forEach_from_cons.
  destruct (Hall c) as (errs & ->); [by left|].
  destruct (IH (S i)) as [Hv Hi]; [intros c' Hc'; apply Hall; by right|].
  cbn. by rewrite Hv, Hi.
Qed.

(** X23.  An upload in which every chapter fails validation inserts
    nothing and leaves the cache alone; it is answered 201 with
    [success: true], no chapter uploaded and every chapter failed,
    unless one of the chapters is null, in which case building the
    answer throws and the error goes to [next]. *)
Theorem upload_of_invalid_chapters_only
  (req : request) (w : world) (first : value) (others : list value) :
  data_of req = inr (VArr (first :: others)) ->
  (forall c, c ∈ first :: others -> exists errs, validateChapter c = inl errs) ->
  (forallb readable (first :: others) = true ->
   exists body,
     upload req w = Returns w (Json 201 [VObj body]) /\
     prop_get body "success" = VBool true /\
     prop_get (fields (prop_get body "data")) "uploadedCount" = VNum (Int 0) /\
     prop_get (fields (prop_get body "data")) "failedCount"
     = VNum (Int (Z.of_nat (length (first :: others))))) /\
  (forallb readable (first :: others) = false ->
   upload req w = Returns w (Next "TypeError")).
Proof.
  intros Hdata Hall.
  destruct (all_invalid_results 0 (first :: others) Hall) as [Hvalid Hchapters].
  fold (validated (first :: others)) in Hvalid, Hchapters.
  assert (Hins : insert_valid insertMany (validated (first :: others)) w
                 = Returns w ([], invalid (validated (first :: others)))).
  { unfold insert_valid. by rewrite Hvalid. }
  assert (Hlen : length (invalid (validated (first :: others)))
                 = length (first :: others)).
  { by rewrite <- Hchapters at 2; rewrite length_fmap. }
  assert (Hread : forallb (fun failed => readable (chapter failed))
                    (invalid (validated (first :: others)))
                  = forallb readable (first :: others)).
  { rewrite <- Hchapters at 2. generalize (invalid (validated (first :: others))).
    intros l. induction l as [|e l IH]; [done|]. cbn. by rewrite IH. }
  destruct upload_after_insert as (g1 & g2 & Hafter).
  rewrite (Hafter _ _ _ _ _ _ _ Hdata Hins).
  change (forallb readable []) with true. change (0 <? length (@nil value))%nat with false.
  cbn [andb]. unfold mret, async_ret. rewrite Hread, Hlen.
  split; intros ->; [|done].
  eexists. split; [reflexivity|]. by cbn.
Qed.

(** X24.  After an insert that saved at least one document the upload
    runs [invalidateChapterCache] and answers only when that has
    returned, from the world it leaves: if the invalidation never
    returns, the upload is never answered although the chapters are
    saved.  After an insert that saved nothing the cache is left
    alone. *)
Theorem upload_answers_after_the_invalidation
  (req : request) (w w1 : world) (first : value) (others : list value)
  (docs : list value) :
  data_of req = inr (VArr (first :: others)) ->
  valid (validated (first :: others)) <> [] ->
  insertMany (valid (validated (first :: others))) w = Returns w1 (inr docs) ->
  forallb readable docs = true ->
  forallb (fun failed => readable (chapter failed))
    (invalid (validated (first :: others))) = true ->
  let answered w2 :=
    exists body,
      upload req w = Returns w2 (Json 201 [VObj body]) /\
      prop_get (fields (prop_get body "data")) "uploadedCount"
      = VNum (Int (Z.of_nat (length docs))) /\
      prop_get (fields (prop_get body "data")) "failedCount"
      = VNum (Int (Z.of_nat (length (invalid (validated (first :: others)))))) in
  (docs = [] -> answered w1) /\
  (docs <> [] -> CacheService.invalidateChapterCache w1 = Blocks -> upload req w = Blocks) /\
  (docs <> [] ->
   forall w2 b, CacheService.invalidateChapterCache w1 = Returns w2 b -> answered w2).
Proof.
  intros Hdata Hvalid Hsaved Hdocs Hfailed answered. subst answered.
  assert (Hins : insert_valid insertMany (validated (first :: others)) w
                 = Returns w1 (docs, invalid (validated (first :: others)))).
  { unfold insert_valid. rewrite (nonempty_length _ Hvalid).
    unfold try_catch. by rewrite (bind_returns _ _ _ _ _ Hsaved). }
  destruct upload_after_insert as (g1 & g2 & Hafter).
  rewrite (Hafter _ _ _ _ _ _ _ Hdata Hins), Hdocs, Hfailed. cbn [andb].
  split; [|split].
  - intros ->. cbn [length Nat.ltb Nat.leb]. unfold mret, async_ret.
    eexists. split; [reflexivity|]. by cbn.
  - intros Hsome Hblocks. by rewrite (nonempty_length _ Hsome), Hblocks.
  - intros Hsome w2 b Hruns. rewrite (nonempty_length _ Hsome), Hruns.
    eexists. split; [reflexivity|]. by cbn.
Qed.

End UploadFacts.

(** *** The upload at concrete requests *)

Section UploadAtWork.
Import Validation Upload ChapterController.

Lemma upload_rejects_witness :
  exists message,
    uploadChapters (fun _ => None) (fun c => inr c) (fun docs => mret (inr docs))
      {| file := Some "{"; body := VUndefined |} Examples.offline
    = Returns Examples.offline (bad_request message).
Proof.
  apply (proj1 (upload_rejects_what_is_no_array
                  (fun _ => None) (fun c => inr c) (fun docs => mret (inr docs))
                  {| file := Some "{"; body := VUndefined |} Examples.offline)).
  discriminate.
Defined.

Lemma upload_of_invalid_witness :
  let req := {| file := None; body := VArr [VStr "algebra"] |} in
  exists body,
    uploadChapters (fun _ => None) (fun _ => inl ["Subject is required"])
      (fun docs => mret (inr docs)) req Examples.offline
    = Returns Examples.offline (Json 201 [VObj body]) /\
    prop_get body "success" = VBool true /\
    prop_get (fields (prop_get body "data")) "uploadedCount" = VNum (Int 0) /\
    prop_get (fields (prop_get body "data")) "failedCount"
    = VNum (Int (Z.of_nat (length [VStr "algebra"]))).
Proof.
  intros req.
  apply (proj1 (upload_of_invalid_chapters_only
                  (fun _ => None) (fun _ => inl ["Subject is required"])
                  (fun docs => mret (inr docs)) req Examples.offline
                  (VStr "algebra") [] eq_refl
                  (fun c _ => ex_intro _ ["Subject is required"] eq_refl))).
  reflexivity.
Defined.

Lemma upload_answers_after_witness :
  let req := {| file := None; body := VArr [VObj [("subject", VStr "algebra")]] |} in
  uploadChapters (fun _ => None) (fun c => inr c) (fun docs => mret (inr docs))
    req (Examples.online [Hang] ∅)
  = Blocks.
Proof.
  intros req.
  apply (proj1 (proj2 (upload_answers_after_the_invalidation
                         (fun _ => None) (fun c => inr c) (fun docs => mret (inr docs))
                         req (Examples.online [Hang] ∅) (Examples.online [Hang] ∅)
                         (VObj [("subject", VStr "algebra")]) []
                         [VObj [("subject", VStr "algebra")]]
                         eq_refl ltac:(discriminate) eq_refl eq_refl eq_refl)));
    [discriminate|reflexivity].
Defined.

End UploadAtWork.

(** ** The listing handler and the cache *)

Section ControllerMore.
Import ChapterController.
Variable validateQuery : object -> list string + object.
Variable listChapters : object -> async value.

Local Abbreviation handler := (getChapters validateQuery listChapters).
Local Abbreviation key := (Exotic PromiseObject).

Ltac run_cache_ops :=
  unfold CacheService.get, CacheService.set, CacheService.isAvailable,
    CacheService.available, CacheService.getClient, client_get, client_setEx,
    send_with, CacheService.stringify_arg, encode, send, next_answer, timeout_after,
    Promise_resolve, Promise_race, try_catch, await, throw, mbind, async_bind, mret,
    async_ret;
  repeat (progress (cbn -[race_from Nat.ltb Z.add Z.mul Z.max];
                    rewrite ?race_plain_value)).

(** X25.  With a client that refuses a key that is not text, the
    listing handler never uses the cache: the lookup finds nothing and
    the write stores nothing, no command reaches the store, and every
    request is answered from the record store. *)
Theorem getChapters_never_caches_with_a_strict_client
  (query validated : object) (w w2 : world) (c : client) (responseData : value) :
  validateQuery query = inr validated ->
  CacheService.available w = true ->
  this_client (cacheService w) = Some c ->
  encodeArg c PromiseObject = None ->
  listChapters validated w = Returns w2 responseData ->
  cacheService w2 = cacheService w ->
  CacheService.get key w = Returns w VNull /\
  CacheService.set key responseData CacheService.CACHE_EXPIRY w2 = Returns w2 false /\
  handler query w = Returns w2 (Json 200 [responseData]).
Proof.
  intros Hq Hav Hc Henc Hlist Hsame.
  assert (Hget : forall w0, cacheService w0 = cacheService w ->
                   CacheService.get key w0 = Returns w0 VNull).
  { intros [t d ans rc cs] Hcs. destruct w as [t' d' ans' rc' [tc ini]].
    cbn in * |-. subst. destruct c as [op st enc].
    unfold CacheService.available in Hav. cbn in Hav, Henc.
    apply andb_prop in Hav as [-> ->].
    run_cache_ops. rewrite Henc. run_cache_ops.
    unfold set_clock. cbn. by rewrite Z.max_id. }
  assert (Hset : CacheService.set key responseData CacheService.CACHE_EXPIRY w2
                 = Returns w2 false).
  { destruct w2 as [t d ans rc cs]. destruct w as [t' d' ans' rc' [tc ini]].
    cbn in * |-. subst. destruct c as [op st enc].
    unfold CacheService.available in Hav. cbn in Hav, Henc.
    apply andb_prop in Hav as [-> ->].
    run_cache_ops. destruct (JSON_stringify responseData); run_cache_ops;
      [|destruct (enc UndefinedValue); run_cache_ops];
      rewrite ?Henc; run_cache_ops; unfold set_clock; cbn; by rewrite Z.max_id. }
  split; [by apply Hget|]. split; [exact Hset|].
  rewrite (getChapters_steps validateQuery listChapters _ _ _ Hq), (Hget w eq_refl). cbn [truthy].
  by rewrite Hlist, Hset.
Qed.

(** X26.  With a client that converts the key to text, one listing
    that was answered from the record store spoils every later one:
    the response is stored under the text of the promise, whatever the
    query, and a request for any other query within the hour finds it
    and fails when it spreads the cached object into the arguments of
    [res.json]. *)
Theorem cached_listing_fails_the_next_request
  (q1 q2 v1 v2 : object) (w : world) (c : client) (k : string) (o : object)
  (d1 d2 d3 : Z) (rest : list behaviour) :
  validateQuery q1 = inr v1 ->
  validateQuery q2 = inr v2 ->
  CacheService.available w = true ->
  this_client (cacheService w) = Some c ->
  encodeArg c PromiseObject = Some k ->
  answers w = Reply d1 :: Reply d2 :: Reply d3 :: rest ->
  0 <= d1 -> 0 <= d2 < CacheService.CACHE_EXPIRY * 1000 -> 0 <= d3 ->
  Redis.read (now w) (db w) k = None ->
  (forall w0, listChapters v1 w0 = Returns w0 (VObj o)) ->
  is_json (VObj o) = true ->
  exists w1 w2,
    handler q1 w = Returns w1 (Json 200 [VObj o]) /\
    handler q2 w1 = Returns w2 (Next "TypeError: cachedData is not iterable").
Proof.
  intros Hq1 Hq2 Hav Hc Henc Hans Hd1 Hd2 Hd3 Hmiss Hlist
    (text & Htext & Hne & Hparse)%JSON_round_trip.
  assert (Htruthy : truthy (VObj o) = true) by done.
  assert (Hspread : spread (VObj o) = None) by done.
  revert Hlist Htext Hparse Htruthy Hspread. generalize (VObj o) as data.
  intros data Hlist Htext Hparse Htruthy Hspread.
  rewrite (getChapters_steps validateQuery listChapters _ _ _ Hq1).
  destruct w as [t d ans rc [tc ini]]. cbn in * |-. subst. destruct c as [op st enc].
  unfold CacheService.available in Hav. cbn in Hav, Henc.
  apply andb_prop in Hav as [-> ->]. unfold CacheService.CACHE_EXPIRY in *.
  run_cache_ops. rewrite Henc. run_cache_ops. unfold Redis.GET. rewrite Hmiss.
  run_cache_ops. rewrite Hlist. run_cache_ops.
  rewrite Htext. run_cache_ops. rewrite Henc. run_cache_ops.
  unfold set_clock. cbn -[Z.add Z.mul Z.max]. rewrite !Z.max_id.
  eexists _, _. split; [reflexivity|].
  rewrite (getChapters_steps validateQuery listChapters _ _ _ Hq2).
  run_cache_ops. rewrite Henc. run_cache_ops. unfold Redis.GET, Redis.read.
  rewrite lookup_insert_eq. unfold Redis.live. cbn -[Z.add Z.mul Z.max].
  destruct (Z.ltb_spec ((t `max` (t + d1)) `max` ((t `max` (t + d1)) + d2))
              ((t `max` (t + d1)) + 3600 * 1000)) as [_|]; [|lia].
  run_cache_ops. rewrite Hne. run_cache_ops. rewrite Hparse. run_cache_ops.
  by rewrite Htruthy, Hspread.
Qed.

End ControllerMore.

(** *** The handler at concrete requests *)

Section ControllerAtWork.
Import ChapterController.

Lemma getChapters_never_caches_witness :
  CacheService.get (Exotic PromiseObject) (Examples.online [] ∅)
  = Returns (Examples.online [] ∅) VNull /\
  CacheService.set (Exotic PromiseObject)
    (VObj [("success", VBool true); ("currentPage", VNum (Int 1))])
    CacheService.CACHE_EXPIRY (Examples.online [] ∅)
  = Returns (Examples.online [] ∅) false /\
  getChapters Examples.accept_all Examples.echo_page [("page", VNum (Int 1))]
    (Examples.online [] ∅)
  = Returns (Examples.online [] ∅)
      (Json 200 [VObj [("success", VBool true); ("currentPage", VNum (Int 1))]]).
Proof.
  apply (getChapters_never_caches_with_a_strict_client
           Examples.accept_all Examples.echo_page
           [("page", VNum (Int 1))] [("page", VNum (Int 1))]
           (Examples.online [] ∅) (Examples.online [] ∅) Examples.strict_client);
    reflexivity.
Defined.

Lemma cached_listing_witness :
  exists w1 w2,
    getChapters Examples.accept_all Examples.echo_page [("page", VNum (Int 1))]
      (Examples.online_lenient [Reply 1; Reply 2; Reply 3] ∅)
    = Returns w1 (Json 200 [VObj [("success", VBool true); ("currentPage", VNum (Int 1))]]) /\
    getChapters Examples.accept_all Examples.echo_page [("page", VNum (Int 2))] w1
    = Returns w2 (Next "TypeError: cachedData is not iterable").
Proof.
  apply (cached_listing_fails_the_next_request
           Examples.accept_all Examples.echo_page
           [("page", VNum (Int 1))] [("page", VNum (Int 2))]
           [("page", VNum (Int 1))] [("page", VNum (Int 2))]
           (Examples.online_lenient [Reply 1; Reply 2; Reply 3] ∅)
           Examples.lenient_client "[object Promise]"
           [("success", VBool true); ("currentPage", VNum (Int 1))] 1 2 3 []);
    try reflexivity; try lia.
  unfold CacheService.CACHE_EXPIRY. lia.
Defined.

End ControllerAtWork.

(** ** Cache keys tell queries apart *)

Section KeyFacts.
Import CacheService.

(** The character [c] does not occur in the text. *)
Local Abbreviation free_of c s :=
  (all_chars (fun x => negb (Ascii.eqb x c)) s = true).

Lemma free_of_cons c x s : free_of c (String x s) <-> x <> c /\ free_of c s.
Proof.
  cbn [all_chars]. rewrite andb_true_iff, negb_true_iff. by rewrite Ascii.eqb_neq.
Qed.

Lemma free_of_app c a b : free_of c a -> free_of c b -> free_of c (a +:+ b).
Proof.
  intros Ha Hb. induction a as [|x a IH]; [done|].
  rewrite append_cons. apply free_of_cons in Ha as [? ?]. apply free_of_cons. auto.
Qed.

(** A text that is free of [c] ends where the first [c] stands. *)
Lemma split_at c a b ra rb :
  free_of c a -> free_of c b ->
  a +:+ String c ra = b +:+ String c rb -> a = b /\ ra = rb.
Proof.
  revert b. induction a as [|x a IH]; intros [|y b] Ha Hb Heq.
  - by injection Heq as ->.
  - apply free_of_cons in Hb as [Hy _]. by injection Heq as <- _.
  - apply free_of_cons in Ha as [Hx _]. by injection Heq as -> _.
  - apply free_of_cons in Ha as [_ Ha]. apply free_of_cons in Hb as [_ Hb].
    rewrite !append_cons in Heq. injection Heq as -> Heq.
    by destruct (IH b Ha Hb Heq) as [-> ->].
Qed.

Lemma split_end c a b rb : free_of c a -> a <> b +:+ String c rb.
Proof.
  revert b. induction a as [|x a IH]; intros [|y b] Ha; try done.
  - apply free_of_cons in Ha as [Hx _]. by intros [= -> _].
  - apply free_of_cons in Ha as [_ Ha]. rewrite append_cons. intros [= _ Heq].
    by apply (IH b Ha).
Qed.

Lemma append_inj_r (e a b : string) : e +:+ a = e +:+ b -> a = b.
Proof.
  induction e as [|x e IH]; [done|]. rewrite !append_cons. intros [= Heq]. auto.
Qed.

(** Texts free of the separator are read back from their join. *)
Lemma join_inj c l1 l2 :
  Forall (fun s => free_of c s) l1 -> Forall (fun s => free_of c s) l2 ->
  Forall (fun s => s <> "") l1 -> Forall (fun s => s <> "") l2 ->
  join (String c "") l1 = join (String c "") l2 -> l1 = l2.
Proof.
  revert l2. induction l1 as [|a l1 IH]; intros l2 Hf1 Hf2 Hn1 Hn2 Heq.
  - destruct l2 as [|b [|b' l2]]; [done|..].
    + apply Forall_cons in Hn2 as [Hb _]. by destruct Hb.
    + rewrite join_cons2 in Heq. cbn [join] in Heq.
      apply Forall_cons in Hn2 as [Hb _]. destruct b; [done|discriminate].
  - apply Forall_cons in Hf1 as [Ha Hf1]. apply Forall_cons in Hn1 as [Hna Hn1].
    destruct l2 as [|b l2].
    { destruct l1 as [|a' l1]; cbn [join] in Heq; [done|].
      destruct a; [done|discriminate]. }
    apply Forall_cons in Hf2 as [Hb Hf2]. apply Forall_cons in Hn2 as [Hnb Hn2].
    destruct l1 as [|a' l1], l2 as [|b' l2].
    + cbn [join] in Heq. by subst.
    + rewrite join_cons2 in Heq. cbn [join] in Heq. change (String c "" +:+ ?x)
        with (String c x) in Heq. by apply split_end in Heq.
    + rewrite join_cons2 in Heq. cbn [join] in Heq. symmetry in Heq.
      by apply split_end in Heq.
    + rewrite !join_cons2 in Heq.
      apply split_at in Heq as [-> Heq]; [|done..].
      f_equal. by apply IH.
Qed.

(** *** [encodeURIComponent] can be undone *)

Lemma hex_digit_code n :
  (n < 16)%N ->
  N_of_ascii (hex_digit n) = (if (n <? 10)%N then 48 + n else 55 + n)%N.
Proof.
  intros Hn. unfold hex_digit.
  destruct (N.ltb_spec n 10); apply N_ascii_embedding; lia.
Qed.

Lemma hex_digit_inj n m :
  (n < 16)%N -> (m < 16)%N -> hex_digit n = hex_digit m -> n = m.
Proof.
  intros Hn Hm Heq. apply (f_equal N_of_ascii) in Heq.
  rewrite !hex_digit_code in Heq by done.
  destruct (N.ltb_spec n 10), (N.ltb_spec m 10); lia.
Qed.

Lemma percent_encode_inj c1 c2 : percent_encode c1 = percent_encode c2 -> c1 = c2.
Proof.
  unfold percent_encode. intros [= Hhigh Hlow].
  pose proof (N_ascii_bounded c1). pose proof (N_ascii_bounded c2).
  apply hex_digit_inj in Hhigh; [|by apply N.Div0.div_lt_upper_bound..].
  apply hex_digit_inj in Hlow; [|by apply N.mod_lt..].
  rewrite <- (ascii_N_embedding c1), <- (ascii_N_embedding c2). f_equal.
  rewrite (N.div_mod (N_of_ascii c1) 16), (N.div_mod (N_of_ascii c2) 16) by done.
  by rewrite Hhigh, Hlow.
Qed.

Lemma encodeURIComponent_inj s1 s2 :
  encodeURIComponent s1 = encodeURIComponent s2 -> s1 = s2.
Proof.
  revert s2. induction s1 as [|c1 s1 IH]; intros [|c2 s2]; cbn [encodeURIComponent].
  - done.
  - by destruct (uri_unreserved c2).
  - by destruct (uri_unreserved c1).
  - destruct (uri_unreserved c1) eqn:H1, (uri_unreserved c2) eqn:H2.
    + intros [= -> Heq]. f_equal. auto.
    + unfold percent_encode. intros [= -> _]. discriminate.
    + unfold percent_encode. intros [= <- _]. discriminate.
    + unfold percent_encode. rewrite !append_cons. intros [= Hhigh Hlow Heq].
      f_equal; [|auto].
      apply percent_encode_inj. unfold percent_encode. by rewrite Hhigh, Hlow.
Qed.

(** What [encodeURIComponent] writes holds neither [&] nor [=]. *)
Lemma hex_digit_plain c n :
  (n < 16)%N -> (N_of_ascii c < 48)%N \/ (N_of_ascii c = 61)%N -> hex_digit n <> c.
Proof.
  intros Hn Hc <-. rewrite hex_digit_code in Hc by done.
  destruct (N.ltb_spec n 10); lia.
Qed.

Lemma encodeURIComponent_plain c s :
  c = "&"%char \/ c = "="%char -> free_of c (encodeURIComponent s).
Proof.
  intros Hc. induction s as [|x s IH]; [done|]. cbn [encodeURIComponent].
  apply free_of_app; [|exact IH].
  destruct (uri_unreserved x) eqn:Hx.
  - apply free_of_cons. split; [|done]. intros ->. by destruct Hc as [->| ->].
  - pose proof (N_ascii_bounded x). unfold percent_encode.
    repeat (apply free_of_cons; split); try done.
    + by destruct Hc as [->| ->].
    + apply hex_digit_plain; [by apply N.Div0.div_lt_upper_bound|].
      destruct Hc as [->| ->]; cbn; lia.
    + apply hex_digit_plain; [by apply N.mod_lt|].
      destruct Hc as [->| ->]; cbn; lia.
Qed.

(** *** The key of a query *)

Local Abbreviation item query :=
  (fun key => key +:+ "=" +:+ encodeURIComponent (ToString (prop_get query key))).
Local Abbreviation kept query :=
  (filter (fun key => defined_value (prop_get query key) = true)
     (sort (Object_keys query))).

Lemma prop_get_missing (o : object) k : k ∉ Object_keys o -> prop_get o k = VUndefined.
Proof.
  induction o as [|[k' v] o IH]; [done|]. cbn. intros Hk.
  destruct (String.eqb_spec k' k) as [->|]; [destruct Hk; by left|].
  apply IH. intros ?. apply Hk. by right.
Qed.

Lemma elem_of_kept query k :
  k ∈ kept query <-> defined_value (prop_get query k) = true.
Proof.
  rewrite list_elem_of_filter, sort_perm. split; [by intros [? _]|].
  intros Hk. split; [done|].
  destruct (decide (k ∈ Object_keys query)) as [|Hout]; [done|].
  by rewrite (prop_get_missing _ _ Hout) in Hk.
Qed.

Lemma kept_is_key query k : k ∈ kept query -> k ∈ Object_keys query.
Proof. rewrite list_elem_of_filter, sort_perm. by intros [_ ?]. Qed.

(** The key is the endpoint and, when a pair is kept, a question mark
    and the pairs. *)
Lemma cacheKey_pairs endpoint query :
  cacheKey endpoint (Some query)
  = endpoint +:+ match kept query with
                 | [] => ""
                 | _ => "?" +:+ join "&" (map (item query) (kept query))
                 end.
Proof.
  unfold cacheKey. destruct query as [|kv query].
  { change (sort (Object_keys [])) with (@nil string). rewrite filter_nil.
    change (length (Object_keys []) =? 0)%nat with true. cbv iota.
    by rewrite append_empty. }
  change (length (Object_keys (kv :: query)) =? 0)%nat with false. cbv iota zeta.
  destruct (kept (kv :: query)) as [|k ks]; [done|].
  destruct (join_head "&" (item (kv :: query) k) (map (item (kv :: query)) ks) "")
    as (rest & Hrest).
  rewrite append_empty in Hrest. cbn [map]. rewrite Hrest.
  by destruct k.
Qed.

(** X27.  Cache keys tell queries apart: when no key of two queries
    holds [&] or [=], equal cache keys for the same endpoint mean that
    the queries have the same keys with a value and, under each of
    them, values with the same text.  (Values are compared as texts:
    the number 1 and the string 1 give the same key.) *)
Theorem cacheKey_separates_queries (endpoint : string) (q1 q2 : object) :
  (forall k, k ∈ Object_keys q1 ++ Object_keys q2 ->
     free_of "&"%char k /\ free_of "="%char k) ->
  cacheKey endpoint (Some q1) = cacheKey endpoint (Some q2) ->
  forall k,
    defined_value (prop_get q1 k) = defined_value (prop_get q2 k) /\
    (defined_value (prop_get q1 k) = true ->
     ToString (prop_get q1 k) = ToString (prop_get q2 k)).
Proof.
  intros Hplain Hkey.
  assert (Hitem : forall q, (forall k, k ∈ Object_keys q ->
                               free_of "&"%char k /\ free_of "="%char k) ->
            Forall (fun s => free_of "&"%char s) (map (item q) (kept q)) /\
            Forall (fun s => s <> "") (map (item q) (kept q))).
  { intros q Hq. split; apply Forall_forall; intros s (k & -> & Hk)%list_elem_of_fmap.
    - apply free_of_app; [by apply Hq, kept_is_key|].
      apply free_of_app; [done|]. apply encodeURIComponent_plain. by left.
    - by destruct k. }
  assert (Hitems : map (item q1) (kept q1) = map (item q2) (kept q2)).
  { rewrite !cacheKey_pairs in Hkey. apply append_inj_r in Hkey.
    destruct (Hitem q1) as [Hf1 Hn1]; [intros; apply Hplain, elem_of_app; by left|].
    destruct (Hitem q2) as [Hf2 Hn2]; [intros; apply Hplain, elem_of_app; by right|].
    destruct (kept q1) as [|k1 ks1] eqn:H1, (kept q2) as [|k2 ks2] eqn:H2; try done.
    injection Hkey as Hkey. by apply (join_inj "&"%char). }
  assert (Hone : forall qa qb, map (item qa) (kept qa) = map (item qb) (kept qb) ->
            (forall k, k ∈ Object_keys qa ++ Object_keys qb ->
               free_of "&"%char k /\ free_of "="%char k) ->
            forall k, defined_value (prop_get qa k) = true ->
              defined_value (prop_get qb k) = true /\
              ToString (prop_get qa k) = ToString (prop_get qb k)).
  { intros qa qb Hab Hp k Hk%elem_of_kept.
    assert (item qa k ∈ map (item qb) (kept qb)) as (k' & Heq & Hk')%list_elem_of_fmap.
    { rewrite <- Hab. apply list_elem_of_fmap. by exists k. }
    apply split_at in Heq as [-> Heq].
    - split; [by apply elem_of_kept|]. by apply encodeURIComponent_inj.
    - apply Hp, elem_of_app. left. by apply kept_is_key.
    - apply Hp, elem_of_app. right. by apply kept_is_key. }
  intros k.
  destruct (defined_value (prop_get q1 k)) eqn:E1.
  - destruct (Hone q1 q2 Hitems Hplain k E1) as [-> ?]. by split.
  - split; [|done].
    destruct (defined_value (prop_get q2 k)) eqn:E2; [|done].
    destruct (Hone q2 q1 (eq_sym Hitems)) with (k := k) as [E _]; [|done|congruence].
    intros k' Hk'. apply Hplain. rewrite elem_of_app in *. tauto.
Qed.

Lemma cacheKey_separates_witness :
  defined_value (prop_get [("page", VNum (Int 2)); ("class", VStr "Class 11")] "page")
  = defined_value (prop_get [("class", VStr "Class 11"); ("page", VStr "2")] "page") /\
  (defined_value (prop_get [("page", VNum (Int 2)); ("class", VStr "Class 11")] "page") = true ->
   ToString (prop_get [("page", VNum (Int 2)); ("class", VStr "Class 11")] "page")
   = ToString (prop_get [("class", VStr "Class 11"); ("page", VStr "2")] "page")).
Proof.
  apply (cacheKey_separates_queries "/api/v1/chapters"
           [("page", VNum (Int 2)); ("class", VStr "Class 11")]
           [("class", VStr "Class 11"); ("page", VStr "2")]).
  - intros k Hk. cbn in Hk.
    repeat (apply elem_of_cons in Hk as [->|Hk]; [by split|]).
    by apply elem_of_nil in Hk.
  - vm_compute. reflexivity.
Defined.

End KeyFacts.

(** ** Counting the hits of a window *)

Section WindowFacts.
Import RateLimiter.

Local Abbreviation total ds := (foldr Z.add 0 ds).
Local Abbreviation again key := (fun m : async hits => m ≫= fun _ => incr key).

Ltac run_hits :=
  unfold incr, getClient, getRedisClient, usable, client_incr, client_expire,
    send, next_answer, Date_now, try_catch, await, mbind, async_bind, mret,
    async_ret;
  cbn -[Redis.INCR Redis.EXPIRE Z.add Z.mul Z.max].

Lemma total_app ds d : total (ds ++ [d]) = total ds + d.
Proof. induction ds as [|x ds IH]; cbn; lia. Qed.

Lemma total_nonneg ds : Forall (fun d => 0 <= d) ds -> 0 <= total ds.
Proof. induction 1; cbn; lia. Qed.

Lemma split_last {A} (l : list A) n :
  length l = S n -> exists l' x, l = l' ++ [x] /\ length l' = n.
Proof.
  intros Hlen. destruct l as [|a l] using rev_ind; [done|].
  exists l, a. split; [done|]. rewrite length_app in Hlen. cbn in Hlen. lia.
Qed.

(** The hits of one window, one after the other: the state of the
    counter after each. *)
Lemma hits_are_counted key c n :
  forall ds rest w,
    connected w = Some c ->
    Redis.read (now w) (db w) (prefix +:+ key) = None ->
    answers w = (Reply <$> ds) ++ rest ->
    length ds = S (S n) ->
    Forall (fun d => 0 <= d) ds ->
    total ds < 60000 ->
    Z.of_nat (S n) <= Redis.INT64_MAX ->
    exists w' h,
      Nat.iter n (again key) (incr key) w = Returns w' h /\
      totalHits h = Z.of_nat (S n) /\
      resetTime h = now w' + 60000 /\
      now w' = now w + total ds /\
      answers w' = rest /\
      redisClient w' = redisClient w /\
      db w' !! (prefix +:+ key)
      = Some {| Redis.data := Z_to_string (Z.of_nat (S n));
                Redis.expires := Some (now w + default 0 (head ds) + 60 * 1000) |}.
Proof.
  induction n as [|n IH]; intros ds rest w Hconn Hfresh Hans Hlen Hpos Hsum Hmax.
  - destruct ds as [|d1 [|d2 [|? ?]]]; try done.
    apply Forall_cons in Hpos as [H1 [H2 _]%Forall_cons]. cbn in Hsum, Hans.
    apply connected_Some in Hconn as (Hc & Hready & Hopen).
    destruct w as [t d ans rc cs]; destruct c as [op st enc]; cbn in * |-; subst.
    cbn [Nat.iter]. run_hits.
    rewrite (INCR_fresh _ _ _ Hfresh). cbn -[Redis.EXPIRE Z.add Z.mul Z.max].
    erewrite EXPIRE_live; [|by apply read_insert_live|lia].
    unfold set_clock. cbn -[Z.add Z.mul Z.max]. repeat rewrite Z.max_r by lia.
    eexists _, _. split; [reflexivity|]. cbn -[Z.add Z.mul].
    rewrite lookup_insert_eq. repeat split; (done || lia).
  - destruct (split_last ds (S (S n)) Hlen) as (ds' & dl & -> & Hlen').
    apply Forall_app in Hpos as [Hpos' [Hdl _]%Forall_cons].
    rewrite total_app in Hsum. pose proof (total_nonneg ds' Hpos') as Htot.
    rewrite fmap_app, <- app_assoc in Hans. cbn [fmap list_fmap app] in Hans.
    destruct (IH ds' (Reply dl :: rest) w Hconn Hfresh Hans Hlen' Hpos'
                ltac:(lia) ltac:(lia))
      as (w1 & h1 & Hrun & _ & _ & Hnow & Hans1 & Hrc & Hdb).
    rewrite Nat.iter_succ. cbv beta. rewrite (bind_returns _ _ _ _ _ Hrun).
    assert (default 0 (head (ds' ++ [dl])) = default 0 (head ds')) as ->
      by (by destruct ds').
    assert (0 <= default 0 (head ds') <= total ds') as Hhead.
    { destruct ds' as [|d1 ds']; [done|]. cbn.
      apply Forall_cons in Hpos' as [? Hrest%total_nonneg]. lia. }
    apply connected_Some in Hconn as (Hc & Hready & Hopen).
    destruct w as [t d ans rc cs]; destruct w1 as [t1 db1 ans1 rc1 cs1];
      destruct c as [op st enc]; cbn in * |-; subst.
    set (e := {| Redis.data := Z_to_string (Z.of_nat (S n));
                 Redis.expires := Some (t + default 0 (head ds') + 60 * 1000) |}).
    assert (Hread : Redis.read (t + total ds') db1 (prefix +:+ key) = Some e).
    { apply read_Some. split; [done|]. unfold Redis.live. cbn.
      apply Z.ltb_lt. lia. }
    run_hits. unfold Redis.INCR.
    rewrite (incr_by_spec 1 _ _ _ (Z.of_nat (S n)))
      by (rewrite ?Hread; cbn -[Z.of_nat]; unfold Redis.INT64_MIN in *;
          (apply Z_of_to_string || lia)).
    rewrite Hread. cbn -[Z.add Z.mul Z.max Z.of_nat].
    destruct (Z.eqb_spec (Z.of_nat (S n) + 1) 1) as [|_]; [lia|].
    cbn -[Z.add Z.mul Z.max Z.of_nat].
    unfold set_clock. cbn -[Z.add Z.mul Z.max Z.of_nat]. rewrite Z.max_r by lia.
    eexists _, _. split; [reflexivity|]. cbn -[Z.add Z.mul Z.of_nat].
    rewrite lookup_insert_eq, total_app.
    replace (Z.of_nat (S n) + 1) with (Z.of_nat (S (S n))) by lia.
    repeat split; (done || lia).
Qed.

(** X28.  The hits of one window are counted: on a key without a
    counter, when the store answers every command and the answers take
    less than a minute together, hit number [n + 1] is told that it is
    hit number [n + 1].  The key still expires a minute after the first
    hit was counted, while the reset time the hit is told is a minute
    after its own answer. *)
Theorem hits_in_one_window_are_counted
  (key : string) (c : client) (n : nat) (ds : list Z) (rest : list behaviour)
  (w : world) :
  connected w = Some c ->
  Redis.read (now w) (db w) (prefix +:+ key) = None ->
  answers w = (Reply <$> ds) ++ rest ->
  length ds = S (S n) ->
  Forall (fun d => 0 <= d) ds ->
  total ds < 60000 ->
  Z.of_nat (S n) <= Redis.INT64_MAX ->
  exists w' h,
    Nat.iter n (again key) (incr key) w = Returns w' h /\
    totalHits h = Z.of_nat (S n) /\
    resetTime h = now w + total ds + 60000 /\
    db w' !! (prefix +:+ key)
    = Some {| Redis.data := Z_to_string (Z.of_nat (S n));
              Redis.expires := Some (now w + default 0 (head ds) + 60 * 1000) |}.
Proof.
  intros Hconn Hfresh Hans Hlen Hpos Hsum Hmax.
  destruct (hits_are_counted key c n ds rest w)
    as (w' & h & Hrun & Hhits & Hreset & Hnow & _ & _ & Hdb); try done.
  exists w', h. repeat split; try done. lia.
Qed.

Lemma hits_in_one_window_witness :
  exists w' h,
    Nat.iter 2 (again Examples.address) (incr Examples.address)
      (Examples.online [Reply 5; Reply 5; Reply 10; Reply 20] ∅)
    = Returns w' h /\
    totalHits h = Z.of_nat 3 /\
    resetTime h
    = now (Examples.online [Reply 5; Reply 5; Reply 10; Reply 20] ∅)
      + total [5; 5; 10; 20] + 60000 /\
    db w' !! (prefix +:+ Examples.address)
    = Some {| Redis.data := Z_to_string (Z.of_nat 3);
              Redis.expires :=
                Some (now (Examples.online [Reply 5; Reply 5; Reply 10; Reply 20] ∅)
                      + default 0 (head [5; 5; 10; 20]) + 60 * 1000) |}.
Proof.
  apply (hits_in_one_window_are_counted Examples.address Examples.strict_client 2
           [5; 5; 10; 20] []
           (Examples.online [Reply 5; Reply 5; Reply 10; Reply 20] ∅));
    try reflexivity.
  - repeat constructor; lia.
  - unfold Redis.INT64_MAX. lia.
Defined.

End WindowFacts.
